(** * HOFFMAN, a chess endgame tablebase builder: a shallow embedding of
    [hoffman.c] and the properties of its retrograde-propagation core.

    Conventions of the embedding.
    - C integers are [Z]; a store into an [unsigned char] field reduces
      modulo 256 ([to_uchar]), a store into an [int32] reduces modulo 2^32
      ([to_uint32]).  64-bit board vectors are [Z] with [Z.land], [Z.lor]
      and [Z.shiftl].
    - C arrays are lists read with [zget] and written with stdpp's list
      insert and alter (which leave the list alone out of range, where C is
      undefined).
    - Functions that write to the table or print to stderr pass a [state]
      explicitly: the tablebase and the diagnostics printed so far. *)

From Stdlib Require Import ZArith List Bool String Lia.
From stdpp Require Import base list list_numbers.
Import ListNotations.
Local Open Scope Z_scope.

(** ** Global constants *)

Definition MAX_MOBILES : Z := 8.
Definition STALEMATE_COUNT : Z := 100.
Definition NUM_PIECES : Z := 7.
Definition NUM_SQUARES : Z := 64.
Definition NUM_DIR : Z := 8.
Definition NUM_MOVEMENTS : Z := 7.

Definition WHITE_KING : Z := 0.
Definition BLACK_KING : Z := 1.

Definition KING : Z := 0.
Definition QUEEN : Z := 1.
Definition ROOK : Z := 2.
Definition BISHOP : Z := 3.
Definition KNIGHT : Z := 4.
Definition PAWN : Z := 5.
Definition PAWNep : Z := 6.

Definition WHITE : Z := 0.
Definition BLACK : Z := 1.

Definition ILLEGAL_POSITION : Z := 255.
Definition PTM_WINS_PROPAGATION_DONE : Z := 254.
Definition PNTM_WINS_PROPAGATION_DONE : Z := 253.
Definition PTM_WINS_PROPAGATION_NEEDED : Z := 252.
Definition PNTM_WINS_PROPAGATION_NEEDED : Z := 0.
Definition MAX_MOVECNT : Z := 251.

(** ** Machine integers and arrays *)

(** Conversion of an [int] to [unsigned char]. *)
Definition to_uchar (v : Z) : Z := v mod 256.

(** Conversion to [int32] ([unsigned int]). *)
Definition to_uint32 (v : Z) : Z := v mod 2 ^ 32.

(** [a[i]] for an array held as a list; [d] stands for the cell when the
    index is beyond the end of the list.  (The program never indexes an
    array with a negative number.) *)
Definition zget {A : Type} (d : A) (a : list A) (i : Z) : A :=
  default d (a !! Z.to_nat i).

(** ** Data structures *)

Record position := Position {
  board_vector : Z;
  white_vector : Z;
  black_vector : Z;
  side_to_move : Z;
  mobile_piece_position : list Z
}.

(** [bitvector[square]], as [init_movements] fills it: [1ULL << square]. *)
Definition bitvector (sq : Z) : Z := Z.shiftl 1 sq.
Definition allones_bitvector : Z := 2 ^ 64 - 1.

Definition piece_name : list string :=
  ["KING"; "QUEEN"; "ROOK"; "BISHOP"; "KNIGHT"; "PAWN"; "PAWNep"]%string.

Record fourbyte_entry := Entry {
  movecnt : Z;
  mate_in_cnt : Z;
  stalemate_cnt : Z;
  reserved : Z
}.

Record tablebase := Tablebase {
  num_mobiles : Z;
  mobile_piece_type : list Z;
  mobile_piece_color : list Z;
  entries : list fourbyte_entry
}.

(** An argument of a [fprintf] format. *)
Inductive fmt_arg :=
| ArgInt (z : Z)
| ArgStr (s : string).

(** One [fprintf(stderr, fmt, args...)]. *)
Record diag := Diag { fmt : string; fmt_args : list fmt_arg }.

(** What the functions below read and write: the tablebase behind the
    [tablebase *tb] argument and the stream stderr. *)
Record state := State {
  tb : tablebase;
  stderr : list diag
}.

Definition fprintf (f : string) (a : list fmt_arg) (st : state) : state :=
  State (tb st) (stderr st ++ [Diag f a]).

(** An entry of [calloc]'ed memory. *)
Definition zero_entry : fourbyte_entry := Entry 0 0 0 0.

(** [tb->entries[index]] *)
Definition entry_at (t : tablebase) (index : Z) : fourbyte_entry :=
  zget zero_entry (entries t) index.

Definition set_movecnt (v : Z) (e : fourbyte_entry) : fourbyte_entry :=
  Entry (to_uchar v) (mate_in_cnt e) (stalemate_cnt e) (reserved e).
Definition set_mate_in_cnt (v : Z) (e : fourbyte_entry) : fourbyte_entry :=
  Entry (movecnt e) (to_uchar v) (stalemate_cnt e) (reserved e).
Definition set_stalemate_cnt (v : Z) (e : fourbyte_entry) : fourbyte_entry :=
  Entry (movecnt e) (mate_in_cnt e) (to_uchar v) (reserved e).

(** A write to fields of [tb->entries[index]]. *)
Definition store (st : state) (index : Z)
    (f : fourbyte_entry -> fourbyte_entry) : state :=
  State (Tablebase (num_mobiles (tb st)) (mobile_piece_type (tb st))
           (mobile_piece_color (tb st))
           (alter f (Z.to_nat index) (entries (tb st))))
        (stderr st).

(** Simple initialization for a K+Q vs K endgame.  The header is
    [malloc]'ed: the cells of the two arrays beyond the third are not
    initialized and never read; they are shown as 0. *)
Definition create_tablebase : tablebase :=
  Tablebase 3
    [KING; KING; QUEEN; 0; 0; 0; 0; 0]
    [WHITE; BLACK; WHITE; 0; 0; 0; 0; 0]
    (replicate (Z.to_nat (2 * 64 * 64 * 64)) zero_entry).

Definition max_index (t : tablebase) : Z :=
  to_uint32 (Z.shiftl 2 (6 * num_mobiles t) - 1).

(** ** Position codec *)

Definition mobile (p : position) (piece : Z) : Z :=
  zget 0 (mobile_piece_position p) piece.

Definition set_mobile (p : position) (piece sq : Z) : position :=
  Position (board_vector p) (white_vector p) (black_vector p) (side_to_move p)
    (<[Z.to_nat piece := sq]> (mobile_piece_position p)).

Definition set_side_to_move (p : position) (s : Z) : position :=
  Position (board_vector p) (white_vector p) (black_vector p) s
    (mobile_piece_position p).

Definition position_to_index (t : tablebase) (pos : position) : Z :=
  snd (fold_left
         (fun (acc : Z * Z) (piece : Z) =>
            let '(shift_count, index) := acc in
            (shift_count + 6,
             to_uint32 (Z.lor index (Z.shiftl (mobile pos piece) shift_count))))
         (seqZ 0 (num_mobiles t))
         (1, to_uint32 (side_to_move pos))).

(** The position after [bzero]. *)
Definition zero_position : position :=
  Position 0 0 0 0 (replicate (Z.to_nat MAX_MOBILES) 0).

(** The loop of [index_to_position] over the pieces still to place; the
    boolean is the value returned, the position is [*p] on return. *)
Fixpoint index_to_position_loop (t : tablebase) (pieces : list Z) (index : Z)
    (p : position) : bool * position :=
  match pieces with
  | [] => (true, p)
  | piece :: rest =>
    let p := set_mobile p piece (Z.land index 63) in
    if negb (Z.land (board_vector p) (bitvector (Z.land index 63)) =? 0)
    then (false, p)
    else
      let bv := Z.lor (board_vector p) (bitvector (Z.land index 63)) in
      let p :=
        if zget 0 (mobile_piece_color t) piece =? WHITE
        then Position bv (Z.lor (white_vector p) (bitvector (Z.land index 63)))
               (black_vector p) (side_to_move p) (mobile_piece_position p)
        else Position bv (white_vector p)
               (Z.lor (black_vector p) (bitvector (Z.land index 63)))
               (side_to_move p) (mobile_piece_position p) in
      index_to_position_loop t rest (Z.shiftr index 6) p
  end.

Definition index_to_position (t : tablebase) (index : Z) : bool * position :=
  index_to_position_loop t (seqZ 0 (num_mobiles t)) (Z.shiftr index 1)
    (set_side_to_move zero_position (Z.land index 1)).

(** ** Entry operations *)

Definition WHITE_TO_MOVE (index : Z) : bool := Z.land index 1 =? WHITE.
Definition BLACK_TO_MOVE (index : Z) : bool := Z.land index 1 =? BLACK.

Definition does_white_win (t : tablebase) (index : Z) : bool :=
  if WHITE_TO_MOVE index
  then (movecnt (entry_at t index) =? PTM_WINS_PROPAGATION_NEEDED)
       || (movecnt (entry_at t index) =? PTM_WINS_PROPAGATION_DONE)
  else (movecnt (entry_at t index) =? PNTM_WINS_PROPAGATION_NEEDED)
       || (movecnt (entry_at t index) =? PNTM_WINS_PROPAGATION_DONE).

Definition does_black_win (t : tablebase) (index : Z) : bool :=
  if BLACK_TO_MOVE index
  then (movecnt (entry_at t index) =? PTM_WINS_PROPAGATION_NEEDED)
       || (movecnt (entry_at t index) =? PTM_WINS_PROPAGATION_DONE)
  else (movecnt (entry_at t index) =? PNTM_WINS_PROPAGATION_NEEDED)
       || (movecnt (entry_at t index) =? PNTM_WINS_PROPAGATION_DONE).

Definition needs_propagation (t : tablebase) (index : Z) : bool :=
  (movecnt (entry_at t index) =? PTM_WINS_PROPAGATION_NEEDED)
  || (movecnt (entry_at t index) =? PNTM_WINS_PROPAGATION_NEEDED).

Definition mark_propagated (st : state) (index : Z) : state :=
  if movecnt (entry_at (tb st) index) =? PTM_WINS_PROPAGATION_NEEDED then
    store st index (set_movecnt PTM_WINS_PROPAGATION_DONE)
  else if movecnt (entry_at (tb st) index) =? PNTM_WINS_PROPAGATION_NEEDED then
    store st index (set_movecnt PNTM_WINS_PROPAGATION_DONE)
  else
    fprintf "Propagation attempt on a completed or unresolved position\n" [] st.

Definition get_mate_in_count (t : tablebase) (index : Z) : Z :=
  if (1 <=? movecnt (entry_at t index))
     && (movecnt (entry_at t index) <=? MAX_MOVECNT)
  then -1
  else mate_in_cnt (entry_at t index).

Definition get_stalemate_count (t : tablebase) (index : Z) : Z :=
  stalemate_cnt (entry_at t index).

(** The three stores of the last branch of [white_wins] and [black_wins]. *)
Definition record_win (v mate_in_count stalemate_count : Z)
    (e : fourbyte_entry) : fourbyte_entry :=
  set_stalemate_cnt stalemate_count
    (set_mate_in_cnt mate_in_count (set_movecnt v e)).

Definition white_wins (st : state)
    (index mate_in_count stalemate_count : Z) : state :=
  if WHITE_TO_MOVE index then
    if (movecnt (entry_at (tb st) index) =? PTM_WINS_PROPAGATION_NEEDED)
       || (movecnt (entry_at (tb st) index) =? PTM_WINS_PROPAGATION_DONE) then
      if mate_in_count <? mate_in_cnt (entry_at (tb st) index)
      then fprintf "Mate in count dropped in white_wins!?\n" [] st
      else st
    else if (movecnt (entry_at (tb st) index) =? PNTM_WINS_PROPAGATION_NEEDED)
            || (movecnt (entry_at (tb st) index) =? PNTM_WINS_PROPAGATION_DONE) then
      fprintf "White_wins in a position where black already won?!\n" [] st
    else
      store st index
        (record_win PTM_WINS_PROPAGATION_NEEDED mate_in_count stalemate_count)
  else
    let st := fprintf "White_wins in a black to move position...\n" [] st in
    if (movecnt (entry_at (tb st) index) =? PNTM_WINS_PROPAGATION_NEEDED)
       || (movecnt (entry_at (tb st) index) =? PNTM_WINS_PROPAGATION_DONE) then
      if mate_in_count <? mate_in_cnt (entry_at (tb st) index)
      then fprintf "Mate in count dropped in white_wins!?\n" [] st
      else st
    else if (movecnt (entry_at (tb st) index) =? PTM_WINS_PROPAGATION_NEEDED)
            || (movecnt (entry_at (tb st) index) =? PTM_WINS_PROPAGATION_DONE) then
      fprintf "White_wins in a position where black already won?!\n" [] st
    else
      store st index
        (record_win PNTM_WINS_PROPAGATION_NEEDED mate_in_count stalemate_count).

Definition black_wins (st : state)
    (index mate_in_count stalemate_count : Z) : state :=
  if BLACK_TO_MOVE index then
    if (movecnt (entry_at (tb st) index) =? PTM_WINS_PROPAGATION_NEEDED)
       || (movecnt (entry_at (tb st) index) =? PTM_WINS_PROPAGATION_DONE) then
      if mate_in_count <? mate_in_cnt (entry_at (tb st) index)
      then fprintf "Mate in count dropped in black_wins!?\n" [] st
      else st
    else if (movecnt (entry_at (tb st) index) =? PNTM_WINS_PROPAGATION_NEEDED)
            || (movecnt (entry_at (tb st) index) =? PNTM_WINS_PROPAGATION_DONE) then
      fprintf "Black_wins in a position where white already won?!\n" [] st
    else
      store st index
        (record_win PTM_WINS_PROPAGATION_NEEDED mate_in_count stalemate_count)
  else
    let st := fprintf "Black_wins in a white to move position...\n" [] st in
    if (movecnt (entry_at (tb st) index) =? PNTM_WINS_PROPAGATION_NEEDED)
       || (movecnt (entry_at (tb st) index) =? PNTM_WINS_PROPAGATION_DONE) then
      if mate_in_count <? mate_in_cnt (entry_at (tb st) index)
      then fprintf "Mate in count dropped in black_wins!?\n" [] st
      else st
    else if (movecnt (entry_at (tb st) index) =? PTM_WINS_PROPAGATION_NEEDED)
            || (movecnt (entry_at (tb st) index) =? PTM_WINS_PROPAGATION_DONE) then
      fprintf "Black_wins in a position where white already won?!\n" [] st
    else
      store st index
        (record_win PNTM_WINS_PROPAGATION_NEEDED mate_in_count stalemate_count).

(** The last branch of [add_one_to_white_wins] and [add_one_to_black_wins]
    on the entry: the decrement, the unconditional store of the mate-in
    count and the guarded store of the stalemate count. *)
Definition count_down (mate_in_count stalemate_count : Z)
    (e : fourbyte_entry) : fourbyte_entry :=
  let e := set_movecnt (movecnt e - 1) e in
  let e := set_mate_in_cnt mate_in_count e in
  if stalemate_count <? stalemate_cnt e
  then set_stalemate_cnt stalemate_count e
  else e.

Definition add_one_to_white_wins (st : state)
    (index mate_in_count stalemate_count : Z) : state :=
  if WHITE_TO_MOVE index then
    fprintf "add_one_to_white_wins in a white to move position\n" [] st
  else
    if (movecnt (entry_at (tb st) index) =? PTM_WINS_PROPAGATION_NEEDED)
       || (movecnt (entry_at (tb st) index) =? PTM_WINS_PROPAGATION_DONE) then
      st
    else if (movecnt (entry_at (tb st) index) =? 0)
            || (MAX_MOVECNT <? movecnt (entry_at (tb st) index)) then
      fprintf "add_one_to_white_wins in an already won position!?\n" [] st
    else
      let st' :=
        if (mate_in_count <? mate_in_cnt (entry_at (tb st) index))
           && negb (mate_in_cnt (entry_at (tb st) index) =? 255)
        then fprintf "mate-in count dropped in add_one_to_white_wins?\n" [] st
        else st in
      store st' index (count_down mate_in_count stalemate_count).

Definition add_one_to_black_wins (st : state)
    (index mate_in_count stalemate_count : Z) : state :=
  if BLACK_TO_MOVE index then
    fprintf "add_one_to_black_wins in a black to move position\n" [] st
  else
    if (movecnt (entry_at (tb st) index) =? PTM_WINS_PROPAGATION_NEEDED)
       || (movecnt (entry_at (tb st) index) =? PTM_WINS_PROPAGATION_DONE) then
      st
    else if (movecnt (entry_at (tb st) index) =? 0)
            || (MAX_MOVECNT <? movecnt (entry_at (tb st) index)) then
      fprintf "add_one_to_black_wins in an already won position!?\n" [] st
    else
      let st' :=
        if (mate_in_count <? mate_in_cnt (entry_at (tb st) index))
           && negb (mate_in_cnt (entry_at (tb st) index) =? 255)
        then fprintf "mate-in count dropped in add_one_to_black_wins?\n" [] st
        else st in
      store st' index (count_down mate_in_count stalemate_count).

(** The three stores every [initialize_index_*] function makes. *)
Definition init_entry (mc mi sc : Z) (e : fourbyte_entry) : fourbyte_entry :=
  set_stalemate_cnt sc (set_mate_in_cnt mi (set_movecnt mc e)).

Definition initialize_index_as_illegal (st : state) (index : Z) : state :=
  store st index (init_entry ILLEGAL_POSITION 255 255).

Definition initialize_index_with_white_mated (st : state) (index : Z) : state :=
  let st :=
    if WHITE_TO_MOVE index
    then fprintf "initialize_index_with_white_mated in a white to move position!\n" [] st
    else st in
  let st := store st index (init_entry PTM_WINS_PROPAGATION_NEEDED 0 0) in
  black_wins st index 0 0.

Definition initialize_index_with_black_mated (st : state) (index : Z) : state :=
  let st :=
    if BLACK_TO_MOVE index
    then fprintf "initialize_index_with_black_mated in a black to move position!\n" [] st
    else st in
  store st index (init_entry PTM_WINS_PROPAGATION_NEEDED 0 0).

Definition initialize_index_with_stalemate (st : state) (index : Z) : state :=
  store st index (init_entry 251 255 0).

Definition initialize_index_with_movecnt (st : state) (index mc : Z) : state :=
  store st index (init_entry mc 255 255).

(** ** Movement vectors *)

Record movement := Movement {
  vector : Z;
  square : Z
}.

(** A cell of the zero-initialized global array [movements]. *)
Definition zero_movement : movement := Movement 0 0.

Definition number_of_movement_directions : list Z := [8; 8; 4; 4; 8; 1; 1].
Definition maximum_movements_in_one_direction : list Z := [1; 7; 7; 7; 1; 2; 1].

Inductive direction :=
| RIGHT | LEFT | UP | DOWN | DIAG_UL | DIAG_UR | DIAG_DL | DIAG_DR
| KNIGHTmove | PAWNmove | PAWN2move.

(** [movementdir[7][8]]; the cells the initializer leaves out hold the
    enumeration's value 0, [RIGHT]. *)
Definition movementdir : list (list direction) :=
  [ [RIGHT; LEFT; UP; DOWN; DIAG_UL; DIAG_UR; DIAG_DL; DIAG_DR];
    [RIGHT; LEFT; UP; DOWN; DIAG_UL; DIAG_UR; DIAG_DL; DIAG_DR];
    [RIGHT; LEFT; UP; DOWN; RIGHT; RIGHT; RIGHT; RIGHT];
    [DIAG_UL; DIAG_UR; DIAG_DL; DIAG_DR; RIGHT; RIGHT; RIGHT; RIGHT];
    [KNIGHTmove; KNIGHTmove; KNIGHTmove; KNIGHTmove;
     KNIGHTmove; KNIGHTmove; KNIGHTmove; KNIGHTmove];
    [PAWNmove; PAWN2move; RIGHT; RIGHT; RIGHT; RIGHT; RIGHT; RIGHT];
    [PAWNmove; RIGHT; RIGHT; RIGHT; RIGHT; RIGHT; RIGHT; RIGHT] ].

Definition RIGHT_MOVEMENT_POSSIBLE (current_square : Z) : bool :=
  Z.rem current_square 8 <? 7.
Definition RIGHT2_MOVEMENT_POSSIBLE (current_square : Z) : bool :=
  Z.rem current_square 8 <? 6.
Definition LEFT_MOVEMENT_POSSIBLE (current_square : Z) : bool :=
  0 <? Z.rem current_square 8.
Definition LEFT2_MOVEMENT_POSSIBLE (current_square : Z) : bool :=
  1 <? Z.rem current_square 8.
Definition UP_MOVEMENT_POSSIBLE (current_square : Z) : bool :=
  current_square <? 56.
Definition UP2_MOVEMENT_POSSIBLE (current_square : Z) : bool :=
  current_square <? 48.
Definition DOWN_MOVEMENT_POSSIBLE (current_square : Z) : bool :=
  7 <? current_square.
Definition DOWN2_MOVEMENT_POSSIBLE (current_square : Z) : bool :=
  15 <? current_square.

(** [movements[piece][square][dir][mvmt] = {v, sq}] on the row
    [movements[piece][square][dir]]. *)
Definition put (row : list movement) (mvmt sq v : Z) : list movement :=
  <[Z.to_nat mvmt := Movement v sq]> row.

(** A case of the [switch] for a sliding direction: when the edge test
    passes, [current_square] advances to [next] and the step is written;
    otherwise the all-ones stopper is written and [current_square] stays. *)
Definition slide (possible : bool) (next mvmt current_square : Z)
    (row : list movement) : Z * list movement :=
  if possible
  then (next, put row mvmt next (bitvector next))
  else (current_square, put row mvmt (-1) allones_bitvector).

(** A case of the inner [switch (dir)] for a knight: cells 0 and 1 of the
    row when the edge tests pass, cell 0 alone otherwise. *)
Definition hop (possible : bool) (dest : Z) (row : list movement)
    : list movement :=
  if possible
  then put (put row 0 dest (bitvector dest)) 1 (-1) allones_bitvector
  else put row 0 (-1) allones_bitvector.

(** The body of the loop on [mvmt] in [init_movements]. *)
Definition init_movements_step (piece sq dir : Z)
    (acc : Z * list movement) (mvmt : Z) : Z * list movement :=
  let '(current_square, row) := acc in
  match zget RIGHT (zget [] movementdir piece) dir with
  | RIGHT =>
    slide (RIGHT_MOVEMENT_POSSIBLE current_square)
      (current_square + 1) mvmt current_square row
  | LEFT =>
    slide (LEFT_MOVEMENT_POSSIBLE current_square)
      (current_square - 1) mvmt current_square row
  | UP =>
    slide (UP_MOVEMENT_POSSIBLE current_square)
      (current_square + 8) mvmt current_square row
  | DOWN =>
    slide (DOWN_MOVEMENT_POSSIBLE current_square)
      (current_square - 8) mvmt current_square row
  | DIAG_UL =>
    slide (LEFT_MOVEMENT_POSSIBLE current_square
           && UP_MOVEMENT_POSSIBLE current_square)
      (current_square + 8 - 1) mvmt current_square row
  | DIAG_UR =>
    slide (RIGHT_MOVEMENT_POSSIBLE current_square
           && UP_MOVEMENT_POSSIBLE current_square)
      (current_square + 8 + 1) mvmt current_square row
  | DIAG_DL =>
    slide (LEFT_MOVEMENT_POSSIBLE current_square
           && DOWN_MOVEMENT_POSSIBLE current_square)
      (current_square - 8 - 1) mvmt current_square row
  | DIAG_DR =>
    slide (RIGHT_MOVEMENT_POSSIBLE current_square
           && DOWN_MOVEMENT_POSSIBLE current_square)
      (current_square - 8 + 1) mvmt current_square row
  | KNIGHTmove =>
    let current_square := sq in
    (current_square,
     match dir with
     | 0 => hop (RIGHT2_MOVEMENT_POSSIBLE current_square
                 && UP_MOVEMENT_POSSIBLE current_square) (sq + 2 + 8) row
     | 1 => hop (RIGHT2_MOVEMENT_POSSIBLE current_square
                 && DOWN_MOVEMENT_POSSIBLE current_square) (sq + 2 - 8) row
     | 2 => hop (LEFT2_MOVEMENT_POSSIBLE current_square
                 && UP_MOVEMENT_POSSIBLE current_square) (sq - 2 + 8) row
     | 3 => hop (LEFT2_MOVEMENT_POSSIBLE current_square
                 && DOWN_MOVEMENT_POSSIBLE current_square) (sq - 2 - 8) row
     | 4 => hop (RIGHT_MOVEMENT_POSSIBLE current_square
                 && UP2_MOVEMENT_POSSIBLE current_square) (sq + 1 + 16) row
     | 5 => hop (RIGHT_MOVEMENT_POSSIBLE current_square
                 && DOWN2_MOVEMENT_POSSIBLE current_square) (sq + 1 - 16) row
     | 6 => hop (LEFT_MOVEMENT_POSSIBLE current_square
                 && UP2_MOVEMENT_POSSIBLE current_square) (sq - 1 + 16) row
     | 7 => hop (LEFT_MOVEMENT_POSSIBLE current_square
                 && DOWN2_MOVEMENT_POSSIBLE current_square) (sq - 1 - 16) row
     | _ => row
     end)
  | PAWNmove | PAWN2move => (current_square, row)
  end.

(** The body of the loop on [dir] in [init_movements]: the row
    [movements[piece][square][dir]] once the loop on [mvmt] has run from a
    zero-filled row and the closing all-ones cell has been written at the
    final value of [mvmt]. *)
Definition init_movements_row (piece sq dir : Z) : list movement :=
  let mx := zget 0 maximum_movements_in_one_direction piece in
  let '(_, row) :=
    fold_left (init_movements_step piece sq dir) (seqZ 0 mx)
      (sq, replicate (Z.to_nat (NUM_MOVEMENTS + 1)) zero_movement) in
  put row mx (-1) allones_bitvector.

(** [movements[piece][square][dir]] after [init_movements]: the loops
    fill each row on its own, and the rows they do not visit stay zero. *)
Definition movements (piece sq dir : Z) : list movement :=
  if (0 <=? piece) && (piece <? NUM_PIECES)
     && (0 <=? sq) && (sq <? NUM_SQUARES)
     && (0 <=? dir) && (dir <? zget 0 number_of_movement_directions piece)
  then init_movements_row piece sq dir
  else replicate (Z.to_nat (NUM_MOVEMENTS + 1)) zero_movement.

(** The loop
    [for (movementptr = row; (movementptr->vector & occ) == 0; movementptr++)]:
    the cells the body runs on, and the cell at which the loop stops.  The
    second is [None] when no cell of the row stops it (by lemma
    [scan_movements_stops] this does not happen on a row the program
    scans, with a non-empty board as [occ]). *)
Fixpoint scan (row : list movement) (occ : Z) : list movement * option movement :=
  match row with
  | [] => ([], None)
  | m :: rest =>
    if Z.land (vector m) occ =? 0
    then let '(pre, stop) := scan rest occ in (m :: pre, stop)
    else ([], Some m)
  end.

(** ** Verification of the movement table *)

Definition name_arg (piece : Z) : fmt_arg := ArgStr (zget EmptyString piece_name piece).

Definition directions_of (piece : Z) : list Z :=
  seqZ 0 (zget 0 number_of_movement_directions piece).

(** The loop on [dir] of the branch [squareA == squareB]. *)
Definition verify_self (piece squareA squareB : Z) (log : list diag)
    : list diag :=
  fold_left
    (fun log dir =>
       match snd (scan (movements piece squareA dir) (bitvector squareB)) with
       | Some m =>
         if negb (square m =? -1) || negb (vector m =? allones_bitvector)
         then log ++ [Diag "Self movement possible!? %s %d %d\n"
                        [name_arg piece; ArgInt squareA; ArgInt (square m)]]
         else log
       | None => log
       end)
    (directions_of piece) log.

(** The first loop on [dir] for [squareA != squareB]: the diagnostics and
    the flag [movement_possible]. *)
Definition verify_forward (piece squareA squareB : Z) (log : list diag)
    : list diag * bool :=
  fold_left
    (fun (acc : list diag * bool) dir =>
       let '(log, movement_possible) := acc in
       let '(pre, stop) :=
         scan (movements piece squareA dir) (bitvector squareB) in
       let log :=
         fold_left
           (fun log m =>
              if (square m <? 0) || (NUM_SQUARES <=? square m)
              then log ++ [Diag "Bad movement square: %s %d %d %d\n"
                             [name_arg piece; ArgInt squareA; ArgInt squareB;
                              ArgInt (square m)]]
              else log)
           pre log in
       match stop with
       | None => (log, movement_possible)
       | Some m =>
         if square m =? -1 then
           if negb (vector m =? allones_bitvector)
           then (log ++ [Diag "-1 movement lacks allones_bitvector: %s %d %d\n"
                           [name_arg piece; ArgInt squareA; ArgInt squareB]],
                 movement_possible)
           else (log, movement_possible)
         else if (square m <? 0) || (NUM_SQUARES <=? square m) then
           (log ++ [Diag "Bad movement square: %s %d %d\n"
                      [name_arg piece; ArgInt squareA; ArgInt squareB]],
            movement_possible)
         else
           let log :=
             if negb (square m =? squareB)
             then log ++ [Diag "bitvector does not match destination square: %s %d %d\n"
                            [name_arg piece; ArgInt squareA; ArgInt squareB]]
             else log in
           let log :=
             if movement_possible
             then log ++ [Diag "multiple idential destinations from same origin: %s %d %d\n"
                            [name_arg piece; ArgInt squareA; ArgInt squareB]]
             else log in
           let log :=
             if vector m =? allones_bitvector
             then log ++ [Diag "allones_bitvector on a legal movement: %s %d %d\n"
                            [name_arg piece; ArgInt squareA; ArgInt squareB]]
             else log in
           (log, true)
       end)
    (directions_of piece) (log, false).

(** The second loop on [dir]: the flag [reverse_movement_possible]. *)
Definition verify_reverse (piece squareA squareB : Z) : bool :=
  fold_left
    (fun (reverse_movement_possible : bool) dir =>
       match snd (scan (movements piece squareB dir) (bitvector squareA)) with
       | Some m =>
         if negb (square m =? -1) then true else reverse_movement_possible
       | None => reverse_movement_possible
       end)
    (directions_of piece) false.

(** The body of the loop on [squareB]. *)
Definition verify_pair (piece squareA squareB : Z) (log : list diag)
    : list diag :=
  if squareA =? squareB then verify_self piece squareA squareB log
  else
    let '(log, movement_possible) := verify_forward piece squareA squareB log in
    let reverse_movement_possible := verify_reverse piece squareA squareB in
    if movement_possible && negb reverse_movement_possible
    then log ++ [Diag "reverse movement impossible: %s %d %d\n"
                   [name_arg piece; ArgInt squareA; ArgInt squareB]]
    else log.

(** [verify_movements], as the diagnostics it prints. *)
Definition verify_movements (st : state) : state :=
  State (tb st)
    (fold_left
       (fun log piece =>
          fold_left
            (fun log squareA =>
               fold_left (fun log squareB => verify_pair piece squareA squareB log)
                 (seqZ 0 NUM_SQUARES) log)
            (seqZ 0 NUM_SQUARES) log)
       (seqZ KING (KNIGHT - KING + 1)) (stderr st)).

(** ** Intra-table move propagation *)

(** The body of the loop on [movementptr] in [propagate_move_within_table],
    run on the cell [m]. *)
Definition propagate_one (st : state) (parent_index : Z)
    (parent_position : position) (piece : Z) (m : movement) : state :=
  let current_position :=
    set_mobile
      (set_side_to_move parent_position
         (if side_to_move parent_position =? WHITE then BLACK else WHITE))
      piece (square m) in
  let current_index := position_to_index (tb st) current_position in
  if side_to_move parent_position =? WHITE then
    if does_white_win (tb st) parent_index then
      if get_stalemate_count (tb st) parent_index <? STALEMATE_COUNT
      then add_one_to_white_wins st current_index
             (get_mate_in_count (tb st) parent_index + 1)
             (get_stalemate_count (tb st) parent_index + 1)
      else st
    else if does_black_win (tb st) parent_index then
      if get_stalemate_count (tb st) parent_index <? STALEMATE_COUNT
      then black_wins st current_index
             (get_mate_in_count (tb st) parent_index + 1)
             (get_stalemate_count (tb st) parent_index + 1)
      else st
    else st
  else
    if does_black_win (tb st) parent_index then
      if get_stalemate_count (tb st) parent_index <? STALEMATE_COUNT
      then add_one_to_black_wins st current_index
             (get_mate_in_count (tb st) parent_index + 1)
             (get_stalemate_count (tb st) parent_index + 1)
      else st
    else if does_white_win (tb st) parent_index then
      if get_stalemate_count (tb st) parent_index <? STALEMATE_COUNT
      then white_wins st current_index
             (get_mate_in_count (tb st) parent_index + 1)
             (get_stalemate_count (tb st) parent_index + 1)
      else st
    else st.

(** The body of the loop on [piece]. *)
Definition propagate_piece (parent_index : Z) (parent_position : position)
    (st : state) (piece : Z) : state :=
  if zget 0 (mobile_piece_color (tb st)) piece =? side_to_move parent_position
  then st
  else
    fold_left
      (fun st dir =>
         fold_left
           (fun st m => propagate_one st parent_index parent_position piece m)
           (fst (scan (movements (zget 0 (mobile_piece_type (tb st)) piece)
                         (mobile parent_position piece) dir)
                   (board_vector parent_position)))
           st)
      (directions_of (zget 0 (mobile_piece_type (tb st)) piece)) st.

Definition propagate_move_within_table (st : state)
    (parent_index mate_in_count : Z) : state :=
  let st :=
    if negb (get_mate_in_count (tb st) parent_index =? mate_in_count)
    then fprintf "Mate-in counts don't match: %d %d\n"
           [ArgInt mate_in_count;
            ArgInt (get_mate_in_count (tb st) parent_index)] st
    else st in
  let st :=
    if negb (does_white_win (tb st) parent_index)
       && negb (does_black_win (tb st) parent_index)
    then fprintf "Propagating position %d where neither side wins?!\n"
           [ArgInt parent_index] st
    else st in
  let st := mark_propagated st parent_index in
  let parent_position := snd (index_to_position (tb st) parent_index) in
  fold_left (propagate_piece parent_index parent_position)
    (seqZ 0 (num_mobiles (tb st))) st.

(** ** Initialization *)

(** The loop on [dir] in [initialize_tablebase] for one piece of the side
    to move, over the directions still to scan.  [Some movecnt] is the
    count when the loop ends; [None] is the jump to the label [mated],
    after the entry has been written. *)
Fixpoint initialize_count_dirs (st : state) (index : Z)
    (parent_position : position) (piece : Z) (dirs : list Z) (mc : Z)
    : state * option Z :=
  match dirs with
  | [] => (st, Some mc)
  | dir :: dirs' =>
    let current_position := parent_position in
    let '(pre, stop) :=
      scan (movements (zget 0 (mobile_piece_type (tb st)) piece)
              (mobile parent_position piece) dir)
        (board_vector current_position) in
    let mc := mc + Z.of_nat (length pre) in
    match stop with
    | None => initialize_count_dirs st index parent_position piece dirs' mc
    | Some m =>
      if side_to_move current_position =? WHITE then
        if Z.land (vector m) (white_vector current_position) =? 0 then
          let mc := mc + 1 in
          if square m =? mobile current_position BLACK_KING
          then (initialize_index_with_black_mated st index, None)
          else initialize_count_dirs st index parent_position piece dirs' mc
        else initialize_count_dirs st index parent_position piece dirs' mc
      else
        if Z.land (vector m) (black_vector current_position) =? 0 then
          let mc := mc + 1 in
          if square m =? mobile current_position WHITE_KING
          then (initialize_index_with_white_mated st index, None)
          else initialize_count_dirs st index parent_position piece dirs' mc
        else initialize_count_dirs st index parent_position piece dirs' mc
    end
  end.

(** The loop on [piece], over the pieces still to look at. *)
Fixpoint initialize_count_pieces (st : state) (index : Z)
    (parent_position : position) (pieces : list Z) (mc : Z)
    : state * option Z :=
  match pieces with
  | [] => (st, Some mc)
  | piece :: pieces' =>
    if negb (zget 0 (mobile_piece_color (tb st)) piece
             =? side_to_move parent_position)
    then initialize_count_pieces st index parent_position pieces' mc
    else
      match initialize_count_dirs st index parent_position piece
              (directions_of (zget 0 (mobile_piece_type (tb st)) piece)) mc with
      | (st', None) => (st', None)
      | (st', Some mc') =>
        initialize_count_pieces st' index parent_position pieces' mc'
      end
  end.

(** The body of the loop on [index] in [initialize_tablebase]. *)
Definition initialize_index (st : state) (index : Z) : state :=
  let '(ok, parent_position) := index_to_position (tb st) index in
  if negb ok then initialize_index_as_illegal st index
  else
    match initialize_count_pieces st index parent_position
            (seqZ 0 (num_mobiles (tb st))) 0 with
    | (st', None) => st'
    | (st', Some mc) =>
      if mc =? 0 then initialize_index_with_stalemate st' index
      else initialize_index_with_movecnt st' index mc
    end.

Definition initialize_tablebase (st : state) : state :=
  let max_index_static := max_index (tb st) in
  fold_left initialize_index (seqZ 0 max_index_static) st.

(** ** The driver *)

(** The body of the [for] loop of a pass on one index. *)
Definition main_scan_index (moves_to_win : Z) (acc : state * Z) (index : Z)
    : state * Z :=
  let '(st, progress_made) := acc in
  if needs_propagation (tb st) index
     && (get_mate_in_count (tb st) index =? moves_to_win)
  then
    let st :=
      if progress_made =? 0
      then fprintf "Pass %d starts with %d\n"
             [ArgInt moves_to_win; ArgInt index] st
      else st in
    (propagate_move_within_table st index moves_to_win, progress_made + 1)
  else (st, progress_made).

(** The body of the [while] loop of [main]: one pass; the state and
    [progress_made] when it ends. *)
Definition main_pass (max_index_static moves_to_win : Z) (st : state)
    : state * Z :=
  let '(st, progress_made) :=
    fold_left (main_scan_index moves_to_win) (seqZ 0 max_index_static) (st, 0) in
  (fprintf "Pass %d complete; %d positions processed\n"
     [ArgInt moves_to_win; ArgInt progress_made] st,
   progress_made).

(** The [while] loop of [main], run for at most [fuel] passes.  The
    boolean tells whether the loop condition ended the loop (rather than
    the fuel). *)
Fixpoint main_loop (fuel : nat) (max_index_static max_moves_to_win : Z)
    (st : state) (moves_to_win progress_made : Z) : state * bool :=
  if negb (progress_made =? 0) || (moves_to_win <? max_moves_to_win) then
    match fuel with
    | O => (st, false)
    | S fuel' =>
      let '(st', progress_made') :=
        main_pass max_index_static moves_to_win st in
      main_loop fuel' max_index_static max_moves_to_win st'
        (moves_to_win + 1) progress_made'
    end
  else (st, true).

(** [main] up to its [while] loop included (what follows it is commented
    out in the source). *)
Definition main (fuel : nat) : state * bool :=
  let st := verify_movements (State create_tablebase []) in
  let st := initialize_tablebase st in
  let max_moves_to_win := 1 in
  main_loop fuel (max_index (tb st)) max_moves_to_win st 0 1.

(** ** Definitions used to state the properties *)

(** [index] is inside the array [tb->entries]. *)
Definition in_table (t : tablebase) (index : Z) : Prop :=
  0 <= index < Z.of_nat (length (entries t)).

(** The header of the tablebase (everything but the entries) and the size
    of the entry array are the same in both states. *)
Definition same_header (st st' : state) : Prop :=
  num_mobiles (tb st') = num_mobiles (tb st)
  /\ mobile_piece_type (tb st') = mobile_piece_type (tb st)
  /\ mobile_piece_color (tb st') = mobile_piece_color (tb st)
  /\ length (entries (tb st')) = length (entries (tb st)).

(** Going from [st] to [st'] left the header and the cell [j] of the entry
    array as they were. *)
Definition kept (j : Z) (st st' : state) : Prop :=
  same_header st st'
  /\ entries (tb st') !! Z.to_nat j = entries (tb st) !! Z.to_nat j.

(** A small table for examples: a black-to-move entry (index 1) with five
    forward moves left and a recorded mate-in count of 3. *)
Definition sample_pending : state :=
  State (Tablebase 3 [KING; KING; QUEEN; 0; 0; 0; 0; 0]
           [WHITE; BLACK; WHITE; 0; 0; 0; 0; 0]
           [Entry 5 255 255 0; Entry 5 3 255 0; Entry 1 255 255 0;
            Entry 1 255 255 0])
        [].

(** A small table whose entries are all decided: index 0 and 1 are won by
    the player to move, index 2 and 3 by the player not to move. *)
Definition sample_won : state :=
  State (Tablebase 3 [KING; KING; QUEEN; 0; 0; 0; 0; 0]
           [WHITE; BLACK; WHITE; 0; 0; 0; 0; 0]
           [Entry 254 4 4 0; Entry 252 3 3 0; Entry 253 5 5 0;
            Entry 0 2 2 0])
        [].

(** The diagnostic [white_wins] prints first at a black-to-move index, and
    [black_wins] at a white-to-move index. *)
Definition white_wins_side_note (index : Z) : list diag :=
  if WHITE_TO_MOVE index then []
  else [Diag "White_wins in a black to move position...\n" []].
Definition black_wins_side_note (index : Z) : list diag :=
  if BLACK_TO_MOVE index then []
  else [Diag "Black_wins in a white to move position...\n" []].

(** [movecnt] holds one of the four values that record a win. *)
Definition records_win (e : fourbyte_entry) : Prop :=
  movecnt e = PTM_WINS_PROPAGATION_NEEDED
  \/ movecnt e = PTM_WINS_PROPAGATION_DONE
  \/ movecnt e = PNTM_WINS_PROPAGATION_NEEDED
  \/ movecnt e = PNTM_WINS_PROPAGATION_DONE.

(** A ray of [piece] from [squareA] reaches [squareB]: in some direction
    the scan for [squareB]'s bit stops at a cell whose mask contains the
    bit and whose square is [squareB]. *)
Definition reaches (piece squareA squareB : Z) : Prop :=
  exists dir m,
    0 <= dir < zget 0 number_of_movement_directions piece
    /\ snd (scan (movements piece squareA dir) (bitvector squareB)) = Some m
    /\ Z.land (vector m) (bitvector squareB) <> 0
    /\ square m = squareB.

(** [reaches], decided by running the scans. *)
Definition reachesb (piece squareA squareB : Z) : bool :=
  existsb
    (fun dir =>
       match snd (scan (movements piece squareA dir) (bitvector squareB)) with
       | Some m =>
         negb (Z.land (vector m) (bitvector squareB) =? 0)
         && (square m =? squareB)
       | None => false
       end)
    (directions_of piece).

(** The cells of a row in front of its first all-ones cell. *)
Fixpoint before_stopper (row : list movement) : list movement :=
  match row with
  | [] => []
  | m :: rest =>
    if vector m =? allones_bitvector then [] else m :: before_stopper rest
  end.

(** The squares [piece] moves to from [sq] on an empty board, direction by
    direction. *)
Definition destinations (piece sq : Z) : list Z :=
  flat_map (fun dir => map square (before_stopper (movements piece sq dir)))
    (directions_of piece).

(** The all-ones cell that ends a ray. *)
Definition stopper : movement := Movement allones_bitvector (-1).

(** A row holds at most one cell in front of its first all-ones cell, and
    that cell is there, with square -1. *)
Definition single_step_row (row : list movement) : Prop :=
  (length (before_stopper row) <= 1)%nat
  /\ row !! length (before_stopper row) = Some stopper.

Definition single_step_rowb (row : list movement) : bool :=
  (Nat.leb (length (before_stopper row)) 1)
  && match row !! length (before_stopper row) with
     | Some m => (vector m =? allones_bitvector) && (square m =? -1)
     | None => false
     end.

(** The three kinds of cells a row of the table holds: the all-ones cell
    with square -1, a step to a square of the board with that square's
    bit, and a cell [init_movements] never wrote. *)
Definition cell_ok (m : movement) : Prop :=
  m = stopper
  \/ (0 <= square m < NUM_SQUARES /\ vector m = bitvector (square m))
  \/ m = zero_movement.

Definition cell_okb (m : movement) : bool :=
  ((vector m =? allones_bitvector) && (square m =? -1))
  || ((0 <=? square m) && (square m <? NUM_SQUARES)
      && (vector m =? bitvector (square m)))
  || ((vector m =? 0) && (square m =? 0)).

(** The vector of the pieces of the side to move, and the place of the
    other side's king in the list of mobile pieces. *)
Definition own_vector (p : position) : Z :=
  if side_to_move p =? WHITE then white_vector p else black_vector p.
Definition enemy_king (p : position) : Z :=
  if side_to_move p =? WHITE then BLACK_KING else WHITE_KING.

(** Some capture counted by [initialize_tablebase] in position [p] lands
    on the enemy king: a piece of the side to move and one of its
    directions whose scan stops at a cell that is not of the mover's
    colour and whose square is the enemy king's. *)
Definition king_capture (t : tablebase) (p : position) : Prop :=
  exists piece dir m,
    0 <= piece < num_mobiles t
    /\ zget 0 (mobile_piece_color t) piece = side_to_move p
    /\ 0 <= dir < zget 0 number_of_movement_directions
                    (zget 0 (mobile_piece_type t) piece)
    /\ snd (scan (movements (zget 0 (mobile_piece_type t) piece)
                    (mobile p piece) dir) (board_vector p)) = Some m
    /\ Z.land (vector m) (own_vector p) = 0
    /\ square m = mobile p (enemy_king p).

(** The call made just before the jump to [mated]. *)
Definition write_mated (st : state) (index : Z) (p : position) : state :=
  if side_to_move p =? WHITE
  then initialize_index_with_black_mated st index
  else initialize_index_with_white_mated st index.

(** The header [create_tablebase] sets up, as far as the codec and the
    propagation read it: three mobile pieces, white, black, white. *)
Definition kqk_header (st : state) : Prop :=
  num_mobiles (tb st) = 3
  /\ mobile_piece_color (tb st) = [WHITE; BLACK; WHITE; 0; 0; 0; 0; 0].

(** The entry has been propagated: its movecnt is one of the two DONE
    values. *)
Definition propagated (e : fourbyte_entry) : bool :=
  (movecnt e =? PTM_WINS_PROPAGATION_DONE)
  || (movecnt e =? PNTM_WINS_PROPAGATION_DONE).

(** How many entries of the table have been propagated. *)
Fixpoint count_propagated (l : list fourbyte_entry) : nat :=
  match l with
  | [] => O
  | e :: l' =>
    if propagated e then S (count_propagated l') else count_propagated l'
  end.

(** Going from [st] to [st'] kept the header and un-propagated no entry
    (counted). *)
Definition advanced (st st' : state) : Prop :=
  same_header st st'
  /\ (count_propagated (entries (tb st))
      <= count_propagated (entries (tb st')))%nat.

(** ** Definitions used to state further properties *)

(** Every field of the entry fits an unsigned char. *)
Definition entry_bytes (e : fourbyte_entry) : Prop :=
  0 <= movecnt e < 256 /\ 0 <= mate_in_cnt e < 256
  /\ 0 <= stalemate_cnt e < 256.

(** A small table with an ILLEGAL entry at the white-to-move index 0 and
    at the black-to-move index 1, and two pending counters. *)
Definition sample_illegal : state :=
  State (Tablebase 3 [KING; KING; QUEEN; 0; 0; 0; 0; 0]
           [WHITE; BLACK; WHITE; 0; 0; 0; 0; 0]
           [Entry 255 255 255 0; Entry 255 255 255 0; Entry 7 255 255 0;
            Entry 4 2 50 0])
        [].

(** The square the index holds for mobile piece [j]: six bits, after the
    bit of the side to move. *)
Definition square_of_index (index j : Z) : Z :=
  Z.land (Z.shiftr index (1 + 6 * j)) 63.

(** The first [n] mobile pieces of [pos] stand on squares of the board,
    no two on the same square. *)
Definition squares_on_board (n : Z) (pos : position) : Prop :=
  forall j, 0 <= j < n -> 0 <= mobile pos j < NUM_SQUARES.
Definition squares_distinct (n : Z) (pos : position) : Prop :=
  forall j k, 0 <= j < k -> k < n -> mobile pos j <> mobile pos k.

(** The three vectors of [p] hold exactly the first [k] mobile pieces:
    a bit of [board_vector] is set exactly on the square of one of them,
    a bit of [white_vector] on the square of a white one, a bit of
    [black_vector] on the square of one that is not white. *)
Definition placed (t : tablebase) (k : Z) (p : position) : Prop :=
  squares_on_board k p
  /\ squares_distinct k p
  /\ (forall b, Z.testbit (board_vector p) b = true
                <-> exists j, 0 <= j < k /\ mobile p j = b)
  /\ (forall b, Z.testbit (white_vector p) b = true
                <-> exists j, 0 <= j < k
                              /\ zget 0 (mobile_piece_color t) j = WHITE
                              /\ mobile p j = b)
  /\ (forall b, Z.testbit (black_vector p) b = true
                <-> exists j, 0 <= j < k
                              /\ zget 0 (mobile_piece_color t) j <> WHITE
                              /\ mobile p j = b).

(** A position of the K+Q vs K table for examples: white king a1, black
    king h8, white queen d4, white to move. *)
Definition sample_position : position :=
  Position 0 0 0 WHITE [0; 63; 27; 0; 0; 0; 0; 0].

(** The moves of chess on an empty board, from the files (sq mod 8) and
    ranks (sq / 8) of the two squares: a king moves to a neighbouring
    square, a rook along its rank or file, a bishop along a diagonal, a
    queen like either, a knight by one and two. *)
Definition chess_move (piece squareA squareB : Z) : bool :=
  let df := Z.abs (squareB mod 8 - squareA mod 8) in
  let dr := Z.abs (squareB / 8 - squareA / 8) in
  if piece =? KING then Z.max df dr =? 1
  else if piece =? QUEEN then
    negb (squareA =? squareB) && ((df =? 0) || (dr =? 0) || (df =? dr))
  else if piece =? ROOK then
    negb (squareA =? squareB) && ((df =? 0) || (dr =? 0))
  else if piece =? BISHOP then negb (squareA =? squareB) && (df =? dr)
  else if piece =? KNIGHT then
    ((df =? 1) && (dr =? 2)) || ((df =? 2) && (dr =? 1))
  else false.

(** A cell that is a step to a square of the board, with that square's
    bit as its vector. *)
Definition step_cell (m : movement) : Prop :=
  0 <= square m < NUM_SQUARES /\ vector m = bitvector (square m).

Definition step_cellb (m : movement) : bool :=
  (0 <=? square m) && (square m <? NUM_SQUARES)
  && (vector m =? bitvector (square m)).

(** The entry the body of the loop of [initialize_tablebase] leaves at
    [index], read off its branches: from the value of [index_to_position],
    from what the counting loops return ([None] for the jump to [mated])
    and from the entry that was there (whose reserved byte stays). *)
Definition initialized_entry (st : state) (index : Z) : fourbyte_entry :=
  let old := entry_at (tb st) index in
  let '(ok, parent_position) := index_to_position (tb st) index in
  if negb ok then init_entry ILLEGAL_POSITION 255 255 old
  else
    match snd (initialize_count_pieces st index parent_position
                 (seqZ 0 (num_mobiles (tb st))) 0) with
    | None => init_entry PTM_WINS_PROPAGATION_NEEDED 0 0 old
    | Some mc =>
      if mc =? 0 then init_entry 251 255 0 old
      else init_entry mc 255 255 old
    end.

(** Going from [st] to [st'] kept the header and took every entry of the
    table to one that [R] relates to it. *)
Definition evolves (R : fourbyte_entry -> fourbyte_entry -> Prop)
    (st st' : state) : Prop :=
  same_header st st'
  /\ forall i e, entries (tb st) !! i = Some e ->
       exists e', entries (tb st') !! i = Some e' /\ R e e'.

(** What may happen to an entry that records a win: its mate-in count,
    its stalemate count and its reserved byte stay, and its movecnt stays
    or goes from a NEEDED value to the DONE value of the same side. *)
Definition verdict_kept (e e' : fourbyte_entry) : Prop :=
  records_win e ->
  mate_in_cnt e' = mate_in_cnt e
  /\ stalemate_cnt e' = stalemate_cnt e
  /\ reserved e' = reserved e
  /\ (movecnt e' = movecnt e
      \/ (movecnt e = PTM_WINS_PROPAGATION_NEEDED
          /\ movecnt e' = PTM_WINS_PROPAGATION_DONE)
      \/ (movecnt e = PNTM_WINS_PROPAGATION_NEEDED
          /\ movecnt e' = PNTM_WINS_PROPAGATION_DONE)).

(** The test of [needs_propagation], on an entry. *)
Definition entry_needs_propagation (e : fourbyte_entry) : bool :=
  (movecnt e =? PTM_WINS_PROPAGATION_NEEDED)
  || (movecnt e =? PNTM_WINS_PROPAGATION_NEEDED).

(** What pass [m] may do to an entry: a recorded win is kept, and an entry
    that needs propagation afterwards is as it was or holds the mate-in
    count [m + 1] (as an unsigned char). *)
Definition pass_step (m : Z) (e e' : fourbyte_entry) : Prop :=
  verdict_kept e e'
  /\ (entry_needs_propagation e' = true ->
      e' = e \/ mate_in_cnt e' = to_uchar (m + 1)).

(** The readers of the verdict return at [j] in [t'] what they return in
    [t]. *)
Definition same_verdict (t t' : tablebase) (j : Z) : Prop :=
  does_white_win t' j = does_white_win t j
  /\ does_black_win t' j = does_black_win t j
  /\ get_mate_in_count t' j = get_mate_in_count t j
  /\ get_stalemate_count t' j = get_stalemate_count t j.

(** Every entry below [max_index_static] that needs propagation holds the
    mate-in count [m] (as an unsigned char): they are all due in pass [m]. *)
Definition pending_at (m max_index_static : Z) (st : state) : Prop :=
  forall j, 0 <= j < max_index_static ->
    needs_propagation (tb st) j = true ->
    mate_in_cnt (entry_at (tb st) j) = to_uchar m.

(** No entry below [max_index_static] needs propagation. *)
Definition propagation_complete (max_index_static : Z) (st : state) : Prop :=
  forall j, 0 <= j < max_index_static ->
    needs_propagation (tb st) j = false.


(** The header names between one and five mobile pieces, none of them a
    pawn: the tablebases whose indices fit the 32 bits of an index and
    whose moves are all in the table of [init_movements]. *)
Definition plain_header (t : tablebase) : Prop :=
  1 <= num_mobiles t <= 5
  /\ forall piece, 0 <= piece < num_mobiles t ->
       KING <= zget 0 (mobile_piece_type t) piece <= KNIGHT.

(** Every index below [max_index_static] that [index_to_position] rejects
    holds an entry marked ILLEGAL_POSITION. *)
Definition undecodable_illegal (max_index_static : Z) (st : state) : Prop :=
  forall j, 0 <= j < max_index_static ->
    fst (index_to_position (tb st) j) = false ->
    movecnt (entry_at (tb st) j) = ILLEGAL_POSITION.

(** The position [propagate_move_within_table] builds for a move of
    [piece] back to [sq]: the other side to move, the piece on [sq]. *)
Definition predecessor (parent : position) (piece sq : Z) : position :=
  set_mobile
    (set_side_to_move parent
       (if side_to_move parent =? WHITE then BLACK else WHITE))
    piece sq.



(** * Properties *)

(** ** Reading and writing entries *)

Lemma same_header_refl st : same_header st st.
Proof. repeat split. Qed.

Lemma same_header_trans st1 st2 st3 :
  same_header st1 st2 -> same_header st2 st3 -> same_header st1 st3.
Proof.
  unfold same_header. intros (a1 & a2 & a3 & a4) (b1 & b2 & b3 & b4).
  repeat split; congruence.
Qed.

Lemma kept_refl j st : kept j st st.
Proof. split; [apply same_header_refl | reflexivity]. Qed.

Lemma kept_trans j st1 st2 st3 :
  kept j st1 st2 -> kept j st2 st3 -> kept j st1 st3.
Proof.
  intros [h1 e1] [h2 e2]. split.
  - eapply same_header_trans; eassumption.
  - congruence.
Qed.

Lemma kept_entry_at j st st' :
  kept j st st' -> entry_at (tb st') j = entry_at (tb st) j.
Proof. intros [_ e]. unfold entry_at, zget. now rewrite e. Qed.

Lemma kept_in_table j i st st' :
  kept j st st' -> in_table (tb st) i -> in_table (tb st') i.
Proof. intros [(_ & _ & _ & l) _]. unfold in_table. now rewrite l. Qed.

Lemma fprintf_tb f a st : tb (fprintf f a st) = tb st.
Proof. reflexivity. Qed.

Lemma fprintf_kept j f a st : kept j st (fprintf f a st).
Proof. split; [repeat split | reflexivity]. Qed.

Lemma store_same_header st index f : same_header st (store st index f).
Proof.
  unfold same_header, store; simpl. repeat split. apply length_alter.
Qed.

Lemma store_kept j st index f :
  0 <= index -> 0 <= j -> index <> j -> kept j st (store st index f).
Proof.
  intros Hi Hj Hne. split; [apply store_same_header|].
  unfold store; simpl. apply list_lookup_alter_ne. lia.
Qed.

Lemma entry_at_store st index f :
  in_table (tb st) index ->
  entry_at (tb (store st index f)) index = f (entry_at (tb st) index).
Proof.
  unfold in_table, entry_at, zget, store; simpl. intros Hr.
  rewrite list_lookup_alter_eq.
  destruct (entries (tb st) !! Z.to_nat index) as [e|] eqn:E; [reflexivity|].
  apply lookup_ge_None in E. lia.
Qed.

Lemma stderr_store st index f : stderr (store st index f) = stderr st.
Proof. reflexivity. Qed.

(** Side to move of an index: exactly one of the two macros holds. *)
Lemma side_to_move_cases index :
  (WHITE_TO_MOVE index = true /\ BLACK_TO_MOVE index = false)
  \/ (WHITE_TO_MOVE index = false /\ BLACK_TO_MOVE index = true).
Proof.
  unfold WHITE_TO_MOVE, BLACK_TO_MOVE, WHITE, BLACK.
  assert (H : Z.land index 1 = 0 \/ Z.land index 1 = 1).
  { pose proof (Z.land_ones index 1 ltac:(lia)) as E.
    change (Z.ones 1) with 1 in E. change (2 ^ 1) with 2 in E.
    pose proof (Z.mod_pos_bound index 2). lia. }
  destruct H as [-> | ->]; [left | right]; split; reflexivity.
Qed.

(** ** The counting operations [add_one_to_white_wins], [add_one_to_black_wins] *)

Section CountingDown.

Variables (st : state) (index mate_in_count stalemate_count : Z).
Hypothesis Hrange : in_table (tb st) index.
Hypothesis Hpending :
  1 <= movecnt (entry_at (tb st) index) <= MAX_MOVECNT.

Lemma pending_tests :
  (movecnt (entry_at (tb st) index) =? PTM_WINS_PROPAGATION_NEEDED) = false
  /\ (movecnt (entry_at (tb st) index) =? PTM_WINS_PROPAGATION_DONE) = false
  /\ (movecnt (entry_at (tb st) index) =? 0) = false
  /\ (MAX_MOVECNT <? movecnt (entry_at (tb st) index)) = false.
Proof.
  unfold PTM_WINS_PROPAGATION_NEEDED, PTM_WINS_PROPAGATION_DONE, MAX_MOVECNT in *.
  repeat split; first [apply Z.eqb_neq | apply Z.ltb_ge]; lia.
Qed.

(** At a black-to-move index with a pending counter the operation comes
    down to the stores of [count_down]. *)
Lemma add_one_to_white_wins_pending :
  BLACK_TO_MOVE index = true ->
  tb (add_one_to_white_wins st index mate_in_count stalemate_count)
  = tb (store st index (count_down mate_in_count stalemate_count)).
Proof.
  intros Hb. destruct pending_tests as (t1 & t2 & t3 & t4).
  destruct (side_to_move_cases index) as [[_ F] | [W _]]; [congruence|].
  unfold add_one_to_white_wins. rewrite W, t1, t2, t3, t4. simpl.
  destruct (_ && _); reflexivity.
Qed.

Lemma add_one_to_black_wins_pending :
  WHITE_TO_MOVE index = true ->
  tb (add_one_to_black_wins st index mate_in_count stalemate_count)
  = tb (store st index (count_down mate_in_count stalemate_count)).
Proof.
  intros Hw. destruct pending_tests as (t1 & t2 & t3 & t4).
  destruct (side_to_move_cases index) as [[_ B] | [F _]]; [|congruence].
  unfold add_one_to_black_wins. rewrite B, t1, t2, t3, t4. simpl.
  destruct (_ && _); reflexivity.
Qed.

Lemma count_down_movecnt e :
  1 <= movecnt e <= MAX_MOVECNT ->
  movecnt (count_down mate_in_count stalemate_count e) = movecnt e - 1.
Proof.
  unfold count_down, MAX_MOVECNT. intros H.
  destruct (_ <? _); simpl; unfold to_uchar; apply Z.mod_small; lia.
Qed.

Lemma count_down_mate_in_cnt e :
  mate_in_cnt (count_down mate_in_count stalemate_count e)
  = to_uchar mate_in_count.
Proof. unfold count_down. destruct (_ <? _); reflexivity. Qed.

End CountingDown.

(** C1 (as amended): at an index of the other side to move whose entry holds
    a pending counter (1..251), [add_one_to_white_wins] and
    [add_one_to_black_wins] store the [mate_in_count] argument itself into
    [mate_in_cnt] (as an unsigned char), whatever value was recorded
    before. *)
Theorem add_one_overwrites_mate_in_cnt (st : state)
    (index mate_in_count stalemate_count : Z) :
  in_table (tb st) index ->
  1 <= movecnt (entry_at (tb st) index) <= MAX_MOVECNT ->
  (BLACK_TO_MOVE index = true ->
   mate_in_cnt
     (entry_at
        (tb (add_one_to_white_wins st index mate_in_count stalemate_count))
        index)
   = to_uchar mate_in_count)
  /\ (WHITE_TO_MOVE index = true ->
      mate_in_cnt
        (entry_at
           (tb (add_one_to_black_wins st index mate_in_count stalemate_count))
           index)
      = to_uchar mate_in_count).
Proof.
  intros Hr Hp. split; intros Hs.
  - rewrite add_one_to_white_wins_pending, entry_at_store by assumption.
    apply count_down_mate_in_cnt.
  - rewrite add_one_to_black_wins_pending, entry_at_store by assumption.
    apply count_down_mate_in_cnt.
Qed.

Lemma add_one_overwrites_mate_in_cnt_witness :
  mate_in_cnt (entry_at (tb (add_one_to_white_wins sample_pending 1 7 9)) 1)
  = to_uchar 7
  /\ mate_in_cnt (entry_at (tb (add_one_to_black_wins sample_pending 0 7 9)) 0)
     = to_uchar 7.
Proof.
  split.
  - apply (add_one_overwrites_mate_in_cnt sample_pending 1 7 9);
      [unfold in_table; simpl; lia | vm_compute; split; discriminate
      | reflexivity].
  - apply (add_one_overwrites_mate_in_cnt sample_pending 0 7 9);
      [unfold in_table; simpl; lia | vm_compute; split; discriminate
      | reflexivity].
Defined.

(** C1 (as stated) fails: a black-to-move entry with five moves left and a
    recorded mate-in of 3 gets mate-in 7 from [add_one_to_white_wins], not
    the minimum of 3 and 7. *)
Lemma add_one_mate_in_cnt_not_minimum :
  1 <= movecnt (entry_at (tb sample_pending) 1) <= 251
  /\ mate_in_cnt (entry_at (tb (add_one_to_white_wins sample_pending 1 7 9)) 1)
     <> Z.min (mate_in_cnt (entry_at (tb sample_pending) 1)) 7.
Proof. vm_compute. split; [split|]; discriminate. Qed.

(** C5: at a black-to-move index whose entry holds a pending counter
    (1..251), [add_one_to_white_wins] decrements [movecnt] by exactly one,
    and from 1 this lands on [PNTM_WINS_PROPAGATION_NEEDED], so that the
    entry needs propagation; the same for [add_one_to_black_wins] at a
    white-to-move index. *)
Theorem add_one_decrements_movecnt (st : state)
    (index mate_in_count stalemate_count : Z) :
  in_table (tb st) index ->
  1 <= movecnt (entry_at (tb st) index) <= MAX_MOVECNT ->
  (BLACK_TO_MOVE index = true ->
   let st' := add_one_to_white_wins st index mate_in_count stalemate_count in
   movecnt (entry_at (tb st') index) = movecnt (entry_at (tb st) index) - 1
   /\ (movecnt (entry_at (tb st) index) = 1 ->
       movecnt (entry_at (tb st') index) = PNTM_WINS_PROPAGATION_NEEDED
       /\ needs_propagation (tb st') index = true))
  /\ (WHITE_TO_MOVE index = true ->
      let st' := add_one_to_black_wins st index mate_in_count stalemate_count in
      movecnt (entry_at (tb st') index) = movecnt (entry_at (tb st) index) - 1
      /\ (movecnt (entry_at (tb st) index) = 1 ->
          movecnt (entry_at (tb st') index) = PNTM_WINS_PROPAGATION_NEEDED
          /\ needs_propagation (tb st') index = true)).
Proof.
  intros Hr Hp.
  assert (G : forall t' : tablebase,
             movecnt (entry_at t' index) = movecnt (entry_at (tb st) index) - 1 ->
             movecnt (entry_at t' index) = movecnt (entry_at (tb st) index) - 1
             /\ (movecnt (entry_at (tb st) index) = 1 ->
                 movecnt (entry_at t' index) = PNTM_WINS_PROPAGATION_NEEDED
                 /\ needs_propagation t' index = true)).
  { intros t' E. split; [exact E|]. intros E1.
    assert (E0 : movecnt (entry_at t' index) = 0) by lia.
    unfold needs_propagation. rewrite E0. split; reflexivity. }
  split; intros Hs; cbv zeta; apply G.
  - rewrite add_one_to_white_wins_pending, entry_at_store by assumption.
    now apply count_down_movecnt.
  - rewrite add_one_to_black_wins_pending, entry_at_store by assumption.
    now apply count_down_movecnt.
Qed.

Lemma add_one_decrements_movecnt_witness :
  movecnt (entry_at (tb (add_one_to_white_wins sample_pending 3 7 9)) 3)
  = movecnt (entry_at (tb sample_pending) 3) - 1
  /\ needs_propagation (tb (add_one_to_white_wins sample_pending 3 7 9)) 3 = true
  /\ needs_propagation (tb (add_one_to_black_wins sample_pending 2 7 9)) 2 = true.
Proof.
  assert (R3 : in_table (tb sample_pending) 3) by (unfold in_table; simpl; lia).
  assert (R2 : in_table (tb sample_pending) 2) by (unfold in_table; simpl; lia).
  assert (P3 : 1 <= movecnt (entry_at (tb sample_pending) 3) <= MAX_MOVECNT)
    by (vm_compute; split; discriminate).
  assert (P2 : 1 <= movecnt (entry_at (tb sample_pending) 2) <= MAX_MOVECNT)
    by (vm_compute; split; discriminate).
  destruct (add_one_decrements_movecnt sample_pending 3 7 9 R3 P3) as [W _].
  destruct (add_one_decrements_movecnt sample_pending 2 7 9 R2 P2) as [_ B].
  destruct (W eq_refl) as [W1 W2]. destruct (B eq_refl) as [_ B2].
  split; [exact W1|]. split; [apply W2 | apply B2]; reflexivity.
Defined.

(** ** The verdict operations [white_wins], [black_wins] *)

Lemma records_win_cases t index :
  records_win (entry_at t index) ->
  (does_white_win t index = true /\ does_black_win t index = false)
  \/ (does_white_win t index = false /\ does_black_win t index = true).
Proof.
  unfold records_win, does_white_win, does_black_win.
  destruct (side_to_move_cases index) as [[-> ->] | [-> ->]];
    intros [-> | [-> | [-> | ->]]]; vm_compute; tauto.
Qed.

(** C7: when the entry at [index] already records a win, [white_wins] and
    [black_wins] leave the tablebase (hence the entry's [movecnt],
    [mate_in_cnt] and [stalemate_cnt]) as it is.  What they print: for an
    entry won by the same side, the mate-in diagnostic exactly when the new
    mate-in count is smaller than the recorded one; for an entry won by the
    other side, the already-won diagnostic; in both cases after the
    side-to-move note when the index has the other side to move. *)
Theorem wins_preserve_recorded_win (st : state)
    (index mate_in_count stalemate_count : Z) :
  records_win (entry_at (tb st) index) ->
  let w := white_wins st index mate_in_count stalemate_count in
  let b := black_wins st index mate_in_count stalemate_count in
  (tb w = tb st /\ tb b = tb st)
  /\ (does_white_win (tb st) index = true ->
      stderr w
      = stderr st ++ white_wins_side_note index
        ++ (if mate_in_count <? mate_in_cnt (entry_at (tb st) index)
            then [Diag "Mate in count dropped in white_wins!?\n" []]
            else [])
      /\ stderr b
         = stderr st ++ black_wins_side_note index
           ++ [Diag "Black_wins in a position where white already won?!\n" []])
  /\ (does_black_win (tb st) index = true ->
      stderr b
      = stderr st ++ black_wins_side_note index
        ++ (if mate_in_count <? mate_in_cnt (entry_at (tb st) index)
            then [Diag "Mate in count dropped in black_wins!?\n" []]
            else [])
      /\ stderr w
         = stderr st ++ white_wins_side_note index
           ++ [Diag "White_wins in a position where black already won?!\n" []]).
Proof.
  intros Hw w b. subst w b.
  unfold white_wins, black_wins, white_wins_side_note, black_wins_side_note,
    does_white_win, does_black_win.
  destruct (side_to_move_cases index) as [[-> ->] | [-> ->]];
    cbv zeta; rewrite ?fprintf_tb;
    destruct Hw as [-> | [-> | [-> | ->]]];
    destruct (mate_in_count <? mate_in_cnt (entry_at (tb st) index));
    simpl; rewrite <- ?app_assoc, ?app_nil_r;
    (split; [split; reflexivity|]); split; intros H;
    first [discriminate H | split; reflexivity].
Qed.

Lemma wins_preserve_recorded_win_witness :
  (tb (white_wins sample_won 0 9 9) = tb sample_won
   /\ tb (black_wins sample_won 0 9 9) = tb sample_won)
  /\ (tb (white_wins sample_won 3 1 1) = tb sample_won
      /\ tb (black_wins sample_won 3 1 1) = tb sample_won).
Proof.
  split.
  - apply (wins_preserve_recorded_win sample_won 0 9 9).
    right; left; reflexivity.
  - apply (wins_preserve_recorded_win sample_won 3 1 1).
    right; right; left; reflexivity.
Defined.

(** ** [max_index] *)

(** C4 (as amended): for a tablebase with up to four mobile pieces (where
    [2 << 6*num_mobiles] fits an [int]), [max_index] is
    2 * 64^num_mobiles - 1, the largest index rather than the number of
    indices. *)
Theorem max_index_value (t : tablebase) :
  0 <= num_mobiles t <= 4 ->
  max_index t = 2 * 64 ^ num_mobiles t - 1.
Proof.
  intros H. unfold max_index, to_uint32.
  assert (C : num_mobiles t = 0 \/ num_mobiles t = 1 \/ num_mobiles t = 2
              \/ num_mobiles t = 3 \/ num_mobiles t = 4) by lia.
  destruct C as [-> | [-> | [-> | [-> | ->]]]]; reflexivity.
Qed.

Lemma max_index_value_witness :
  max_index create_tablebase = 2 * 64 ^ num_mobiles create_tablebase - 1.
Proof. apply (max_index_value create_tablebase). simpl. lia. Defined.

(** C4 (as stated) fails on the K+Q vs K tablebase: [max_index] is 524287,
    not 2 * 64^3 = 524288. *)
Lemma max_index_not_table_size :
  max_index create_tablebase <> 2 * 64 ^ num_mobiles create_tablebase.
Proof. vm_compute. discriminate. Qed.

(** ** The movement table *)

Lemma forallb_seqZ (f : Z -> bool) (m n x : Z) :
  forallb f (seqZ m n) = true -> m <= x < m + n -> f x = true.
Proof.
  intros H Hx. rewrite forallb_forall in H. apply H.
  apply list_elem_of_In, elem_of_seqZ. exact Hx.
Qed.

Lemma movement_eq (m : movement) (v s : Z) :
  (vector m =? v) && (square m =? s) = true -> m = Movement v s.
Proof.
  destruct m as [v' s']; simpl. intros H.
  apply andb_true_iff in H as [Hv Hs].
  apply Z.eqb_eq in Hv, Hs. now subst.
Qed.

Lemma reachesb_reaches piece squareA squareB :
  reachesb piece squareA squareB = true <-> reaches piece squareA squareB.
Proof.
  unfold reachesb, reaches, directions_of. rewrite existsb_exists. split.
  - intros (dir & Hin & H).
    apply list_elem_of_In, elem_of_seqZ in Hin.
    destruct (snd (scan _ _)) as [m|] eqn:E; [|discriminate].
    apply andb_true_iff in H as [Hv Hs].
    exists dir, m. split; [lia|]. split; [exact E|]. split.
    + intros Z0. rewrite Z0 in Hv. discriminate.
    + now apply Z.eqb_eq.
  - intros (dir & m & Hd & Hs & Hv & Hq). exists dir. split.
    + apply list_elem_of_In, elem_of_seqZ. lia.
    + rewrite Hs. apply andb_true_iff. split.
      * apply negb_true_iff, Z.eqb_neq. exact Hv.
      * now apply Z.eqb_eq.
Qed.

(** The check of [verify_movements] on the table, pair by pair. *)
Lemma reachesb_symmetric :
  forallb
    (fun piece =>
       forallb
         (fun squareA =>
            forallb
              (fun squareB =>
                 implb (reachesb piece squareA squareB)
                   (reachesb piece squareB squareA))
              (seqZ 0 NUM_SQUARES))
         (seqZ 0 NUM_SQUARES))
    (seqZ KING (KNIGHT - KING + 1)) = true.
Proof. vm_compute. reflexivity. Qed.

(** C8: for King, Queen, Rook, Bishop and Knight and distinct squares A
    and B, if some ray from A reaches B then some ray from B reaches A. *)
Theorem movement_table_symmetric (piece squareA squareB : Z) :
  KING <= piece <= KNIGHT ->
  0 <= squareA < NUM_SQUARES ->
  0 <= squareB < NUM_SQUARES ->
  squareA <> squareB ->
  reaches piece squareA squareB ->
  reaches piece squareB squareA.
Proof.
  intros Hp Ha Hb _ H. apply reachesb_reaches. apply reachesb_reaches in H.
  pose proof reachesb_symmetric as S.
  apply (forallb_seqZ _ _ _ piece) in S; [|unfold KING, KNIGHT in *; lia].
  apply (forallb_seqZ _ _ _ squareA) in S; [|lia].
  apply (forallb_seqZ _ _ _ squareB) in S; [|lia].
  cbv beta in S. rewrite H in S. exact S.
Qed.

Lemma movement_table_symmetric_witness :
  reaches QUEEN 0 63 /\ reaches QUEEN 63 0.
Proof.
  assert (R : reaches QUEEN 0 63) by (apply reachesb_reaches; vm_compute; reflexivity).
  split; [exact R|].
  apply (movement_table_symmetric QUEEN 0 63);
    [unfold KING, QUEEN, KNIGHT; lia | unfold NUM_SQUARES; lia
    | unfold NUM_SQUARES; lia | discriminate | exact R].
Defined.

Lemma single_step_rowb_correct row :
  single_step_rowb row = true -> single_step_row row.
Proof.
  unfold single_step_rowb, single_step_row. intros H.
  apply andb_true_iff in H as [Hl Hs]. split.
  - now apply Nat.leb_le.
  - destruct (row !! _) as [m|]; [|discriminate].
    f_equal. now apply movement_eq.
Qed.

Lemma knight_rows_single_step :
  forallb
    (fun sq =>
       forallb (fun dir => single_step_rowb (movements KNIGHT sq dir))
         (directions_of KNIGHT))
    (seqZ 0 NUM_SQUARES) = true.
Proof. vm_compute. reflexivity. Qed.

(** C9: in the table built by [init_movements] the squares a Knight on b1
    (square 1) moves to, over its eight directions, are exactly a3, c3 and
    d2 (16, 18, 11); and every knight ray holds at most one cell in front
    of the all-ones cell that ends it. *)
Theorem knight_rays :
  (forall s : Z, In s (destinations KNIGHT 1) <-> s = 16 \/ s = 18 \/ s = 11)
  /\ (forall sq dir : Z,
        0 <= sq < NUM_SQUARES -> 0 <= dir < 8 ->
        single_step_row (movements KNIGHT sq dir)).
Proof.
  split.
  - intros s. change (destinations KNIGHT 1) with [11; 18; 16]. simpl.
    intuition lia.
  - intros sq dir Hs Hd. apply single_step_rowb_correct.
    pose proof knight_rows_single_step as K.
    apply (forallb_seqZ _ _ _ sq) in K; [|lia].
    apply (forallb_seqZ _ _ _ dir) in K; [exact K|].
    change (zget 0 number_of_movement_directions KNIGHT) with 8. lia.
Qed.

Lemma knight_rays_witness :
  single_step_row (movements KNIGHT 1 0)
  /\ single_step_row (movements KNIGHT 1 1).
Proof.
  split; apply knight_rays; unfold NUM_SQUARES; lia.
Defined.

(** ** The position codec *)

Lemma testbit_above (x p b : Z) :
  0 <= x < 2 ^ p -> 0 <= p -> p <= b -> Z.testbit x b = false.
Proof.
  intros Hx Hp Hb. rewrite <- (Z.mod_small x (2 ^ p)) by exact Hx.
  apply Z.mod_pow2_bits_high. lia.
Qed.

Lemma land_63_range (x : Z) : 0 <= Z.land x 63 < 64.
Proof.
  change 63 with (Z.ones 6). rewrite Z.land_ones by lia.
  change (2 ^ 6) with 64. apply Z.mod_pos_bound. lia.
Qed.

Lemma testbit_land_63 (x r : Z) :
  0 <= r < 6 -> Z.testbit (Z.land x 63) r = Z.testbit x r.
Proof.
  intros Hr. rewrite Z.land_spec. change 63 with (Z.ones 6).
  rewrite Z.ones_spec_low by lia. apply andb_true_r.
Qed.

Lemma testbit_to_uint32 (x b : Z) :
  0 <= b -> Z.testbit (to_uint32 x) b = (b <? 32) && Z.testbit x b.
Proof.
  intros Hb. unfold to_uint32. destruct (Z.ltb_spec b 32).
  - rewrite Z.mod_pow2_bits_low by lia. reflexivity.
  - rewrite Z.mod_pow2_bits_high by lia. reflexivity.
Qed.

Lemma mobile_set_mobile_eq p piece sq :
  (Z.to_nat piece < length (mobile_piece_position p))%nat ->
  mobile (set_mobile p piece sq) piece = sq.
Proof.
  intros H. unfold mobile, set_mobile, zget; simpl.
  now rewrite list_lookup_insert_eq.
Qed.

Lemma mobile_set_mobile_ne p piece sq j :
  Z.to_nat piece <> Z.to_nat j ->
  mobile (set_mobile p piece sq) j = mobile p j.
Proof.
  intros H. unfold mobile, set_mobile, zget; simpl.
  now rewrite list_lookup_insert_ne.
Qed.

(** What the loop of [index_to_position] leaves in [*p], whether it
    returns 1 or 0: the side to move, the cells below the first piece it
    places and the bits already on the board stay; on success every piece
    it places sits on the square held by its six bits of the index. *)
Lemma index_to_position_loop_spec t (c : nat) :
  forall (k index : Z) (p : position) (b : bool) (p' : position),
    0 <= k ->
    index_to_position_loop t (seqZ k (Z.of_nat c)) index p = (b, p') ->
    side_to_move p' = side_to_move p
    /\ length (mobile_piece_position p') = length (mobile_piece_position p)
    /\ (forall j, 0 <= j < k -> mobile p' j = mobile p j)
    /\ (forall n, Z.testbit (board_vector p) n = true ->
                  Z.testbit (board_vector p') n = true)
    /\ (b = true ->
        forall j, k <= j < k + Z.of_nat c ->
                  (Z.to_nat j < length (mobile_piece_position p))%nat ->
                  mobile p' j = Z.land (Z.shiftr index (6 * (j - k))) 63).
Proof.
  induction c as [|c IH]; intros k index p b p' Hk.
  - simpl. intros [= <- <-]. repeat split; try reflexivity; auto. intros; lia.
  - rewrite seqZ_cons by lia.
    replace (Z.pred (Z.of_nat (S c))) with (Z.of_nat c) by lia.
    cbn [index_to_position_loop].
    destruct (negb _) eqn:Hhit.
    + intros [= <- <-]. simpl. repeat split.
      * apply length_insert.
      * intros j Hj. apply mobile_set_mobile_ne. lia.
      * auto.
      * discriminate.
    + set (sq := Z.land index 63) in *.
      set (p1 := if zget 0 (mobile_piece_color t) k =? WHITE then _ else _).
      intros H. apply IH in H; [|lia].
      assert (Hside : side_to_move p1 = side_to_move p)
        by (subst p1; destruct (zget 0 (mobile_piece_color t) k =? WHITE); reflexivity).
      assert (Hmob : mobile_piece_position p1
                     = <[Z.to_nat k := sq]> (mobile_piece_position p))
        by (subst p1; destruct (zget 0 (mobile_piece_color t) k =? WHITE); reflexivity).
      assert (Hbv : board_vector p1 = Z.lor (board_vector p) (bitvector sq))
        by (subst p1; destruct (zget 0 (mobile_piece_color t) k =? WHITE); reflexivity).
      assert (Hm : forall j, mobile p1 j = mobile (set_mobile p k sq) j)
        by (intros j; unfold mobile, set_mobile; simpl; now rewrite Hmob).
      destruct H as (H1 & H2 & H3 & H4 & H5).
      split; [congruence|]. split.
      { rewrite H2, Hmob. apply length_insert. }
      split.
      { intros j Hj. rewrite H3 by lia. rewrite Hm.
        apply mobile_set_mobile_ne. lia. }
      split.
      { intros n Hn. apply H4. rewrite Hbv, Z.lor_spec, Hn. reflexivity. }
      intros Hb j Hj Hlen.
      destruct (Z.eq_dec j k) as [-> | Hne].
      * rewrite H3 by lia. rewrite Hm, mobile_set_mobile_eq by exact Hlen.
        replace (6 * (k - k)) with 0 by lia. now rewrite Z.shiftr_0_r.
      * rewrite (H5 Hb j) by (rewrite ?Hmob, ?length_insert; lia).
        rewrite Z.shiftr_shiftr by lia. do 2 f_equal. lia.
Qed.

(** Bit by bit, the index [position_to_index] packs: bit 0 is the side to
    move, and bit 1 + 6j + r is bit r of the square of mobile piece j. *)
Lemma position_to_index_loop_bits (pos : position) (side : Z) (c : nat) :
  (forall j, 0 <= j < Z.of_nat c -> 0 <= mobile pos j < 64) ->
  0 <= side < 2 ->
  exists R,
    fold_left
      (fun (acc : Z * Z) (piece : Z) =>
         let '(shift_count, index) := acc in
         (shift_count + 6,
          to_uint32 (Z.lor index (Z.shiftl (mobile pos piece) shift_count))))
      (seqZ 0 (Z.of_nat c)) (1, to_uint32 side)
    = (1 + 6 * Z.of_nat c, R)
    /\ Z.testbit R 0 = Z.testbit side 0
    /\ (forall j r, 0 <= j -> 0 <= r < 6 ->
          Z.testbit R (1 + 6 * j + r)
          = (1 + 6 * j + r <? 32) && (j <? Z.of_nat c)
            && Z.testbit (mobile pos j) r).
Proof.
  intros Hm Hs. induction c as [|c IH].
  - exists (to_uint32 side). split; [reflexivity|].
    assert (E : to_uint32 side = side) by (apply Z.mod_small; lia).
    rewrite E. split; [reflexivity|]. intros j r Hj Hr.
    replace (j <? Z.of_nat 0) with false by (symmetry; apply Z.ltb_ge; lia).
    rewrite andb_false_r. apply (testbit_above side 1); lia.
  - destruct IH as (R & HR & H0 & Hbits); [intros; apply Hm; lia|].
    rewrite seqZ_S, fold_left_app, HR. cbn [fold_left].
    eexists. split; [f_equal; lia|].
    replace (0 + Z.of_nat c) with (Z.of_nat c) by lia.
    split.
    + rewrite testbit_to_uint32, Z.lor_spec, H0 by lia.
      rewrite Z.shiftl_spec_low by lia. now rewrite orb_false_r.
    + intros j r Hj Hr.
      rewrite testbit_to_uint32, Z.lor_spec, Hbits by lia.
      destruct (Z.ltb_spec (1 + 6 * j + r) 32); [|reflexivity]. simpl.
      destruct (Z.lt_trichotomy j (Z.of_nat c)) as [Hlt | [-> | Hgt]].
      * rewrite Z.shiftl_spec_low by lia. rewrite orb_false_r.
        replace (j <? Z.of_nat c) with true by (symmetry; apply Z.ltb_lt; lia).
        replace (j <? Z.of_nat (S c)) with true by (symmetry; apply Z.ltb_lt; lia).
        reflexivity.
      * rewrite Z.shiftl_spec by lia.
        replace (Z.of_nat c <? Z.of_nat c) with false
          by (symmetry; apply Z.ltb_ge; lia).
        replace (Z.of_nat c <? Z.of_nat (S c)) with true
          by (symmetry; apply Z.ltb_lt; lia).
        simpl. f_equal. lia.
      * rewrite Z.shiftl_spec by lia.
        replace (j <? Z.of_nat c) with false by (symmetry; apply Z.ltb_ge; lia).
        replace (j <? Z.of_nat (S c)) with false by (symmetry; apply Z.ltb_ge; lia).
        simpl. apply (testbit_above (mobile pos (Z.of_nat c)) 6); try lia.
        change (2 ^ 6) with 64. apply Hm. lia.
Qed.

Lemma position_to_index_bits (t : tablebase) (pos : position) :
  0 <= num_mobiles t ->
  (forall j, 0 <= j < num_mobiles t -> 0 <= mobile pos j < 64) ->
  0 <= side_to_move pos < 2 ->
  Z.testbit (position_to_index t pos) 0 = Z.testbit (side_to_move pos) 0
  /\ (forall j r, 0 <= j -> 0 <= r < 6 ->
        Z.testbit (position_to_index t pos) (1 + 6 * j + r)
        = (1 + 6 * j + r <? 32) && (j <? num_mobiles t)
          && Z.testbit (mobile pos j) r).
Proof.
  intros Hn Hm Hs. unfold position_to_index.
  destruct (position_to_index_loop_bits pos (side_to_move pos)
              (Z.to_nat (num_mobiles t))) as (R & HR & H0 & Hb).
  - intros j Hj. apply Hm. lia.
  - exact Hs.
  - rewrite Z2Nat.id in * by lia. rewrite HR. simpl. split; assumption.
Qed.

Lemma pow_table_size (n : Z) : 0 <= n -> 2 * 64 ^ n = 2 ^ (1 + 6 * n).
Proof.
  intros Hn. change 64 with (2 ^ 6). rewrite <- Z.pow_mul_r by lia.
  rewrite Z.pow_add_r by lia. reflexivity.
Qed.

(** C3: for every tablebase (with at most [MAX_MOBILES] mobile pieces) and
    every index in range, if [index_to_position] succeeds then
    [position_to_index] on the position it filled in returns the index. *)
Theorem index_position_roundtrip (t : tablebase) (i : Z) (p : position) :
  0 <= num_mobiles t <= MAX_MOBILES ->
  0 <= i < 2 * 64 ^ num_mobiles t ->
  i < 2 ^ 32 ->
  index_to_position t i = (true, p) ->
  position_to_index t p = i.
Proof.
  intros Hn Hi H32 Hdec. unfold index_to_position in Hdec.
  rewrite <- (Z2Nat.id (num_mobiles t)) in Hdec by lia.
  apply index_to_position_loop_spec in Hdec; [|lia].
  destruct Hdec as (Hside & Hlen & _ & _ & Hsq). simpl in Hside, Hlen.
  assert (Hmob : forall j, 0 <= j < num_mobiles t ->
            mobile p j = Z.land (Z.shiftr i (1 + 6 * j)) 63).
  { intros j Hj. rewrite (Hsq eq_refl j).
    - rewrite Z.shiftr_shiftr by lia. do 2 f_equal. lia.
    - lia.
    - simpl. unfold MAX_MOBILES in *. lia. }
  assert (Hs : side_to_move p = Z.land i 1) by exact Hside.
  assert (Hs2 : 0 <= side_to_move p < 2).
  { rewrite Hs. change 1 with (Z.ones 1). rewrite Z.land_ones by lia.
    apply Z.mod_pos_bound. reflexivity. }
  destruct (position_to_index_bits t p) as [B0 Bj]; [lia| |exact Hs2|].
  { intros j Hj. rewrite Hmob by exact Hj. apply land_63_range. }
  apply Z.bits_inj'. intros b Hb.
  destruct (Z.eq_dec b 0) as [-> | Hb0].
  - rewrite B0, Hs, Z.land_spec. apply andb_true_r.
  - pose proof (Z.div_mod (b - 1) 6 ltac:(lia)) as D.
    pose proof (Z.mod_pos_bound (b - 1) 6 ltac:(lia)) as M.
    assert (Hq : 0 <= (b - 1) / 6) by (apply Z.div_pos; lia).
    replace b with (1 + 6 * ((b - 1) / 6) + (b - 1) mod 6) by lia.
    set (j := (b - 1) / 6) in *. set (r := (b - 1) mod 6) in *.
    rewrite Bj by lia.
    destruct (Z.ltb_spec (1 + 6 * j + r) 32) as [L32 | G32]; simpl.
    + destruct (Z.ltb_spec j (num_mobiles t)) as [Lj | Gj]; simpl.
      * rewrite Hmob, testbit_land_63, Z.shiftr_spec by lia.
        f_equal. lia.
      * symmetry. apply (testbit_above i (1 + 6 * num_mobiles t)); try lia.
        rewrite <- pow_table_size by lia. lia.
    + symmetry. apply (testbit_above i 32); lia.
Qed.

Lemma index_position_roundtrip_witness :
  position_to_index create_tablebase
    (snd (index_to_position create_tablebase 384987)) = 384987.
Proof.
  apply (index_position_roundtrip create_tablebase 384987).
  - simpl. unfold MAX_MOBILES. lia.
  - simpl. lia.
  - reflexivity.
  - reflexivity.
Defined.

(** ** Rows of the movement table and their scans *)

Lemma cell_okb_correct m : cell_okb m = true -> cell_ok m.
Proof.
  unfold cell_okb, cell_ok. intros H.
  apply orb_true_iff in H as [H | H]; [apply orb_true_iff in H as [H | H]|].
  - left. now apply movement_eq.
  - right; left. apply andb_true_iff in H as [H Hv].
    apply andb_true_iff in H as [H0 H1].
    apply Z.leb_le in H0. apply Z.ltb_lt in H1. apply Z.eqb_eq in Hv.
    split; [lia | exact Hv].
  - right; right. now apply movement_eq.
Qed.

Lemma table_cells_okb :
  forallb
    (fun piece =>
       forallb
         (fun sq =>
            forallb (fun dir => forallb cell_okb (init_movements_row piece sq dir))
              (seqZ 0 NUM_DIR))
         (seqZ 0 NUM_SQUARES))
    (seqZ 0 NUM_PIECES) = true.
Proof. vm_compute. reflexivity. Qed.

Lemma number_of_movement_directions_le piece :
  zget 0 number_of_movement_directions piece <= NUM_DIR.
Proof.
  unfold zget, number_of_movement_directions, NUM_DIR.
  destruct (Z.to_nat piece) as [|[|[|[|[|[|[|n]]]]]]]; simpl; lia.
Qed.

(** Every cell of every row of [movements] is of one of the three kinds. *)
Lemma movements_cells piece sq dir m :
  In m (movements piece sq dir) -> cell_ok m.
Proof.
  unfold movements. destruct (_ && _) eqn:R.
  - repeat (apply andb_true_iff in R as [R ?]).
    repeat match goal with
           | H : (_ <=? _) = true |- _ => apply Z.leb_le in H
           | H : (_ <? _) = true |- _ => apply Z.ltb_lt in H
           end.
    pose proof (number_of_movement_directions_le piece).
    pose proof table_cells_okb as T.
    apply (forallb_seqZ _ _ _ piece) in T; [|lia].
    apply (forallb_seqZ _ _ _ sq) in T; [|lia].
    apply (forallb_seqZ _ _ _ dir) in T; [|lia].
    cbv beta in T. rewrite forallb_forall in T.
    intros Hin. apply cell_okb_correct, T, Hin.
  - intros Hin. apply list_elem_of_In, elem_of_replicate in Hin as [-> _].
    right; right; reflexivity.
Qed.

Lemma scan_traversed row occ m :
  In m (fst (scan row occ)) -> In m row /\ Z.land (vector m) occ = 0.
Proof.
  induction row as [|c row IH]; simpl; [tauto|].
  destruct (Z.eqb_spec (Z.land (vector c) occ) 0) as [E | E]; [|simpl; tauto].
  destruct (scan row occ) as [pre stop]. simpl in *.
  intros [<- | Hin]; [tauto|]. apply IH in Hin. tauto.
Qed.

Lemma scan_stop_in row occ m :
  snd (scan row occ) = Some m -> In m row /\ Z.land (vector m) occ <> 0.
Proof.
  induction row as [|c row IH]; simpl; [discriminate|].
  destruct (Z.eqb_spec (Z.land (vector c) occ) 0) as [E | E].
  - destruct (scan row occ) as [pre stop]. simpl in *.
    intros H. apply IH in H. tauto.
  - simpl. intros [= <-]. tauto.
Qed.

(** A cell the scan runs over, on a board with a piece on square [a], is a
    step to another square of the board, or a cell never written (whose
    square is 0). *)
Lemma traversed_cell_square piece sq dir occ a m :
  0 <= a < NUM_SQUARES ->
  Z.testbit occ a = true ->
  In m (fst (scan (movements piece sq dir) occ)) ->
  0 <= square m < NUM_SQUARES /\ (square m = a -> a = 0).
Proof.
  unfold NUM_SQUARES. intros Ha Hocc Hin.
  apply scan_traversed in Hin as [Hin Hland].
  assert (Hbit : forall n, Z.testbit (Z.land (vector m) occ) n = false)
    by (intros n; rewrite Hland; apply Z.bits_0).
  apply movements_cells in Hin as [-> | [[Hr Hv] | ->]].
  - specialize (Hbit a). rewrite Z.land_spec, Hocc in Hbit. simpl in Hbit.
    unfold allones_bitvector in Hbit.
    change (2 ^ 64 - 1) with (Z.ones 64) in Hbit.
    rewrite Z.ones_spec_low in Hbit by lia. discriminate.
  - unfold NUM_SQUARES in Hr. split; [exact Hr|]. intros E.
    specialize (Hbit a). rewrite Z.land_spec, Hocc, Hv, E in Hbit.
    unfold bitvector in Hbit. rewrite Z.shiftl_spec in Hbit by lia.
    replace (a - a) with 0 in Hbit by lia. discriminate.
  - simpl. split; [lia|]. intros <-. reflexivity.
Qed.

(** ** Scans stop inside the row *)

Lemma scan_stops_at row occ :
  In stopper row -> Z.land allones_bitvector occ <> 0 ->
  exists m, snd (scan row occ) = Some m.
Proof.
  intros Hin Hocc. induction row as [|c row IH]; [destruct Hin|].
  simpl. destruct (Z.eqb_spec (Z.land (vector c) occ) 0) as [E | E].
  - destruct Hin as [-> | Hin]; [contradiction|].
    destruct (IH Hin) as [m Hm]. destruct (scan row occ) as [pre stop].
    exists m. exact Hm.
  - exists c. reflexivity.
Qed.

Lemma table_rows_stopped :
  forallb
    (fun piece =>
       forallb
         (fun sq =>
            forallb
              (fun dir =>
                 existsb
                   (fun m => (vector m =? allones_bitvector) && (square m =? -1))
                   (movements piece sq dir))
              (directions_of piece))
         (seqZ 0 NUM_SQUARES))
    (seqZ 0 NUM_PIECES) = true.
Proof. vm_compute. reflexivity. Qed.

(** On every row the loops of the program scan, with a non-empty board of
    64 squares as the occupancy, the scan stops at a cell of the row. *)
Lemma scan_movements_stops piece sq dir occ :
  0 <= piece < NUM_PIECES ->
  0 <= sq < NUM_SQUARES ->
  0 <= dir < zget 0 number_of_movement_directions piece ->
  0 < occ < 2 ^ 64 ->
  exists m, snd (scan (movements piece sq dir) occ) = Some m.
Proof.
  intros Hp Hs Hd Hocc. apply scan_stops_at.
  - pose proof table_rows_stopped as T.
    apply (forallb_seqZ _ _ _ piece) in T; [|lia].
    apply (forallb_seqZ _ _ _ sq) in T; [|lia].
    apply (forallb_seqZ _ _ _ dir) in T; [|lia].
    cbv beta in T. apply existsb_exists in T as (m & Hin & Hm).
    apply movement_eq in Hm. subst m. exact Hin.
  - unfold allones_bitvector. change (2 ^ 64 - 1) with (Z.ones 64).
    rewrite Z.land_comm, Z.land_ones by lia.
    rewrite Z.mod_small by lia. lia.
Qed.

(** On the table built by [init_movements], [verify_movements] prints no
    diagnostic. *)
Lemma verify_movements_prints_nothing :
  stderr (verify_movements (State create_tablebase [])) = [].
Proof. vm_compute. reflexivity. Qed.

(** ** Every operation writes the entry at its index only *)

Create HintDb kept.
#[local] Hint Resolve kept_refl fprintf_kept store_kept : kept.

Ltac kept_cases :=
  repeat match goal with
         | |- kept _ _ (if ?c then _ else _) => destruct c
         | |- kept _ _ (let _ := _ in _) => cbv zeta
         | |- kept _ ?st (store (fprintf ?f ?a ?st) _ _) =>
           apply (kept_trans _ _ (fprintf f a st))
         | |- kept _ ?st (store (if ?c then _ else _) _ _) => destruct c
         end;
  auto with kept.

Section WritesAtIndex.

Variables (j index : Z).
Hypothesis Hindex : 0 <= index.
Hypothesis Hj : 0 <= j.
Hypothesis Hne : index <> j.

Lemma mark_propagated_kept st : kept j st (mark_propagated st index).
Proof. unfold mark_propagated. kept_cases. Qed.

Lemma white_wins_kept st m sc : kept j st (white_wins st index m sc).
Proof.
  unfold white_wins. destruct (WHITE_TO_MOVE index); cbv zeta;
    rewrite ?fprintf_tb; kept_cases.
  all: eapply kept_trans; [apply fprintf_kept|]; auto with kept.
Qed.

Lemma black_wins_kept st m sc : kept j st (black_wins st index m sc).
Proof.
  unfold black_wins. destruct (BLACK_TO_MOVE index); cbv zeta;
    rewrite ?fprintf_tb; kept_cases.
  all: eapply kept_trans; [apply fprintf_kept|]; auto with kept.
Qed.

Lemma add_one_to_white_wins_kept st m sc :
  kept j st (add_one_to_white_wins st index m sc).
Proof. unfold add_one_to_white_wins. kept_cases. Qed.

Lemma add_one_to_black_wins_kept st m sc :
  kept j st (add_one_to_black_wins st index m sc).
Proof. unfold add_one_to_black_wins. kept_cases. Qed.

Lemma initialize_index_as_illegal_kept st :
  kept j st (initialize_index_as_illegal st index).
Proof. unfold initialize_index_as_illegal. kept_cases. Qed.

Lemma initialize_index_with_black_mated_kept st :
  kept j st (initialize_index_with_black_mated st index).
Proof. unfold initialize_index_with_black_mated. kept_cases. Qed.

Lemma initialize_index_with_white_mated_kept st :
  kept j st (initialize_index_with_white_mated st index).
Proof.
  unfold initialize_index_with_white_mated. cbv zeta.
  eapply kept_trans; [|apply black_wins_kept]. kept_cases.
Qed.

Lemma initialize_index_with_stalemate_kept st :
  kept j st (initialize_index_with_stalemate st index).
Proof. unfold initialize_index_with_stalemate. kept_cases. Qed.

Lemma initialize_index_with_movecnt_kept st mc :
  kept j st (initialize_index_with_movecnt st index mc).
Proof. unfold initialize_index_with_movecnt. kept_cases. Qed.

Lemma write_mated_kept st p : kept j st (write_mated st index p).
Proof.
  unfold write_mated. destruct (_ =? _);
    [apply initialize_index_with_black_mated_kept
    | apply initialize_index_with_white_mated_kept].
Qed.

End WritesAtIndex.

Lemma fold_left_kept {A : Type} (j : Z) (f : state -> A -> state) (l : list A) :
  (forall st a, In a l -> kept j st (f st a)) ->
  forall st, kept j st (fold_left f l st).
Proof.
  induction l as [|a l IH]; intros H st; simpl; [apply kept_refl|].
  eapply kept_trans; [apply H; left; reflexivity|].
  apply IH. intros st' a' Hin. apply H. right. exact Hin.
Qed.

(** ** Initialization *)

(** The counting loops leave the state alone until they jump to [mated],
    and they jump when a direction still to scan holds a capture of the
    enemy king. *)
Lemma initialize_count_dirs_result st index p piece dirs :
  forall mc,
    ((exists mc', initialize_count_dirs st index p piece dirs mc = (st, Some mc'))
     \/ initialize_count_dirs st index p piece dirs mc
        = (write_mated st index p, None))
    /\ ((exists dir m,
           In dir dirs
           /\ snd (scan (movements (zget 0 (mobile_piece_type (tb st)) piece)
                           (mobile p piece) dir) (board_vector p)) = Some m
           /\ Z.land (vector m) (own_vector p) = 0
           /\ square m = mobile p (enemy_king p)) ->
        initialize_count_dirs st index p piece dirs mc
        = (write_mated st index p, None)).
Proof.
  unfold write_mated, own_vector, enemy_king.
  induction dirs as [|dir dirs IH]; intros mc.
  - split; [left; eexists; reflexivity|]. intros (d & m & [] & _).
  - cbn [initialize_count_dirs].
    destruct (scan _ (board_vector p)) as [pre stop] eqn:S.
    destruct stop as [m|].
    + destruct (side_to_move p =? WHITE) eqn:W.
      * destruct (Z.eqb_spec (Z.land (vector m) (white_vector p)) 0) as [C | C].
        -- destruct (Z.eqb_spec (square m) (mobile p BLACK_KING)) as [K | K].
           ++ split; [right; reflexivity | reflexivity].
           ++ split; [apply IH|]. intros (d & m' & [<- | Hin] & Hs & Hc & Hk).
              ** rewrite S in Hs. simpl in Hs. injection Hs as <-. contradiction.
              ** apply IH. eauto 6.
        -- split; [apply IH|]. intros (d & m' & [<- | Hin] & Hs & Hc & Hk).
           ++ rewrite S in Hs. simpl in Hs. injection Hs as <-. contradiction.
           ++ apply IH. eauto 6.
      * destruct (Z.eqb_spec (Z.land (vector m) (black_vector p)) 0) as [C | C].
        -- destruct (Z.eqb_spec (square m) (mobile p WHITE_KING)) as [K | K].
           ++ split; [right; reflexivity | reflexivity].
           ++ split; [apply IH|]. intros (d & m' & [<- | Hin] & Hs & Hc & Hk).
              ** rewrite S in Hs. simpl in Hs. injection Hs as <-. contradiction.
              ** apply IH. eauto 6.
        -- split; [apply IH|]. intros (d & m' & [<- | Hin] & Hs & Hc & Hk).
           ++ rewrite S in Hs. simpl in Hs. injection Hs as <-. contradiction.
           ++ apply IH. eauto 6.
    + split; [apply IH|]. intros (d & m' & [<- | Hin] & Hs & Hc & Hk).
      * rewrite S in Hs. discriminate.
      * apply IH. eauto 6.
Qed.

Lemma initialize_count_pieces_result st index p pieces :
  forall mc,
    ((exists mc', initialize_count_pieces st index p pieces mc = (st, Some mc'))
     \/ initialize_count_pieces st index p pieces mc
        = (write_mated st index p, None))
    /\ ((exists piece dir m,
           In piece pieces
           /\ zget 0 (mobile_piece_color (tb st)) piece = side_to_move p
           /\ 0 <= dir < zget 0 number_of_movement_directions
                           (zget 0 (mobile_piece_type (tb st)) piece)
           /\ snd (scan (movements (zget 0 (mobile_piece_type (tb st)) piece)
                           (mobile p piece) dir) (board_vector p)) = Some m
           /\ Z.land (vector m) (own_vector p) = 0
           /\ square m = mobile p (enemy_king p)) ->
        initialize_count_pieces st index p pieces mc
        = (write_mated st index p, None)).
Proof.
  induction pieces as [|piece pieces IH]; intros mc.
  - split; [left; eexists; reflexivity|]. intros (d & ? & m & [] & _).
  - cbn [initialize_count_pieces].
    destruct (Z.eqb_spec (zget 0 (mobile_piece_color (tb st)) piece)
                (side_to_move p)) as [C | C]; simpl.
    + destruct (initialize_count_dirs_result st index p piece
                  (directions_of (zget 0 (mobile_piece_type (tb st)) piece)) mc)
        as [[[mc' E] | E] D].
      * rewrite E. split; [apply IH|].
        intros (pc & d & m & [<- | Hin] & Hc & Hd & Hs & Hl & Hk).
        -- rewrite D in E; [discriminate|]. exists d, m. split; [|tauto].
           apply list_elem_of_In, elem_of_seqZ. lia.
        -- apply IH. eauto 10.
      * rewrite E. split; [right; reflexivity | reflexivity].
    + split; [apply IH|].
      intros (pc & d & m & [<- | Hin] & Hc & Hd & Hs & Hl & Hk);
        [contradiction|].
      apply IH. eauto 10.
Qed.

(** The body of the loop of [initialize_tablebase] writes the entry at its
    index only. *)
Lemma initialize_index_kept j st index :
  0 <= index -> 0 <= j -> index <> j -> kept j st (initialize_index st index).
Proof.
  intros Hi Hj Hne. unfold initialize_index.
  destruct (index_to_position (tb st) index) as [ok p].
  destruct ok; simpl; [|now apply initialize_index_as_illegal_kept].
  destruct (initialize_count_pieces_result st index p
              (seqZ 0 (num_mobiles (tb st))) 0) as [[[mc E] | E] _];
    rewrite E.
  - destruct (mc =? 0);
      [now apply initialize_index_with_stalemate_kept
      | now apply initialize_index_with_movecnt_kept].
  - now apply write_mated_kept.
Qed.

Lemma index_to_position_loop_header t t' pieces :
  mobile_piece_color t' = mobile_piece_color t ->
  forall index p,
    index_to_position_loop t' pieces index p
    = index_to_position_loop t pieces index p.
Proof.
  intros Hc. induction pieces as [|piece pieces IH]; intros index p;
    [reflexivity|].
  cbn [index_to_position_loop]. rewrite Hc.
  destruct (negb _); [reflexivity|]. apply IH.
Qed.

Lemma index_to_position_header st st' index :
  same_header st st' ->
  index_to_position (tb st') index = index_to_position (tb st) index.
Proof.
  intros (Hn & _ & Hc & _). unfold index_to_position. rewrite Hn.
  now apply index_to_position_loop_header.
Qed.

Lemma king_capture_header st st' p :
  same_header st st' -> king_capture (tb st) p -> king_capture (tb st') p.
Proof.
  intros (Hn & Ht & Hc & _). unfold king_capture. now rewrite Hn, Ht, Hc.
Qed.

Lemma max_index_header st st' :
  same_header st st' -> max_index (tb st') = max_index (tb st).
Proof. intros (Hn & _). unfold max_index. now rewrite Hn. Qed.

(** On an entry that records a win, [black_wins] changes nothing in the
    tablebase. *)
Lemma black_wins_recorded_win_tb st index m sc :
  records_win (entry_at (tb st) index) ->
  tb (black_wins st index m sc) = tb st.
Proof.
  unfold black_wins, records_win. intros H.
  destruct (BLACK_TO_MOVE index); cbv zeta; rewrite ?fprintf_tb;
    destruct H as [-> | [-> | [-> | ->]]]; simpl;
    repeat match goal with
           | |- context [if ?c then _ else _] => destruct c
           end;
    reflexivity.
Qed.

Lemma init_entry_fields mc mi sc e :
  0 <= mc < 256 -> 0 <= mi < 256 -> 0 <= sc < 256 ->
  movecnt (init_entry mc mi sc e) = mc
  /\ mate_in_cnt (init_entry mc mi sc e) = mi
  /\ stalemate_cnt (init_entry mc mi sc e) = sc.
Proof.
  intros. unfold init_entry, set_stalemate_cnt, set_mate_in_cnt, set_movecnt;
    cbn [movecnt mate_in_cnt stalemate_cnt]; unfold to_uchar.
  rewrite !Z.mod_small by lia. repeat split.
Qed.

(** The entry written before the jump to [mated]. *)
Lemma write_mated_entry st index p :
  in_table (tb st) index ->
  movecnt (entry_at (tb (write_mated st index p)) index)
  = PTM_WINS_PROPAGATION_NEEDED
  /\ mate_in_cnt (entry_at (tb (write_mated st index p)) index) = 0.
Proof.
  intros Hr.
  assert (S : forall st0, tb st0 = tb st ->
            movecnt (entry_at (tb (store st0 index
                       (init_entry PTM_WINS_PROPAGATION_NEEDED 0 0))) index)
            = PTM_WINS_PROPAGATION_NEEDED
            /\ mate_in_cnt (entry_at (tb (store st0 index
                       (init_entry PTM_WINS_PROPAGATION_NEEDED 0 0))) index)
               = 0).
  { intros st0 E. rewrite entry_at_store by (now rewrite E).
    destruct (init_entry_fields PTM_WINS_PROPAGATION_NEEDED 0 0
                (entry_at (tb st0) index)) as (a & b & _);
      unfold PTM_WINS_PROPAGATION_NEEDED; try lia.
    split; assumption. }
  unfold write_mated, initialize_index_with_black_mated,
    initialize_index_with_white_mated.
  destruct (side_to_move p =? WHITE); cbv zeta.
  - destruct (BLACK_TO_MOVE index); apply S; reflexivity.
  - rewrite black_wins_recorded_win_tb.
    + destruct (WHITE_TO_MOVE index); apply S; reflexivity.
    + left. destruct (WHITE_TO_MOVE index); apply S; reflexivity.
Qed.

Lemma initialize_prefix_kept st index n :
  0 <= index ->
  kept index st (fold_left initialize_index (seqZ 0 (Z.min index n)) st).
Proof.
  intros Hi. apply fold_left_kept. intros st' i Hin.
  apply list_elem_of_In, elem_of_seqZ in Hin.
  apply initialize_index_kept; lia.
Qed.

(** C6: when the loop of [initialize_tablebase] reaches an index that
    decodes successfully and one of the captures it counts lands on the
    enemy king, the body of the loop is the call that writes the mated
    entry followed by the jump to [mated] (the stalemate and move-count
    stores are not run), and once initialization is over the entry holds
    movecnt = PTM_WINS_PROPAGATION_NEEDED (252) and mate_in_cnt = 0. *)
Theorem initialization_marks_king_capture (st : state) (index : Z)
    (p : position) :
  in_table (tb st) index ->
  0 <= index < max_index (tb st) ->
  index_to_position (tb st) index = (true, p) ->
  king_capture (tb st) p ->
  let reached := fold_left initialize_index (seqZ 0 index) st in
  initialize_index reached index = write_mated reached index p
  /\ movecnt (entry_at (tb (initialize_tablebase st)) index)
     = PTM_WINS_PROPAGATION_NEEDED
  /\ mate_in_cnt (entry_at (tb (initialize_tablebase st)) index) = 0.
Proof.
  intros Hr Hi Hdec Hcap reached.
  assert (K1 : kept index st reached).
  { pose proof (initialize_prefix_kept st index index ltac:(lia)) as K.
    now rewrite Z.min_id in K. }
  destruct K1 as [Hh _].
  assert (Hbody : initialize_index reached index = write_mated reached index p).
  { unfold initialize_index.
    rewrite (index_to_position_header st reached) by exact Hh.
    rewrite Hdec. simpl.
    destruct (initialize_count_pieces_result reached index p
                (seqZ 0 (num_mobiles (tb reached))) 0) as [_ D].
    rewrite D; [reflexivity|].
    destruct (king_capture_header st reached p Hh Hcap)
      as (pc & d & m & Hpc & Hrest).
    exists pc, d, m. split; [|exact Hrest].
    apply list_elem_of_In, elem_of_seqZ. lia. }
  split; [exact Hbody|].
  unfold initialize_tablebase.
  replace (max_index (tb st))
    with (index + (1 + (max_index (tb st) - index - 1))) by lia.
  rewrite seqZ_app, fold_left_app by lia. fold reached.
  rewrite seqZ_cons by lia. cbn [fold_left].
  replace (0 + index) with index by lia. rewrite Hbody.
  assert (K2 : kept index (write_mated reached index p)
                 (fold_left initialize_index
                    (seqZ (Z.succ index)
                       (Z.pred (1 + (max_index (tb st) - index - 1))))
                    (write_mated reached index p))).
  { apply fold_left_kept. intros st' i Hin.
    apply list_elem_of_In, elem_of_seqZ in Hin.
    apply initialize_index_kept; lia. }
  rewrite (kept_entry_at _ _ _ K2).
  apply write_mated_entry.
  destruct Hh as (_ & _ & _ & Hl). unfold in_table in *. now rewrite Hl.
Qed.

Lemma create_tablebase_size :
  Z.of_nat (length (entries create_tablebase)) = 2 * 64 ^ 3.
Proof.
  unfold create_tablebase. cbn [entries]. rewrite length_replicate.
  rewrite Z2Nat.id by lia. reflexivity.
Qed.

Lemma initialization_marks_king_capture_witness :
  movecnt (entry_at (tb (initialize_tablebase (State create_tablebase [])))
             65408)
  = PTM_WINS_PROPAGATION_NEEDED
  /\ mate_in_cnt
       (entry_at (tb (initialize_tablebase (State create_tablebase [])))
          65408) = 0.
Proof.
  apply (initialization_marks_king_capture (State create_tablebase []) 65408
           (snd (index_to_position create_tablebase 65408))).
  - unfold in_table. cbn [tb]. rewrite create_tablebase_size. lia.
  - cbn [tb]. change (max_index create_tablebase) with 524287. lia.
  - reflexivity.
  - exists 2, 2, (Movement (bitvector 63) 63).
    repeat split; try (vm_compute; congruence).
Defined.

(** ** The position a propagation starts from *)

Lemma mobile_set_mobile_range p piece sq :
  (forall j, 0 <= mobile p j < 64) -> 0 <= sq < 64 ->
  forall j, 0 <= mobile (set_mobile p piece sq) j < 64.
Proof.
  intros Hp Hsq j.
  destruct (Nat.eq_dec (Z.to_nat piece) (Z.to_nat j)) as [E | E].
  - destruct (Nat.lt_ge_cases (Z.to_nat piece) (length (mobile_piece_position p)))
      as [L | G].
    + unfold mobile, set_mobile, zget; simpl.
      rewrite <- E, list_lookup_insert_eq by exact L. exact Hsq.
    + unfold mobile, set_mobile, zget; simpl.
      rewrite list_insert_ge by exact G. apply Hp.
  - rewrite mobile_set_mobile_ne by exact E. apply Hp.
Qed.

Lemma index_to_position_loop_range t pieces :
  forall index p b p',
    index_to_position_loop t pieces index p = (b, p') ->
    (forall j, 0 <= mobile p j < 64) ->
    forall j, 0 <= mobile p' j < 64.
Proof.
  induction pieces as [|piece pieces IH]; intros index p b p'.
  - simpl. intros [= <- <-]. auto.
  - cbn [index_to_position_loop]. destruct (negb _).
    + intros [= <- <-] Hp. apply mobile_set_mobile_range;
        [exact Hp | apply land_63_range].
    + intros H Hp. eapply IH; [exact H|].
      intros j.
      pose proof (mobile_set_mobile_range p piece (Z.land index 63) Hp
                    (land_63_range index) j) as R.
      destruct (zget 0 (mobile_piece_color t) piece =? WHITE); exact R.
Qed.

Lemma zero_position_range s j :
  0 <= mobile (set_side_to_move zero_position s) j < 64.
Proof.
  unfold mobile, zget, set_side_to_move, zero_position; simpl.
  destruct (Z.to_nat j) as [|[|[|[|[|[|[|[|n]]]]]]]]; simpl; lia.
Qed.

(** The position [index_to_position] leaves behind for the header of
    [create_tablebase], whether it succeeds or not: the side to move and
    the white king (mobile 0) come from the index, the white king's bit is
    on the board, and every cell of [mobile_piece_position] is a square. *)
Lemma parent_position_facts st index :
  kqk_header st ->
  let p := snd (index_to_position (tb st) index) in
  let a := Z.land (Z.shiftr index 1) 63 in
  side_to_move p = Z.land index 1
  /\ mobile p 0 = a
  /\ Z.testbit (board_vector p) a = true
  /\ (forall j, 0 <= mobile p j < 64)
  /\ length (mobile_piece_position p) = 8%nat.
Proof.
  intros [Hn Hc] p a. subst p. unfold index_to_position. rewrite Hn.
  change (seqZ 0 3) with (0 :: seqZ 1 (Z.of_nat 2)).
  cbn [index_to_position_loop]. fold a.
  cbn [board_vector set_mobile set_side_to_move zero_position white_vector
       black_vector side_to_move mobile_piece_position].
  rewrite Z.land_0_l, Z.lor_0_l, Hc. cbn [negb Z.eqb].
  change (zget 0 [WHITE; BLACK; WHITE; 0; 0; 0; 0; 0] 0 =? WHITE) with true.
  cbv iota.
  match goal with
  | |- context [index_to_position_loop ?t ?l ?i ?q] =>
    set (p1 := q);
    destruct (index_to_position_loop t l i p1) as [b p'] eqn:E
  end.
  cbn [snd].
  assert (R1 : forall j, 0 <= mobile p1 j < 64).
  { intros j.
    apply (mobile_set_mobile_range (set_side_to_move zero_position (Z.land index 1)) 0 a);
      [intros; apply zero_position_range | apply land_63_range]. }
  pose proof (index_to_position_loop_range _ _ _ _ _ _ E R1) as R.
  apply index_to_position_loop_spec in E; [|lia].
  destruct E as (Hs & Hl & Hm & Hb & _).
  split; [exact Hs|]. split.
  { rewrite Hm by lia.
    apply (mobile_set_mobile_eq (set_side_to_move zero_position (Z.land index 1)) 0 a).
    simpl. lia. }
  split.
  { apply Hb. subst p1. cbn [board_vector]. unfold bitvector.
    pose proof (land_63_range (Z.shiftr index 1)). fold a in H.
    rewrite Z.shiftl_spec by lia. replace (a - a) with 0 by lia. reflexivity. }
  split; [exact R|]. rewrite Hl. reflexivity.
Qed.

Lemma six_bits_63 (x : Z) :
  0 <= x < 64 -> (forall r, 0 <= r < 6 -> Z.testbit x r = true) -> x = 63.
Proof.
  intros Hx Hb. apply Z.bits_inj'. intros n Hn.
  destruct (Z.ltb_spec n 6).
  - rewrite Hb by lia. change 63 with (Z.ones 6).
    now rewrite Z.ones_spec_low by lia.
  - rewrite (testbit_above x 6) by (change (2 ^ 6) with 64; lia).
    change 63 with (Z.ones 6). now rewrite Z.ones_spec_high by lia.
Qed.

(** With the header of [create_tablebase], the index built for a
    predecessor position is never the all-ones index 2*64^3 - 1: a white
    move gives a white-to-move (even) index, and a black move puts the
    black king on a square other than the white king's. *)
Lemma child_index_not_last t parent piece s :
  num_mobiles t = 3 ->
  0 <= side_to_move parent < 2 ->
  (forall j, 0 <= mobile parent j < 64) ->
  length (mobile_piece_position parent) = 8%nat ->
  0 <= s < 64 ->
  (s = mobile parent 0 -> mobile parent 0 = 0) ->
  (side_to_move parent = WHITE -> piece = 1) ->
  position_to_index t
    (set_mobile
       (set_side_to_move parent
          (if side_to_move parent =? WHITE then BLACK else WHITE))
       piece s)
  <> 524287.
Proof.
  intros Hn Hside Hr Hlen Hs Hsa Hpc E.
  set (child := set_mobile _ piece s) in E.
  assert (Hcr : forall j, 0 <= mobile child j < 64).
  { subst child. apply mobile_set_mobile_range; [|exact Hs].
    intros j. apply Hr. }
  assert (Hcs : side_to_move child
                = if side_to_move parent =? WHITE then BLACK else WHITE)
    by reflexivity.
  destruct (position_to_index_bits t child) as [B0 Bj].
  { lia. } { intros; apply Hcr. }
  { rewrite Hcs. destruct (_ =? _); unfold BLACK, WHITE; lia. }
  rewrite E in B0, Bj.
  assert (Hones : forall k, 0 <= k < 19 -> Z.testbit 524287 k = true).
  { intros k Hk. change 524287 with (Z.ones 19). apply Z.ones_spec_low. lia. }
  destruct (Z.eqb_spec (side_to_move parent) WHITE) as [W | W].
  - specialize (Hpc W). subst piece.
    assert (Hbits : forall j, 0 <= j < 2 -> forall r, 0 <= r < 6 ->
                      Z.testbit (mobile child j) r = true).
    { intros j Hj r Hr6. specialize (Bj j r ltac:(lia) Hr6).
      rewrite Hones, Hn in Bj by lia.
      replace (1 + 6 * j + r <? 32) with true in Bj
        by (symmetry; apply Z.ltb_lt; lia).
      replace (j <? 3) with true in Bj by (symmetry; apply Z.ltb_lt; lia).
      simpl in Bj. congruence. }
    assert (H0 : mobile child 0 = 63)
      by (apply six_bits_63; [apply Hcr | apply Hbits; lia]).
    assert (H1 : mobile child 1 = 63)
      by (apply six_bits_63; [apply Hcr | apply Hbits; lia]).
    subst child.
    rewrite mobile_set_mobile_ne in H0 by (simpl; lia).
    rewrite mobile_set_mobile_eq in H1 by (simpl; lia).
    change (mobile (set_side_to_move parent BLACK) 0)
      with (mobile parent 0) in H0.
    specialize (Hsa ltac:(lia)). lia.
  - rewrite Hones in B0 by lia. rewrite Hcs in B0.
    unfold WHITE in B0. discriminate.
Qed.

(** ** Propagation leaves the entry at the last index alone *)

Lemma kqk_header_same st st' :
  same_header st st' -> kqk_header st -> kqk_header st'.
Proof.
  intros (Hn & _ & Hc & _) [Kn Kc]. split; congruence.
Qed.

Lemma fold_left_kept_inv {A : Type} (j : Z) (P : state -> Prop)
    (f : state -> A -> state) (l : list A) :
  (forall st st', P st -> same_header st st' -> P st') ->
  (forall st a, P st -> In a l -> kept j st (f st a)) ->
  forall st, P st -> kept j st (fold_left f l st).
Proof.
  intros HP. induction l as [|a l IH]; intros H st Hst; simpl;
    [apply kept_refl|].
  assert (K : kept j st (f st a)) by (apply H; [exact Hst | left; reflexivity]).
  eapply kept_trans; [exact K|].
  apply IH.
  - intros st' a' Hst' Hin. apply H; [exact Hst' | right; exact Hin].
  - eapply HP; [exact Hst | apply K].
Qed.

Lemma position_to_index_nonneg t pos : 0 <= position_to_index t pos.
Proof.
  unfold position_to_index.
  assert (G : forall l (acc : Z * Z),
            0 <= snd acc ->
            0 <= snd (fold_left
                        (fun (acc : Z * Z) (piece : Z) =>
                           let '(shift_count, index) := acc in
                           (shift_count + 6,
                            to_uint32
                              (Z.lor index
                                 (Z.shiftl (mobile pos piece) shift_count))))
                        l acc)).
  { induction l as [|x l IH]; intros [sc ix] H; simpl; [exact H|].
    apply IH. simpl. unfold to_uint32. apply Z.mod_pos_bound. lia. }
  apply G. simpl. unfold to_uint32. apply Z.mod_pos_bound. lia.
Qed.

Lemma propagate_one_kept j st parent_index parent piece m :
  0 <= j ->
  position_to_index (tb st)
    (set_mobile
       (set_side_to_move parent
          (if side_to_move parent =? WHITE then BLACK else WHITE))
       piece (square m)) <> j ->
  kept j st (propagate_one st parent_index parent piece m).
Proof.
  intros Hj Hne. unfold propagate_one. cbv zeta.
  pose proof (position_to_index_nonneg (tb st)
    (set_mobile
       (set_side_to_move parent
          (if side_to_move parent =? WHITE then BLACK else WHITE))
       piece (square m))) as Hnn.
  repeat match goal with
         | |- kept _ _ (if ?c then _ else _) => destruct c
         end;
    first [ apply kept_refl
          | now apply add_one_to_white_wins_kept
          | now apply add_one_to_black_wins_kept
          | now apply white_wins_kept
          | now apply black_wins_kept ].
Qed.

Section PropagationFrame.

(** The position the propagation starts from, with what
    [parent_position_facts] gives about it. *)
Variables (parent_index : Z) (parent : position).
Hypothesis Hside : 0 <= side_to_move parent < 2.
Hypothesis Hboard :
  Z.testbit (board_vector parent) (mobile parent 0) = true.
Hypothesis Hsquares : forall j, 0 <= mobile parent j < 64.
Hypothesis Hlen : length (mobile_piece_position parent) = 8%nat.

Lemma propagate_piece_kept st piece :
  kqk_header st -> 0 <= piece < 3 ->
  kept 524287 st (propagate_piece parent_index parent st piece).
Proof.
  intros Hk Hp. unfold propagate_piece.
  destruct (Z.eqb_spec (zget 0 (mobile_piece_color (tb st)) piece)
              (side_to_move parent)) as [C | C]; [apply kept_refl|].
  assert (Hpc : side_to_move parent = WHITE -> piece = 1).
  { intros W. destruct Hk as [_ Kc]. rewrite Kc, W in C.
    assert (D : piece = 0 \/ piece = 1 \/ piece = 2) by lia.
    destruct D as [-> | [-> | ->]];
      [exfalso; apply C; reflexivity | reflexivity
      | exfalso; apply C; reflexivity]. }
  apply (fold_left_kept_inv _ kqk_header).
  - intros s s' Ks Hs. eapply kqk_header_same; eassumption.
  - intros s dir Ks _. apply (fold_left_kept_inv _ kqk_header).
    + intros s1 s2 K1 H12. eapply kqk_header_same; eassumption.
    + intros s1 m K1 Hin. apply propagate_one_kept; [lia|].
      apply (traversed_cell_square _ _ _ _ (mobile parent 0)) in Hin;
        [|unfold NUM_SQUARES; apply Hsquares | exact Hboard].
      unfold NUM_SQUARES in Hin. destruct Hin as [Hsq Hsa].
      apply child_index_not_last; try assumption. apply K1.
    + exact Ks.
  - exact Hk.
Qed.

End PropagationFrame.

Lemma propagate_move_within_table_kept st parent_index mate_in_count :
  kqk_header st -> 0 <= parent_index -> parent_index <> 524287 ->
  kept 524287 st (propagate_move_within_table st parent_index mate_in_count).
Proof.
  intros Hk Hi Hne. unfold propagate_move_within_table. cbv zeta.
  match goal with
  | |- kept _ _ (fold_left _ _ (mark_propagated ?s _)) => set (st2 := s)
  end.
  assert (K2 : kept 524287 st st2).
  { subst st2.
    repeat match goal with
           | |- context [if ?c then _ else _] => destruct c
           end;
      repeat (eapply kept_trans; [|apply fprintf_kept]); apply kept_refl. }
  set (st3 := mark_propagated st2 parent_index).
  assert (K3 : kept 524287 st st3).
  { eapply kept_trans; [exact K2|]. apply mark_propagated_kept; lia. }
  assert (Hk3 : kqk_header st3)
    by (eapply kqk_header_same; [apply K3 | exact Hk]).
  eapply kept_trans; [exact K3|].
  destruct (parent_position_facts st3 parent_index Hk3)
    as (Fs & F0 & Fb & Fr & Fl).
  apply (fold_left_kept_inv _ kqk_header).
  - intros s s' Ks Hs. eapply kqk_header_same; eassumption.
  - intros s piece Ks Hin. apply list_elem_of_In, elem_of_seqZ in Hin.
    destruct Hk3 as [Hn3 _]. rewrite Hn3 in Hin.
    apply propagate_piece_kept; try assumption; try lia.
    + rewrite Fs. change 1 with (Z.ones 1). rewrite Z.land_ones by lia.
      apply Z.mod_pos_bound. reflexivity.
    + rewrite F0. exact Fb.
  - exact Hk3.
Qed.

(** A pass of the driver never touches the entry at the last index: its
    loop stops one index short of it, and no propagation writes there. *)
Lemma main_scan_kept moves_to_win l :
  (forall i, In i l -> 0 <= i /\ i <> 524287) ->
  forall st progress_made,
    kqk_header st ->
    kept 524287 st
      (fst (fold_left (main_scan_index moves_to_win) l (st, progress_made))).
Proof.
  induction l as [|i l IH]; intros Hl st pm Hk; cbn [fold_left];
    [apply kept_refl|].
  destruct (Hl i (or_introl eq_refl)) as [Hi Hne].
  assert (S : forall acc', acc' = main_scan_index moves_to_win (st, pm) i ->
            kept 524287 st (fst acc')).
  { intros acc' ->. unfold main_scan_index.
    destruct (_ && _); [|apply kept_refl]. cbn [fst].
    destruct (pm =? 0).
    - eapply kept_trans; [apply fprintf_kept|].
      apply propagate_move_within_table_kept; try assumption.
    - apply propagate_move_within_table_kept; assumption. }
  destruct (main_scan_index moves_to_win (st, pm) i) as [st' pm'] eqn:E.
  specialize (S _ eq_refl). cbn [fst] in S.
  eapply kept_trans; [exact S|].
  apply IH.
  - intros i' Hin. apply Hl. right. exact Hin.
  - eapply kqk_header_same; [apply S | exact Hk].
Qed.

Lemma main_pass_kept max_index_static moves_to_win st :
  kqk_header st -> max_index_static <= 524287 ->
  kept 524287 st (fst (main_pass max_index_static moves_to_win st)).
Proof.
  intros Hk Hm. unfold main_pass.
  pose proof (main_scan_kept moves_to_win (seqZ 0 max_index_static)) as K.
  destruct (fold_left _ _ _) as [st' pm] eqn:E. cbn [fst].
  eapply kept_trans; [|apply fprintf_kept].
  specialize (K ltac:(intros i Hin;
                      apply list_elem_of_In, elem_of_seqZ in Hin; lia)
                st 0 Hk).
  rewrite E in K. exact K.
Qed.

Lemma main_loop_kept max_index_static max_moves_to_win fuel :
  max_index_static <= 524287 ->
  forall st moves_to_win progress_made,
    kqk_header st ->
    kept 524287 st
      (fst (main_loop fuel max_index_static max_moves_to_win st
              moves_to_win progress_made)).
Proof.
  intros Hm. induction fuel as [|fuel IH]; intros st mtw pm Hk;
    cbn [main_loop]; destruct (_ || _); try apply kept_refl.
  pose proof (main_pass_kept max_index_static mtw st Hk Hm) as K.
  destruct (main_pass max_index_static mtw st) as [st' pm'].
  cbn [fst] in K. eapply kept_trans; [exact K|].
  apply IH. eapply kqk_header_same; [apply K | exact Hk].
Qed.

(** [initialize_tablebase] writes entries below [max_index] only. *)
Lemma initialize_tablebase_kept st j :
  max_index (tb st) <= j -> kept j st (initialize_tablebase st).
Proof.
  intros Hj. unfold initialize_tablebase. apply fold_left_kept.
  intros st' i Hin. apply list_elem_of_In, elem_of_seqZ in Hin.
  apply initialize_index_kept; lia.
Qed.

Lemma create_tablebase_last_entry :
  entries create_tablebase !! Z.to_nat 524287 = Some zero_entry.
Proof.
  unfold create_tablebase. cbn [entries]. apply lookup_replicate_2.
  apply Z2Nat.inj_lt; lia.
Qed.

Lemma max_index_kqk st : kqk_header st -> max_index (tb st) = 524287.
Proof. intros [Hn _]. unfold max_index. rewrite Hn. reflexivity. Qed.

Lemma verify_movements_kept j st : kept j st (verify_movements st).
Proof.
  unfold kept, same_header, verify_movements. cbn [tb]. repeat split.
Qed.

(** The state [main] reaches after any number of passes keeps the header
    and the last entry of the table as [create_tablebase] made them. *)
Lemma main_keeps_last_entry fuel :
  kept 524287 (State create_tablebase []) (fst (main fuel)).
Proof.
  unfold main. cbv zeta.
  pose proof (eq_refl : num_mobiles create_tablebase = 3) as Hn.
  pose proof (eq_refl : mobile_piece_color create_tablebase
                        = [WHITE; BLACK; WHITE; 0; 0; 0; 0; 0]) as Hc.
  revert Hn Hc. generalize create_tablebase. intros t Hn Hc.
  pose proof (verify_movements_kept 524287 (State t [])) as K0.
  set (st0 := verify_movements (State t [])) in *.
  assert (H0 : kqk_header st0)
    by (apply (kqk_header_same (State t [])); [apply K0 | split; assumption]).
  pose proof (max_index_kqk st0 H0) as M0.
  assert (K1 : kept 524287 st0 (initialize_tablebase st0))
    by (apply initialize_tablebase_kept; rewrite M0; lia).
  assert (H1 : kqk_header (initialize_tablebase st0))
    by (eapply kqk_header_same; [apply K1 | exact H0]).
  pose proof (max_index_kqk _ H1) as M1.
  eapply kept_trans; [exact K0|]. eapply kept_trans; [exact K1|].
  apply main_loop_kept; [rewrite M1; lia | exact H1].
Qed.

Lemma create_tablebase_kqk : kqk_header (State create_tablebase []).
Proof. split; reflexivity. Qed.

Lemma entry_at_last_zero st :
  kept 524287 (State create_tablebase []) st ->
  entry_at (tb st) 524287 = zero_entry.
Proof.
  intros K. rewrite (kept_entry_at _ _ _ K). unfold entry_at, zget.
  cbn [tb]. now rewrite create_tablebase_last_entry.
Qed.

(** C10: [initialize_tablebase] writes only entries whose index is below
    [max_index]; the loops of initialization and of the passes run over
    the indices 0 .. max_index - 1, which do not include [max_index]; and
    in the K+Q vs K build the entry at index [max_index] = 524287, inside
    the table, is still the zero-filled entry of [create_tablebase] after
    initialization and after any number of passes, with movecnt 0, which
    is PNTM_WINS_PROPAGATION_NEEDED. *)
Theorem last_index_never_written :
  (forall st j, max_index (tb st) <= j -> kept j st (initialize_tablebase st))
  /\ (forall max_index_static : Z,
        ~ In max_index_static (seqZ 0 max_index_static))
  /\ (let last := max_index create_tablebase in
      in_table create_tablebase last
      /\ entry_at (tb (initialize_tablebase (State create_tablebase []))) last
         = zero_entry
      /\ (forall fuel, entry_at (tb (fst (main fuel))) last = zero_entry)
      /\ movecnt zero_entry = PNTM_WINS_PROPAGATION_NEEDED).
Proof.
  split; [exact initialize_tablebase_kept|]. split.
  { intros m Hin. apply list_elem_of_In, elem_of_seqZ in Hin. lia. }
  change (max_index create_tablebase) with 524287. cbv zeta.
  split; [unfold in_table; rewrite create_tablebase_size; lia|].
  split; [|split; [|reflexivity]].
  - apply entry_at_last_zero. apply initialize_tablebase_kept.
    rewrite (max_index_kqk _ create_tablebase_kqk). lia.
  - intros fuel. apply entry_at_last_zero, main_keeps_last_entry.
Qed.

Lemma last_index_never_written_witness :
  kept 524287 (State create_tablebase [])
    (initialize_tablebase (State create_tablebase [])).
Proof.
  apply last_index_never_written.
  change (max_index (tb (State create_tablebase []))) with 524287. lia.
Defined.

(** ** Termination of the loop of [main]

    Every call of [propagate_move_within_table] made by a pass turns one
    more entry into a propagated one, and no operation of a pass turns a
    propagated entry back: the passes that make progress are at most as
    many as the table has entries. *)

Lemma count_propagated_le l : (count_propagated l <= length l)%nat.
Proof.
  induction l as [|e l IH]; simpl; [lia|]. destruct (propagated e); lia.
Qed.

Lemma count_propagated_alter_ge f i l :
  (forall e, l !! i = Some e -> propagated e = true -> propagated (f e) = true) ->
  (count_propagated l <= count_propagated (alter f i l))%nat.
Proof.
  revert i. induction l as [|e l IH]; intros i H; [simpl; lia|].
  destruct i as [|i]; simpl.
  - specialize (H e eq_refl). destruct (propagated e).
    + rewrite H by reflexivity. lia.
    + destruct (propagated (f e)); lia.
  - specialize (IH i (fun e' => H e')).
    change (list_alter f i l) with (alter f i l).
    destruct (propagated e); lia.
Qed.

Lemma count_propagated_alter_gt f i l e :
  l !! i = Some e -> propagated e = false -> propagated (f e) = true ->
  count_propagated (alter f i l) = S (count_propagated l).
Proof.
  revert i. induction l as [|e' l IH]; intros i Hl He Hf; [discriminate|].
  destruct i as [|i]; simpl in *.
  - injection Hl as ->. now rewrite He, Hf.
  - change (list_alter f i l) with (alter f i l).
    rewrite (IH i Hl He Hf). destruct (propagated e'); reflexivity.
Qed.

Lemma advanced_refl st : advanced st st.
Proof. split; [apply same_header_refl | lia]. Qed.

Lemma advanced_trans st1 st2 st3 :
  advanced st1 st2 -> advanced st2 st3 -> advanced st1 st3.
Proof.
  intros [h1 c1] [h2 c2]. split; [eapply same_header_trans; eassumption | lia].
Qed.

Lemma fprintf_advanced f a st : advanced st (fprintf f a st).
Proof. split; [repeat split | simpl; lia]. Qed.

Lemma entry_at_lookup t index e :
  entries t !! Z.to_nat index = Some e -> entry_at t index = e.
Proof. intros H. unfold entry_at, zget. now rewrite H. Qed.

(** A store into an entry that is not propagated. *)
Lemma store_advanced st index f :
  propagated (entry_at (tb st) index) = false ->
  advanced st (store st index f).
Proof.
  intros H. split; [apply store_same_header|].
  unfold store; cbn [tb entries]. apply count_propagated_alter_ge.
  intros e He Hp. rewrite (entry_at_lookup _ _ _ He) in H. congruence.
Qed.

Ltac bool_hyps :=
  repeat match goal with
         | H : (_ || _) = false |- _ =>
           apply orb_false_elim in H; destruct H
         | H : (_ && _) = true |- _ => apply andb_true_iff in H; destruct H
         | H : (_ =? _) = false |- _ => apply Z.eqb_neq in H
         | H : (_ =? _) = true |- _ => apply Z.eqb_eq in H
         | H : (_ <? _) = false |- _ => apply Z.ltb_ge in H
         end.

Lemma not_propagated e :
  movecnt e <> PTM_WINS_PROPAGATION_DONE ->
  movecnt e <> PNTM_WINS_PROPAGATION_DONE ->
  propagated e = false.
Proof.
  intros H1 H2. unfold propagated. apply orb_false_intro; now apply Z.eqb_neq.
Qed.

Ltac not_propagated_here :=
  rewrite ?fprintf_tb; bool_hyps; apply not_propagated;
  unfold PTM_WINS_PROPAGATION_DONE, PNTM_WINS_PROPAGATION_DONE,
    PTM_WINS_PROPAGATION_NEEDED, PNTM_WINS_PROPAGATION_NEEDED,
    MAX_MOVECNT in *; lia.

Ltac advanced_cases :=
  cbv zeta; rewrite ?fprintf_tb;
  repeat match goal with
         | |- advanced _ (if ?c then _ else _) => destruct c eqn:?
         end;
  match goal with
  | |- advanced ?s ?s => apply advanced_refl
  | |- advanced ?s (fprintf _ _ ?s) => apply fprintf_advanced
  | |- advanced ?s (fprintf _ _ (fprintf ?f ?a ?s)) =>
    apply (advanced_trans _ (fprintf f a s)); apply fprintf_advanced
  | |- advanced ?s (store ?s _ _) =>
    apply store_advanced; not_propagated_here
  | |- advanced ?s (store (fprintf ?f ?a ?s) _ _) =>
    apply (advanced_trans _ (fprintf f a s));
    [apply fprintf_advanced | apply store_advanced; not_propagated_here]
  end.

Lemma white_wins_advanced st index m sc :
  advanced st (white_wins st index m sc).
Proof. unfold white_wins. advanced_cases. Qed.

Lemma black_wins_advanced st index m sc :
  advanced st (black_wins st index m sc).
Proof. unfold black_wins. advanced_cases. Qed.

Lemma add_one_to_white_wins_advanced st index m sc :
  advanced st (add_one_to_white_wins st index m sc).
Proof.
  unfold add_one_to_white_wins. cbv zeta.
  destruct (WHITE_TO_MOVE index); [apply fprintf_advanced|].
  match goal with
  | |- advanced _ (if ?c then _ else _) => destruct c eqn:E1
  end; [apply advanced_refl|].
  match goal with
  | |- advanced _ (if ?c then _ else _) => destruct c eqn:E2
  end; [apply fprintf_advanced|].
  assert (P : propagated (entry_at (tb st) index) = false)
    by not_propagated_here.
  match goal with
  | |- advanced _ (store (if ?c then _ else _) _ _) => destruct c
  end;
    [eapply advanced_trans; [apply fprintf_advanced|]|];
    now apply store_advanced.
Qed.

Lemma add_one_to_black_wins_advanced st index m sc :
  advanced st (add_one_to_black_wins st index m sc).
Proof.
  unfold add_one_to_black_wins. cbv zeta.
  destruct (BLACK_TO_MOVE index); [apply fprintf_advanced|].
  match goal with
  | |- advanced _ (if ?c then _ else _) => destruct c eqn:E1
  end; [apply advanced_refl|].
  match goal with
  | |- advanced _ (if ?c then _ else _) => destruct c eqn:E2
  end; [apply fprintf_advanced|].
  assert (P : propagated (entry_at (tb st) index) = false)
    by not_propagated_here.
  match goal with
  | |- advanced _ (store (if ?c then _ else _) _ _) => destruct c
  end;
    [eapply advanced_trans; [apply fprintf_advanced|]|];
    now apply store_advanced.
Qed.

Lemma fold_left_advanced {A : Type} (f : state -> A -> state) (l : list A) :
  (forall st a, advanced st (f st a)) ->
  forall st, advanced st (fold_left f l st).
Proof.
  intros H. induction l as [|a l IH]; intros st; simpl;
    [apply advanced_refl|].
  eapply advanced_trans; [apply H | apply IH].
Qed.

(** [mark_propagated] on an entry of the table that needs propagation
    makes one more propagated entry. *)
Lemma mark_propagated_advanced st index :
  advanced st (mark_propagated st index)
  /\ (in_table (tb st) index ->
      needs_propagation (tb st) index = true ->
      count_propagated (entries (tb (mark_propagated st index)))
      = S (count_propagated (entries (tb st)))).
Proof.
  unfold mark_propagated, needs_propagation.
  destruct (Z.eqb_spec (movecnt (entry_at (tb st) index))
              PTM_WINS_PROPAGATION_NEEDED) as [E | E].
  - assert (P : propagated (entry_at (tb st) index) = false)
      by (unfold propagated; rewrite E; reflexivity).
    split; [now apply store_advanced|]. intros Hr _.
    destruct (lookup_lt_is_Some_2 (entries (tb st)) (Z.to_nat index))
      as [e He]; [unfold in_table in Hr; lia|].
    rewrite (entry_at_lookup _ _ _ He) in P.
    unfold store; cbn [tb entries].
    now apply (count_propagated_alter_gt _ _ _ e).
  - destruct (Z.eqb_spec (movecnt (entry_at (tb st) index))
                PNTM_WINS_PROPAGATION_NEEDED) as [E0 | E0].
    + assert (P : propagated (entry_at (tb st) index) = false)
        by (unfold propagated; rewrite E0; reflexivity).
      split; [now apply store_advanced|]. intros Hr _.
      destruct (lookup_lt_is_Some_2 (entries (tb st)) (Z.to_nat index))
        as [e He]; [unfold in_table in Hr; lia|].
      rewrite (entry_at_lookup _ _ _ He) in P.
      unfold store; cbn [tb entries].
      now apply (count_propagated_alter_gt _ _ _ e).
    + split; [apply fprintf_advanced|]. intros _ H. discriminate.
Qed.

Lemma propagate_one_advanced st parent_index parent piece m :
  advanced st (propagate_one st parent_index parent piece m).
Proof.
  unfold propagate_one. cbv zeta.
  repeat match goal with
         | |- advanced _ (if ?c then _ else _) => destruct c
         end;
    first [ apply advanced_refl
          | apply add_one_to_white_wins_advanced
          | apply add_one_to_black_wins_advanced
          | apply white_wins_advanced
          | apply black_wins_advanced ].
Qed.

Lemma propagate_piece_advanced parent_index parent st piece :
  advanced st (propagate_piece parent_index parent st piece).
Proof.
  unfold propagate_piece. destruct (_ =? _); [apply advanced_refl|].
  apply fold_left_advanced. intros s dir.
  apply fold_left_advanced. intros s1 m. apply propagate_one_advanced.
Qed.

(** A propagation from an entry of the table that needs it leaves one
    more propagated entry, at least. *)
Lemma propagate_move_within_table_advanced st parent_index mate_in_count :
  in_table (tb st) parent_index ->
  needs_propagation (tb st) parent_index = true ->
  same_header st (propagate_move_within_table st parent_index mate_in_count)
  /\ (S (count_propagated (entries (tb st)))
      <= count_propagated
           (entries (tb (propagate_move_within_table st parent_index
                           mate_in_count))))%nat.
Proof.
  intros Hr Hn. unfold propagate_move_within_table. cbv zeta.
  match goal with
  | |- context [fold_left _ _ (mark_propagated ?s _)] => set (st2 := s)
  end.
  assert (T2 : tb st2 = tb st).
  { subst st2.
    repeat match goal with
           | |- context [if ?c then _ else _] => destruct c
           end; reflexivity. }
  destruct (mark_propagated_advanced st2 parent_index) as [[H3 _] C3].
  rewrite T2 in C3. specialize (C3 Hr Hn).
  set (st3 := mark_propagated st2 parent_index) in *.
  pose proof (fold_left_advanced
                (propagate_piece parent_index
                   (snd (index_to_position (tb st3) parent_index)))
                (seqZ 0 (num_mobiles (tb st3)))
                (fun s a => propagate_piece_advanced _ _ s a) st3) as [H4 C4].
  split.
  - eapply same_header_trans; [|exact H4].
    unfold same_header in *. rewrite T2 in H3. exact H3.
  - lia.
Qed.

(** A pass propagates [progress_made] entries: that many more entries, at
    least, are propagated once it ends. *)
Lemma main_scan_progress moves_to_win l :
  forall st progress_made,
    (forall i, In i l -> in_table (tb st) i) ->
    let r := fold_left (main_scan_index moves_to_win) l (st, progress_made) in
    same_header st (fst r)
    /\ progress_made <= snd r
    /\ Z.of_nat (count_propagated (entries (tb st))) + (snd r - progress_made)
       <= Z.of_nat (count_propagated (entries (tb (fst r)))).
Proof.
  induction l as [|i l IH]; intros st pm Hl; cbn [fold_left]; cbv zeta.
  - cbn [fst snd]. split; [apply same_header_refl|]. lia.
  - assert (S1 : exists st1 pm1,
               main_scan_index moves_to_win (st, pm) i = (st1, pm1)
               /\ same_header st st1 /\ pm <= pm1
               /\ Z.of_nat (count_propagated (entries (tb st))) + (pm1 - pm)
                  <= Z.of_nat (count_propagated (entries (tb st1)))).
    { unfold main_scan_index.
      destruct (needs_propagation (tb st) i) eqn:N; cbn [andb];
        [destruct (_ =? moves_to_win)|].
      - eexists _, _. split; [reflexivity|].
        set (st0 := if pm =? 0 then _ else st).
        assert (T0 : tb st0 = tb st) by (subst st0; destruct (pm =? 0); reflexivity).
        destruct (propagate_move_within_table_advanced st0 i moves_to_win)
          as [H C].
        + rewrite T0. apply Hl. left. reflexivity.
        + rewrite T0. exact N.
        + rewrite T0 in C. split; [|lia].
          unfold same_header in *. rewrite T0 in H. exact H.
      - eexists _, _. split; [reflexivity|].
        split; [apply same_header_refl|]. lia.
      - eexists _, _. split; [reflexivity|].
        split; [apply same_header_refl|]. lia. }
    destruct S1 as (st1 & pm1 & -> & H1 & P1 & C1).
    destruct (IH st1 pm1) as (H2 & P2 & C2).
    { intros i' Hin. destruct H1 as (_ & _ & _ & Hlen).
      unfold in_table. rewrite Hlen. apply Hl. right. exact Hin. }
    cbv zeta in H2, P2, C2.
    split; [eapply same_header_trans; eassumption|]. lia.
Qed.

Lemma main_pass_progress max_index_static moves_to_win st :
  max_index_static <= Z.of_nat (length (entries (tb st))) ->
  let r := main_pass max_index_static moves_to_win st in
  same_header st (fst r)
  /\ 0 <= snd r
  /\ Z.of_nat (count_propagated (entries (tb st))) + snd r
     <= Z.of_nat (count_propagated (entries (tb (fst r)))).
Proof.
  intros Hm. unfold main_pass.
  pose proof (main_scan_progress moves_to_win (seqZ 0 max_index_static) st 0) as P.
  cbv zeta in P.
  destruct (fold_left _ _ _) as [st' pm]. cbn [fst snd] in *.
  destruct P as (H & P0 & C).
  { intros i Hin. apply list_elem_of_In, elem_of_seqZ in Hin.
    unfold in_table. lia. }
  split; [exact H|]. split; [lia|]. cbn [tb fprintf]. lia.
Qed.

(** The loop of [main] ends: within the number of entries not yet
    propagated, plus the passes [max_moves_to_win] asks for, plus one. *)
Lemma main_loop_terminates max_index_static max_moves_to_win (fuel : nat) :
  forall st moves_to_win progress_made,
    max_index_static <= Z.of_nat (length (entries (tb st))) ->
    (negb (progress_made =? 0) || (moves_to_win <? max_moves_to_win) = false
     \/ Z.of_nat (length (entries (tb st)))
        - Z.of_nat (count_propagated (entries (tb st)))
        + Z.max 0 (max_moves_to_win - moves_to_win) + 1
        <= Z.of_nat fuel) ->
    snd (main_loop fuel max_index_static max_moves_to_win st
           moves_to_win progress_made) = true.
Proof.
  induction fuel as [|fuel IH]; intros st mtw pm Hm Hb; cbn [main_loop];
    destruct (negb (pm =? 0) || (mtw <? max_moves_to_win)) eqn:C;
    try reflexivity.
  - destruct Hb as [Hb | Hb]; [discriminate|].
    pose proof (count_propagated_le (entries (tb st))). lia.
  - destruct Hb as [Hb | Hb]; [discriminate|].
    pose proof (main_pass_progress max_index_static mtw st Hm) as P.
    cbv zeta in P.
    destruct (main_pass max_index_static mtw st) as [st' pm'].
    cbn [fst snd] in P. destruct P as ((_ & _ & _ & Hlen) & P0 & P1).
    apply IH; [rewrite Hlen; exact Hm|].
    rewrite Hlen.
    destruct (Z.eqb_spec pm' 0) as [-> | Hpm]; cbn [negb orb].
    + destruct (Z.ltb_spec (mtw + 1) max_moves_to_win); [right; lia | now left].
    + right. lia.
Qed.

(** [main] terminates: some number of passes ends its loop. *)
Lemma main_terminates : exists fuel : nat, snd (main fuel) = true.
Proof.
  exists (Z.to_nat (2 * 64 ^ 3 + 3)). unfold main. cbv zeta.
  pose proof create_tablebase_kqk as K. pose proof create_tablebase_size as L.
  change (entries create_tablebase)
    with (entries (tb (State create_tablebase []))) in L.
  revert K L. generalize (State create_tablebase []). intros s K L.
  pose proof (verify_movements_kept 0 s) as [H0 _].
  pose proof (initialize_tablebase_kept (verify_movements s)
                (max_index (tb (verify_movements s))) ltac:(lia)) as [H1 _].
  pose proof (same_header_trans _ _ _ H0 H1) as H.
  pose proof (kqk_header_same _ _ H K) as K1.
  assert (L1 : Z.of_nat (length (entries
                 (tb (initialize_tablebase (verify_movements s)))))
               = 2 * 64 ^ 3).
  { destruct H as (_ & _ & _ & ->). exact L. }
  apply main_loop_terminates.
  - rewrite (max_index_kqk _ K1), L1. lia.
  - right. rewrite L1, Z2Nat.id by lia.
    pose proof (Z.le_max_l 0 (1 - 0)). change (Z.max 0 (1 - 0)) with 1. lia.
Qed.

(** C2 fails on the code: the loop of [main] ends, and however many passes
    it has run, the state it has reached holds, at the index
    [max_index] = 2*64^3 - 1 of the table, an entry whose movecnt is
    PNTM_WINS_PROPAGATION_NEEDED: the entry still needs propagation. *)
Theorem build_leaves_last_entry_pending :
  (exists fuel : nat, snd (main fuel) = true)
  /\ (forall fuel : nat,
        let st := fst (main fuel) in
        let last := max_index (tb st) in
        last = 2 * 64 ^ 3 - 1
        /\ in_table (tb st) last
        /\ movecnt (entry_at (tb st) last) = PNTM_WINS_PROPAGATION_NEEDED
        /\ needs_propagation (tb st) last = true).
Proof.
  split; [exact main_terminates|]. intros fuel. cbv zeta.
  pose proof (main_keeps_last_entry fuel) as K.
  assert (Hk : kqk_header (fst (main fuel)))
    by (eapply kqk_header_same; [apply K | exact create_tablebase_kqk]).
  rewrite (max_index_kqk _ Hk).
  pose proof (entry_at_last_zero _ K) as E.
  split; [reflexivity|]. split.
  - eapply kept_in_table; [exact K|].
    unfold in_table. cbn [tb]. rewrite create_tablebase_size. lia.
  - unfold needs_propagation. rewrite E. split; reflexivity.
Qed.

(** * Further properties of the entry operations *)

Lemma in_table_lookup t index :
  in_table t index ->
  exists e, entries t !! Z.to_nat index = Some e /\ entry_at t index = e.
Proof.
  intros Hr.
  destruct (lookup_lt_is_Some_2 (entries t) (Z.to_nat index)) as [e He];
    [unfold in_table in Hr; lia|].
  exists e. split; [exact He | now apply entry_at_lookup].
Qed.

(** X1: on an entry of the table that needs propagation, [mark_propagated]
    turns it into the propagated entry of the same verdict: it no longer
    needs propagation, the side that wins, the mate-in count and the
    stalemate count read as before, and nothing is printed.  On any other
    entry it leaves the tablebase as it is and prints its diagnostic. *)
Theorem mark_propagated_verdict (st : state) (index : Z) :
  in_table (tb st) index ->
  let st' := mark_propagated st index in
  (needs_propagation (tb st) index = true ->
   needs_propagation (tb st') index = false
   /\ propagated (entry_at (tb st') index) = true
   /\ does_white_win (tb st') index = does_white_win (tb st) index
   /\ does_black_win (tb st') index = does_black_win (tb st) index
   /\ get_mate_in_count (tb st') index = get_mate_in_count (tb st) index
   /\ get_stalemate_count (tb st') index = get_stalemate_count (tb st) index
   /\ stderr st' = stderr st)
  /\ (needs_propagation (tb st) index = false ->
      tb st' = tb st
      /\ stderr st'
         = stderr st
           ++ [Diag "Propagation attempt on a completed or unresolved position\n" []]).
Proof.
  intros Hr st'. subst st'. unfold mark_propagated, needs_propagation.
  destruct (Z.eqb_spec (movecnt (entry_at (tb st) index))
              PTM_WINS_PROPAGATION_NEEDED) as [E | E].
  - split; [intros _ | discriminate].
    unfold does_white_win, does_black_win, get_mate_in_count,
      get_stalemate_count, propagated.
    rewrite entry_at_store by exact Hr.
    cbn [set_movecnt movecnt mate_in_cnt stalemate_cnt]. rewrite E.
    repeat split; destruct (WHITE_TO_MOVE index), (BLACK_TO_MOVE index);
      reflexivity.
  - destruct (Z.eqb_spec (movecnt (entry_at (tb st) index))
                PNTM_WINS_PROPAGATION_NEEDED) as [E0 | E0].
    + split; [intros _ | discriminate].
      unfold does_white_win, does_black_win, get_mate_in_count,
        get_stalemate_count, propagated.
      rewrite entry_at_store by exact Hr.
      cbn [set_movecnt movecnt mate_in_cnt stalemate_cnt]. rewrite E0.
      repeat split; destruct (WHITE_TO_MOVE index), (BLACK_TO_MOVE index);
        reflexivity.
    + split; [discriminate|]. intros _. split; reflexivity.
Qed.

Lemma mark_propagated_verdict_witness :
  needs_propagation (tb (mark_propagated sample_won 1)) 1 = false
  /\ propagated (entry_at (tb (mark_propagated sample_won 1)) 1) = true
  /\ does_black_win (tb (mark_propagated sample_won 1)) 1
     = does_black_win (tb sample_won) 1.
Proof.
  assert (R : in_table (tb sample_won) 1) by (unfold in_table; simpl; lia).
  destruct (mark_propagated_verdict sample_won 1 R) as [H _].
  destruct (H eq_refl) as (a & b & _ & d & _).
  repeat split; assumption.
Defined.

(** X2: at an index of the table where the other side has not won,
    [white_wins] makes [does_white_win] true, and [black_wins] makes
    [does_black_win] true.  When the entry recorded no win before (a
    pending counter, or an ILLEGAL entry, which is not protected), the
    entry then needs propagation and reads the given mate-in and stalemate
    counts (as unsigned chars). *)
Theorem wins_record_verdict (st : state)
    (index mate_in_count stalemate_count : Z) :
  in_table (tb st) index ->
  let w := white_wins st index mate_in_count stalemate_count in
  let b := black_wins st index mate_in_count stalemate_count in
  (does_black_win (tb st) index = false ->
   does_white_win (tb w) index = true
   /\ (does_white_win (tb st) index = false ->
       needs_propagation (tb w) index = true
       /\ get_mate_in_count (tb w) index = to_uchar mate_in_count
       /\ get_stalemate_count (tb w) index = to_uchar stalemate_count))
  /\ (does_white_win (tb st) index = false ->
      does_black_win (tb b) index = true
      /\ (does_black_win (tb st) index = false ->
          needs_propagation (tb b) index = true
          /\ get_mate_in_count (tb b) index = to_uchar mate_in_count
          /\ get_stalemate_count (tb b) index = to_uchar stalemate_count)).
Proof.
  intros Hr w b. subst w b.
  unfold white_wins, black_wins, does_white_win, does_black_win,
    needs_propagation, get_mate_in_count, get_stalemate_count.
  destruct (side_to_move_cases index) as [[-> ->] | [-> ->]];
    cbv zeta; rewrite ?fprintf_tb;
    destruct ((movecnt (entry_at (tb st) index) =? PTM_WINS_PROPAGATION_NEEDED)
              || (movecnt (entry_at (tb st) index) =? PTM_WINS_PROPAGATION_DONE))
      eqn:P;
    destruct ((movecnt (entry_at (tb st) index) =? PNTM_WINS_PROPAGATION_NEEDED)
              || (movecnt (entry_at (tb st) index) =? PNTM_WINS_PROPAGATION_DONE))
      eqn:N;
    (split; intros H1; try discriminate H1);
    try (destruct (_ <? _); rewrite ?fprintf_tb);
    rewrite ?P, ?N;
    try (split; [reflexivity | intros H2; discriminate H2]);
    try (change (fprintf ?f ?a st) with (State (tb st) (stderr st ++ [Diag f a])));
    rewrite ?entry_at_store by exact Hr;
    (split; [reflexivity | intros _; repeat split]).
Qed.

Lemma wins_record_verdict_witness :
  does_white_win (tb (white_wins sample_illegal 0 3 4)) 0 = true
  /\ needs_propagation (tb (white_wins sample_illegal 0 3 4)) 0 = true
  /\ does_black_win (tb (black_wins sample_illegal 1 3 4)) 1 = true.
Proof.
  assert (R0 : in_table (tb sample_illegal) 0) by (unfold in_table; simpl; lia).
  assert (R1 : in_table (tb sample_illegal) 1) by (unfold in_table; simpl; lia).
  destruct (wins_record_verdict sample_illegal 0 3 4 R0) as [W _].
  destruct (wins_record_verdict sample_illegal 1 3 4 R1) as [_ B].
  destruct (W eq_refl) as [W1 W2]. destruct (W2 eq_refl) as [W3 _].
  destruct (B eq_refl) as [B1 _].
  repeat split; assumption.
Defined.

(** X3: [add_one_to_white_wins] changes the tablebase only at a
    black-to-move index whose movecnt is a pending counter: at a
    white-to-move index, or on an entry whose movecnt is 0 or above
    [MAX_MOVECNT] (a recorded win, or an ILLEGAL entry), it returns the
    tablebase as it is; the same for [add_one_to_black_wins] with the
    sides exchanged. *)
Theorem add_one_leaves_decided (st : state)
    (index mate_in_count stalemate_count : Z) :
  (WHITE_TO_MOVE index = true
   \/ movecnt (entry_at (tb st) index) = 0
   \/ MAX_MOVECNT < movecnt (entry_at (tb st) index) ->
   tb (add_one_to_white_wins st index mate_in_count stalemate_count) = tb st)
  /\ (BLACK_TO_MOVE index = true
      \/ movecnt (entry_at (tb st) index) = 0
      \/ MAX_MOVECNT < movecnt (entry_at (tb st) index) ->
      tb (add_one_to_black_wins st index mate_in_count stalemate_count) = tb st).
Proof.
  unfold add_one_to_white_wins, add_one_to_black_wins.
  split; intros H.
  - destruct (WHITE_TO_MOVE index); [reflexivity|].
    destruct (_ || _); [reflexivity|].
    destruct H as [H | H]; [discriminate|].
    replace ((movecnt (entry_at (tb st) index) =? 0)
             || (MAX_MOVECNT <? movecnt (entry_at (tb st) index))) with true;
      [reflexivity|].
    symmetry. apply orb_true_iff. destruct H as [H | H];
      [left; now apply Z.eqb_eq | right; now apply Z.ltb_lt].
  - destruct (BLACK_TO_MOVE index); [reflexivity|].
    destruct (_ || _); [reflexivity|].
    destruct H as [H | H]; [discriminate|].
    replace ((movecnt (entry_at (tb st) index) =? 0)
             || (MAX_MOVECNT <? movecnt (entry_at (tb st) index))) with true;
      [reflexivity|].
    symmetry. apply orb_true_iff. destruct H as [H | H];
      [left; now apply Z.eqb_eq | right; now apply Z.ltb_lt].
Qed.

Lemma add_one_leaves_decided_witness :
  tb (add_one_to_white_wins sample_illegal 1 3 4) = tb sample_illegal
  /\ tb (add_one_to_black_wins sample_won 2 3 4) = tb sample_won.
Proof.
  split.
  - apply (add_one_leaves_decided sample_illegal 1 3 4).
    right; right. vm_compute. reflexivity.
  - apply (add_one_leaves_decided sample_won 2 3 4).
    right; right. vm_compute. reflexivity.
Defined.

(** X4: where [add_one_to_white_wins] and [add_one_to_black_wins] count
    down (an index of the table with the other side to move and a pending
    counter), the stalemate count they leave is the minimum of the
    recorded one and the [stalemate_count] argument, for an argument that
    fits an unsigned char. *)
Theorem add_one_keeps_least_stalemate_cnt (st : state)
    (index mate_in_count stalemate_count : Z) :
  in_table (tb st) index ->
  1 <= movecnt (entry_at (tb st) index) <= MAX_MOVECNT ->
  0 <= stalemate_count < 256 ->
  (BLACK_TO_MOVE index = true ->
   stalemate_cnt
     (entry_at
        (tb (add_one_to_white_wins st index mate_in_count stalemate_count))
        index)
   = Z.min (stalemate_cnt (entry_at (tb st) index)) stalemate_count)
  /\ (WHITE_TO_MOVE index = true ->
      stalemate_cnt
        (entry_at
           (tb (add_one_to_black_wins st index mate_in_count stalemate_count))
           index)
      = Z.min (stalemate_cnt (entry_at (tb st) index)) stalemate_count).
Proof.
  intros Hr Hp Hs.
  assert (G : stalemate_cnt
                (count_down mate_in_count stalemate_count
                   (entry_at (tb st) index))
              = Z.min (stalemate_cnt (entry_at (tb st) index)) stalemate_count).
  { unfold count_down, set_stalemate_cnt, set_mate_in_cnt, set_movecnt.
    simpl.
    destruct (Z.ltb_spec stalemate_count
                (stalemate_cnt (entry_at (tb st) index))); simpl.
    - unfold to_uchar. rewrite Z.mod_small by lia. lia.
    - lia. }
  split; intros Hside.
  - rewrite add_one_to_white_wins_pending, entry_at_store by assumption.
    exact G.
  - rewrite add_one_to_black_wins_pending, entry_at_store by assumption.
    exact G.
Qed.

Lemma add_one_keeps_least_stalemate_cnt_witness :
  stalemate_cnt (entry_at (tb (add_one_to_white_wins sample_illegal 3 3 60)) 3)
  = Z.min (stalemate_cnt (entry_at (tb sample_illegal) 3)) 60
  /\ stalemate_cnt
       (entry_at (tb (add_one_to_black_wins sample_illegal 2 3 60)) 2)
     = Z.min (stalemate_cnt (entry_at (tb sample_illegal) 2)) 60.
Proof.
  destruct (add_one_keeps_least_stalemate_cnt sample_illegal 3 3 60)
    as [W _];
    [unfold in_table; simpl; lia | vm_compute; split; discriminate | lia|].
  destruct (add_one_keeps_least_stalemate_cnt sample_illegal 2 3 60)
    as [_ B];
    [unfold in_table; simpl; lia | vm_compute; split; discriminate | lia|].
  split; [exact (W eq_refl) | exact (B eq_refl)].
Defined.

(** X5: [does_white_win] and [does_black_win] are never both true, and one
    of them is true exactly when movecnt is one of the four win values.
    [get_mate_in_count] is -1 exactly on a pending counter (1..251): on an
    ILLEGAL entry it returns the stored mate-in count, not -1, although
    neither side wins there. *)
Theorem verdict_readers (t : tablebase) (index : Z) :
  entry_bytes (entry_at t index) ->
  (does_white_win t index && does_black_win t index = false)
  /\ (does_white_win t index || does_black_win t index = true
      <-> records_win (entry_at t index))
  /\ (get_mate_in_count t index = -1
      <-> 1 <= movecnt (entry_at t index) <= MAX_MOVECNT)
  /\ (movecnt (entry_at t index) = ILLEGAL_POSITION ->
      does_white_win t index || does_black_win t index = false
      /\ get_mate_in_count t index = mate_in_cnt (entry_at t index)
      /\ get_mate_in_count t index <> -1).
Proof.
  intros (Hm & Hi & Hs).
  unfold does_white_win, does_black_win, get_mate_in_count, records_win,
    PTM_WINS_PROPAGATION_NEEDED, PTM_WINS_PROPAGATION_DONE,
    PNTM_WINS_PROPAGATION_NEEDED, PNTM_WINS_PROPAGATION_DONE,
    MAX_MOVECNT, ILLEGAL_POSITION.
  set (mc := movecnt (entry_at t index)) in *.
  destruct (side_to_move_cases index) as [[-> ->] | [-> ->]];
    destruct (Z.eqb_spec mc 252), (Z.eqb_spec mc 254), (Z.eqb_spec mc 0),
      (Z.eqb_spec mc 253), (Z.leb_spec 1 mc), (Z.leb_spec mc 251);
    cbn [andb orb]; repeat split; intros; try lia; try tauto;
    try discriminate.
Qed.

Lemma verdict_readers_witness :
  get_mate_in_count (tb sample_illegal) 0 <> -1
  /\ does_white_win (tb sample_illegal) 0
     || does_black_win (tb sample_illegal) 0 = false.
Proof.
  destruct (verdict_readers (tb sample_illegal) 0) as (_ & _ & _ & H).
  - vm_compute. repeat split; discriminate.
  - destruct (H eq_refl) as (a & _ & c). split; assumption.
Defined.

(** * Further properties of the position codec *)

Lemma testbit_bitvector (s x : Z) :
  0 <= s -> Z.testbit (bitvector s) x = (s =? x).
Proof.
  intros Hs. unfold bitvector. rewrite Z.shiftl_1_l.
  apply Z.pow2_bits_eqb. exact Hs.
Qed.

Lemma land_bitvector_zero (b s : Z) :
  0 <= s -> (Z.land b (bitvector s) = 0 <-> Z.testbit b s = false).
Proof.
  intros Hs. split.
  - intros H.
    assert (T : Z.testbit (Z.land b (bitvector s)) s = false)
      by (rewrite H; apply Z.bits_0).
    rewrite Z.land_spec, testbit_bitvector, Z.eqb_refl, andb_true_r in T
      by exact Hs.
    exact T.
  - intros H. apply Z.bits_inj'. intros x _.
    rewrite Z.land_spec, testbit_bitvector, Z.bits_0 by exact Hs.
    destruct (Z.eqb_spec s x) as [<- | _];
      [rewrite H; reflexivity | apply andb_false_r].
Qed.

(** The loop of [index_to_position] succeeds exactly when none of the
    squares it reads from the index is on the board already, and no two of
    them are the same. *)
Lemma index_to_position_loop_success t (c : nat) :
  forall k index p,
    fst (index_to_position_loop t (seqZ k (Z.of_nat c)) index p) = true
    <-> (forall j, 0 <= j < Z.of_nat c ->
           Z.testbit (board_vector p)
             (Z.land (Z.shiftr index (6 * j)) 63) = false)
        /\ (forall j j', 0 <= j < j' -> j' < Z.of_nat c ->
              Z.land (Z.shiftr index (6 * j)) 63
              <> Z.land (Z.shiftr index (6 * j')) 63).
Proof.
  induction c as [|c IH]; intros k index p.
  - simpl. split; [intros _; split; intros; lia | reflexivity].
  - rewrite seqZ_cons by lia.
    replace (Z.pred (Z.of_nat (S c))) with (Z.of_nat c) by lia.
    cbn [index_to_position_loop]. cbn [board_vector set_mobile].
    set (sq := Z.land index 63).
    assert (Hsq : 0 <= sq) by (subst sq; pose proof (land_63_range index); lia).
    assert (S0 : Z.land (Z.shiftr index (6 * 0)) 63 = sq)
      by (subst sq; now rewrite Z.shiftr_0_r).
    assert (Sj : forall j, 0 <= j ->
              Z.land (Z.shiftr (Z.shiftr index 6) (6 * j)) 63
              = Z.land (Z.shiftr index (6 * (j + 1))) 63).
    { intros j Hj. rewrite Z.shiftr_shiftr by lia. do 2 f_equal. lia. }
    destruct (Z.eqb_spec (Z.land (board_vector p) (bitvector sq)) 0)
      as [E | E]; cbn [negb].
    + apply land_bitvector_zero in E; [|exact Hsq].
      match goal with
      | |- context [index_to_position_loop t _ _ ?q] => set (p1 := q)
      end.
      assert (Hb : board_vector p1 = Z.lor (board_vector p) (bitvector sq))
        by (subst p1; destruct (zget 0 (mobile_piece_color t) k =? WHITE);
            reflexivity).
      rewrite IH. split.
      * intros [H1 H2]. split.
        -- intros j Hj. destruct (Z.eq_dec j 0) as [-> | Hj0];
             [rewrite S0; exact E|].
           specialize (H1 (j - 1) ltac:(lia)).
           rewrite Sj, Hb, Z.lor_spec in H1 by lia.
           replace (j - 1 + 1) with j in H1 by lia.
           now apply orb_false_elim in H1.
        -- intros j j' Hj Hj'. destruct (Z.eq_dec j 0) as [-> | Hj0].
           ++ rewrite S0. specialize (H1 (j' - 1) ltac:(lia)).
              rewrite Sj, Hb, Z.lor_spec, testbit_bitvector in H1 by lia.
              replace (j' - 1 + 1) with j' in H1 by lia.
              apply orb_false_elim in H1 as [_ H1].
              now apply Z.eqb_neq in H1.
           ++ specialize (H2 (j - 1) (j' - 1) ltac:(lia) ltac:(lia)).
              rewrite !Sj in H2 by lia.
              replace (j - 1 + 1) with j in H2 by lia.
              replace (j' - 1 + 1) with j' in H2 by lia. exact H2.
      * intros [H1 H2]. split.
        -- intros j Hj. rewrite Sj, Hb, Z.lor_spec, testbit_bitvector by lia.
           apply orb_false_intro; [apply H1; lia|].
           apply Z.eqb_neq. rewrite <- S0. apply H2; lia.
        -- intros j j' Hj Hj'. rewrite !Sj by lia. apply H2; lia.
    + cbn [fst]. split; [discriminate|]. intros [H1 _].
      exfalso. apply E. apply land_bitvector_zero; [exact Hsq|].
      rewrite <- S0. apply H1. lia.
Qed.

Lemma index_to_position_succeeds_iff (t : tablebase) (index : Z) :
  fst (index_to_position t index) = true
  <-> (forall j k, 0 <= j < k -> k < num_mobiles t ->
         square_of_index index j <> square_of_index index k).
Proof.
  unfold index_to_position, square_of_index.
  destruct (Z.le_gt_cases 0 (num_mobiles t)) as [Hn | Hn].
  - rewrite <- (Z2Nat.id (num_mobiles t)) at 1 by exact Hn.
    rewrite index_to_position_loop_success.
    cbn [board_vector set_side_to_move zero_position].
    rewrite Z2Nat.id by exact Hn.
    assert (S : forall j, 0 <= j ->
              Z.land (Z.shiftr (Z.shiftr index 1) (6 * j)) 63
              = Z.land (Z.shiftr index (1 + 6 * j)) 63)
      by (intros j Hj; now rewrite Z.shiftr_shiftr by lia).
    split.
    + intros [_ H] j k Hj Hk. rewrite <- !S by lia. now apply H.
    + intros H. split; [intros; apply Z.bits_0|].
      intros j k Hj Hk. rewrite !S by lia. now apply H.
  - rewrite seqZ_nil by lia. simpl. split; [intros; lia | reflexivity].
Qed.

(** X6: [index_to_position] succeeds exactly when the squares the index
    holds for the mobile pieces are pairwise different; this is all it
    checks. *)
Theorem index_to_position_success (t : tablebase) (index : Z) :
  fst (index_to_position t index) = true
  <-> (forall j k, 0 <= j < k -> k < num_mobiles t ->
         square_of_index index j <> square_of_index index k).
Proof. exact (index_to_position_succeeds_iff t index). Qed.

Lemma placed_step t k p sq :
  0 <= k -> 0 <= sq < NUM_SQUARES ->
  (Z.to_nat k < length (mobile_piece_position p))%nat ->
  placed t k p ->
  Z.testbit (board_vector p) sq = false ->
  placed t (k + 1)
    (if zget 0 (mobile_piece_color t) k =? WHITE
     then Position (Z.lor (board_vector (set_mobile p k sq)) (bitvector sq))
            (Z.lor (white_vector (set_mobile p k sq)) (bitvector sq))
            (black_vector (set_mobile p k sq))
            (side_to_move (set_mobile p k sq))
            (mobile_piece_position (set_mobile p k sq))
     else Position (Z.lor (board_vector (set_mobile p k sq)) (bitvector sq))
            (white_vector (set_mobile p k sq))
            (Z.lor (black_vector (set_mobile p k sq)) (bitvector sq))
            (side_to_move (set_mobile p k sq))
            (mobile_piece_position (set_mobile p k sq))).
Proof.
  intros Hk Hsq Hlen (Hon & Hdis & Hb & Hw & Hbl) Hfree.
  set (p1 := if _ =? WHITE then _ else _).
  assert (Hm : forall j, mobile p1 j = mobile (set_mobile p k sq) j)
    by (intros j; subst p1;
        destruct (zget 0 (mobile_piece_color t) k =? WHITE); reflexivity).
  assert (Hold : forall j, 0 <= j < k -> mobile p1 j = mobile p j)
    by (intros j Hj; rewrite Hm; apply mobile_set_mobile_ne; lia).
  assert (Hnew : mobile p1 k = sq)
    by (rewrite Hm; now apply mobile_set_mobile_eq).
  assert (Hfresh : forall j, 0 <= j < k -> mobile p j <> sq).
  { intros j Hj E.
    assert (T : Z.testbit (board_vector p) sq = true)
      by (apply Hb; exists j; split; [lia | exact E]).
    congruence. }
  assert (Hex : forall (Q : Z -> Prop) b,
            (exists j, 0 <= j < k + 1 /\ Q j /\ mobile p1 j = b)
            <-> (exists j, 0 <= j < k /\ Q j /\ mobile p j = b)
                \/ (Q k /\ sq = b)).
  { intros Q b. split.
    - intros (j & Hj & HQ & E). destruct (Z.eq_dec j k) as [-> | Hne].
      + right. split; [exact HQ | congruence].
      + left. exists j. rewrite <- Hold by lia. repeat split; try lia; auto.
    - intros [(j & Hj & HQ & E) | [HQ E]].
      + exists j. rewrite Hold by lia. repeat split; try lia; auto.
      + exists k. repeat split; try lia; auto; congruence. }
  unfold NUM_SQUARES in *.
  split; [|split; [|split; [|split]]].
  - intros j Hj. destruct (Z.eq_dec j k) as [-> | Hne];
      [rewrite Hnew; exact Hsq | rewrite Hold by lia; apply Hon; lia].
  - intros j j' Hj Hj'. destruct (Z.eq_dec j' k) as [-> | Hne].
    + rewrite Hnew, Hold by lia. apply Hfresh. lia.
    + rewrite !Hold by lia. apply Hdis; lia.
  - intros b.
    assert (E : board_vector p1 = Z.lor (board_vector p) (bitvector sq))
      by (subst p1; destruct (zget 0 (mobile_piece_color t) k =? WHITE);
          reflexivity).
    rewrite E, Z.lor_spec, orb_true_iff, Hb, testbit_bitvector by lia.
    pose proof (Hex (fun _ => True) b) as X.
    rewrite Z.eqb_eq. split.
    + intros [(j & Hj & Ej) | Eb].
      * destruct X as [_ X]. destruct X as (j' & Hj' & _ & Ej');
          [left; eauto|]. eauto.
      * destruct X as [_ X]. destruct X as (j' & Hj' & _ & Ej');
          [right; auto|]. eauto.
    + intros (j & Hj & Ej). destruct X as [X _].
      destruct X as [(j' & Hj' & _ & Ej') | [_ Eb]]; eauto.
  - intros b. subst p1.
    destruct (Z.eqb_spec (zget 0 (mobile_piece_color t) k) WHITE) as [C | C];
      cbn [white_vector set_mobile].
    + rewrite Z.lor_spec, orb_true_iff, Hw, testbit_bitvector, Z.eqb_eq by lia.
      rewrite (Hex (fun j => zget 0 (mobile_piece_color t) j = WHITE) b).
      cbn [mobile_piece_position set_mobile] in *. tauto.
    + rewrite Hw.
      rewrite (Hex (fun j => zget 0 (mobile_piece_color t) j = WHITE) b).
      tauto.
  - intros b. subst p1.
    destruct (Z.eqb_spec (zget 0 (mobile_piece_color t) k) WHITE) as [C | C];
      cbn [black_vector set_mobile].
    + rewrite Hbl.
      rewrite (Hex (fun j => zget 0 (mobile_piece_color t) j <> WHITE) b).
      tauto.
    + rewrite Z.lor_spec, orb_true_iff, Hbl, testbit_bitvector, Z.eqb_eq by lia.
      rewrite (Hex (fun j => zget 0 (mobile_piece_color t) j <> WHITE) b).
      tauto.
Qed.

Lemma index_to_position_loop_placed t (c : nat) :
  forall k index p p',
    0 <= k ->
    (Z.to_nat k + c <= length (mobile_piece_position p))%nat ->
    placed t k p ->
    index_to_position_loop t (seqZ k (Z.of_nat c)) index p = (true, p') ->
    placed t (k + Z.of_nat c) p'.
Proof.
  induction c as [|c IH]; intros k index p p' Hk Hlen Hp.
  - change (Z.of_nat 0) with 0. rewrite Z.add_0_r. simpl.
    intros [= <-]. exact Hp.
  - rewrite seqZ_cons by lia.
    replace (Z.pred (Z.of_nat (S c))) with (Z.of_nat c) by lia.
    cbn [index_to_position_loop].
    destruct (Z.eqb_spec
                (Z.land (board_vector (set_mobile p k (Z.land index 63)))
                   (bitvector (Z.land index 63))) 0) as [E | E];
      cbn [negb]; [|discriminate].
    pose proof (land_63_range index) as R.
    apply land_bitvector_zero in E; [|lia].
    intros H. apply IH in H.
    + replace (k + Z.of_nat (S c)) with (Z.succ k + Z.of_nat c) by lia.
      exact H.
    + lia.
    + destruct (zget 0 (mobile_piece_color t) k =? WHITE);
        cbn [mobile_piece_position set_mobile];
        rewrite length_insert; lia.
    + apply placed_step; try assumption; unfold NUM_SQUARES; lia.
Qed.

Lemma placed_zero t s : placed t 0 (set_side_to_move zero_position s).
Proof.
  unfold placed, squares_on_board, squares_distinct.
  cbn [board_vector white_vector black_vector set_side_to_move zero_position].
  split; [intros; lia|]. split; [intros; lia|].
  repeat split; try (rewrite Z.bits_0; discriminate);
    intros (j & Hj & _); lia.
Qed.

Lemma decoded_position_placed (t : tablebase) (index : Z)
    (p : position) :
  0 <= num_mobiles t <= MAX_MOBILES ->
  index_to_position t index = (true, p) ->
  side_to_move p = Z.land index 1
  /\ (forall j, 0 <= j < num_mobiles t ->
        mobile p j = square_of_index index j)
  /\ placed t (num_mobiles t) p
  /\ Z.lor (white_vector p) (black_vector p) = board_vector p
  /\ Z.land (white_vector p) (black_vector p) = 0.
Proof.
  intros Hn Hdec. unfold index_to_position in Hdec.
  rewrite <- (Z2Nat.id (num_mobiles t)) in Hdec by lia.
  assert (Hlen : (Z.to_nat 0 + Z.to_nat (num_mobiles t)
                  <= length (mobile_piece_position
                               (set_side_to_move zero_position
                                  (Z.land index 1))))%nat).
  { change (length _) with 8%nat. unfold MAX_MOBILES in Hn. lia. }
  pose proof (index_to_position_loop_placed t _ 0 _ _ _ ltac:(lia) Hlen
                (placed_zero t (Z.land index 1)) Hdec) as Hp.
  rewrite Z2Nat.id in Hp by lia. replace (0 + num_mobiles t)
    with (num_mobiles t) in Hp by lia.
  apply index_to_position_loop_spec in Hdec; [|lia].
  destruct Hdec as (Hs & _ & _ & _ & Hsq).
  split; [exact Hs|]. split.
  { intros j Hj. rewrite (Hsq eq_refl j).
    - unfold square_of_index. rewrite Z.shiftr_shiftr by lia.
      do 2 f_equal. lia.
    - lia.
    - simpl. unfold MAX_MOBILES in *. lia. }
  split; [exact Hp|].
  destruct Hp as (_ & Hdis & Hb & Hw & Hbl).
  split.
  - apply Z.bits_inj'. intros b _. rewrite Z.lor_spec.
    apply eq_true_iff_eq. rewrite orb_true_iff, Hb, Hw, Hbl. split.
    + intros [(j & Hj & _ & E) | (j & Hj & _ & E)]; eauto.
    + intros (j & Hj & E).
      destruct (Z.eq_dec (zget 0 (mobile_piece_color t) j) WHITE);
        [left | right]; eauto.
  - apply Z.bits_inj'. intros b _. rewrite Z.land_spec, Z.bits_0.
    apply not_true_is_false. rewrite andb_true_iff, Hw, Hbl.
    intros [(j & Hj & Cj & Ej) (j' & Hj' & Cj' & Ej')].
    destruct (Z.lt_trichotomy j j') as [L | [-> | L]].
    + apply (Hdis j j'); [lia | lia | congruence].
    + contradiction.
    + apply (Hdis j' j); [lia | lia | congruence].
Qed.

(** X7: the position a successful [index_to_position] fills in: the side
    to move is bit 0 of the index; every mobile piece stands on the square
    the index holds for it, on the board, no two on one square; the board
    vector has exactly the bits of the pieces' squares, the white vector
    those of the white pieces, the black vector those of the others; so
    the two colour vectors are disjoint and make up the board vector. *)
Theorem decoded_position_invariants (t : tablebase) (index : Z)
    (p : position) :
  0 <= num_mobiles t <= MAX_MOBILES ->
  index_to_position t index = (true, p) ->
  side_to_move p = Z.land index 1
  /\ (forall j, 0 <= j < num_mobiles t ->
        mobile p j = square_of_index index j)
  /\ placed t (num_mobiles t) p
  /\ Z.lor (white_vector p) (black_vector p) = board_vector p
  /\ Z.land (white_vector p) (black_vector p) = 0.
Proof. exact (decoded_position_placed t index p). Qed.

Lemma decoded_position_invariants_witness :
  Z.lor (white_vector (snd (index_to_position create_tablebase 384987)))
    (black_vector (snd (index_to_position create_tablebase 384987)))
  = board_vector (snd (index_to_position create_tablebase 384987))
  /\ Z.land (white_vector (snd (index_to_position create_tablebase 384987)))
       (black_vector (snd (index_to_position create_tablebase 384987)))
     = 0.
Proof.
  destruct (decoded_position_invariants create_tablebase 384987
              (snd (index_to_position create_tablebase 384987)))
    as (_ & _ & _ & H1 & H2).
  - simpl. unfold MAX_MOBILES. lia.
  - reflexivity.
  - split; assumption.
Defined.

Lemma bits_above_bound (i m : Z) :
  0 <= i -> 0 <= m -> (forall b, m <= b -> Z.testbit i b = false) ->
  i < 2 ^ m.
Proof.
  intros Hi Hm Hb.
  assert (E : i mod 2 ^ m = i).
  { apply Z.bits_inj'. intros b Hb0. destruct (Z.lt_ge_cases b m).
    - now rewrite Z.mod_pow2_bits_low by lia.
    - rewrite Z.mod_pow2_bits_high by lia. symmetry. now apply Hb. }
  rewrite <- E. apply Z.mod_pos_bound. apply Z.pow_pos_nonneg; lia.
Qed.

(** What [position_to_index] packs, read back from the index: for up to
    five mobile pieces (1 + 6*5 bits fit the 32-bit index), standing on
    squares of the board, the index is inside the table, its bit 0 is the
    side to move and its six-bit fields are the squares. *)
Lemma position_to_index_fields (t : tablebase) (pos : position) :
  0 <= num_mobiles t <= 5 ->
  0 <= side_to_move pos < 2 ->
  squares_on_board (num_mobiles t) pos ->
  0 <= position_to_index t pos < 2 * 64 ^ num_mobiles t
  /\ Z.land (position_to_index t pos) 1 = side_to_move pos
  /\ (forall j, 0 <= j < num_mobiles t ->
        square_of_index (position_to_index t pos) j = mobile pos j).
Proof.
  intros Hn Hs Hon. unfold squares_on_board, NUM_SQUARES in Hon.
  destruct (position_to_index_bits t pos ltac:(lia) Hon Hs) as [B0 Bj].
  pose proof (position_to_index_nonneg t pos) as Hnn.
  set (i := position_to_index t pos) in *.
  split; [split; [exact Hnn|]|split].
  - rewrite pow_table_size by lia. apply bits_above_bound; try lia.
    intros b Hb.
    pose proof (Z.div_mod (b - 1) 6 ltac:(lia)) as D.
    pose proof (Z.mod_pos_bound (b - 1) 6 ltac:(lia)) as M.
    assert (Hq : 0 <= (b - 1) / 6) by (apply Z.div_pos; lia).
    replace b with (1 + 6 * ((b - 1) / 6) + (b - 1) mod 6) by lia.
    rewrite Bj by lia.
    replace ((b - 1) / 6 <? num_mobiles t) with false
      by (symmetry; apply Z.ltb_ge; lia).
    now rewrite andb_false_r.
  - apply Z.bits_inj'. intros b Hb. rewrite Z.land_spec.
    destruct (Z.eq_dec b 0) as [-> | Hb0].
    + rewrite B0. apply andb_true_r.
    + rewrite (testbit_above (side_to_move pos) 1) by lia.
      change 1 with (Z.ones 1). rewrite Z.ones_spec_high by lia.
      apply andb_false_r.
  - intros j Hj. unfold square_of_index. apply Z.bits_inj'. intros r Hr.
    destruct (Z.lt_ge_cases r 6) as [L | G].
    + rewrite testbit_land_63, Z.shiftr_spec by lia.
      replace (r + (1 + 6 * j)) with (1 + 6 * j + r) by lia.
      rewrite Bj by lia.
      replace (1 + 6 * j + r <? 32) with true
        by (symmetry; apply Z.ltb_lt; lia).
      replace (j <? num_mobiles t) with true
        by (symmetry; apply Z.ltb_lt; lia).
      reflexivity.
    + rewrite Z.land_spec. change 63 with (Z.ones 6).
      rewrite Z.ones_spec_high, andb_false_r by lia.
      symmetry. apply (testbit_above (mobile pos j) 6); try lia.
      change (2 ^ 6) with 64. apply Hon. lia.
Qed.

Lemma position_index_position (t : tablebase) (pos : position) :
  0 <= num_mobiles t <= 5 ->
  0 <= side_to_move pos < 2 ->
  squares_on_board (num_mobiles t) pos ->
  squares_distinct (num_mobiles t) pos ->
  let index := position_to_index t pos in
  0 <= index < 2 * 64 ^ num_mobiles t
  /\ fst (index_to_position t index) = true
  /\ side_to_move (snd (index_to_position t index)) = side_to_move pos
  /\ (forall j, 0 <= j < num_mobiles t ->
        mobile (snd (index_to_position t index)) j = mobile pos j).
Proof.
  intros Hn Hs Hon Hdis index.
  destruct (position_to_index_fields t pos Hn Hs Hon) as (Hr & Hside & Hsq).
  fold index in Hr, Hside, Hsq.
  assert (Hok : fst (index_to_position t index) = true).
  { apply index_to_position_succeeds_iff. intros j k Hj Hk.
    rewrite !Hsq by lia. now apply Hdis. }
  destruct (index_to_position t index) as [ok p] eqn:E.
  cbn [fst snd] in *. subst ok.
  destruct (decoded_position_placed t index p) as (Ds & Dm & _);
    [unfold MAX_MOBILES; lia | exact E|].
  split; [exact Hr|]. split; [reflexivity|]. split; [congruence|].
  intros j Hj. rewrite Dm by lia. now apply Hsq.
Qed.

(** X8: for a tablebase of up to five mobile pieces and a position whose
    side to move is 0 or 1 and whose mobile pieces stand on squares of the
    board, no two on one square, [position_to_index] gives an index inside
    the table on which [index_to_position] succeeds and gives back the
    side to move and every piece's square. *)
Theorem position_index_roundtrip (t : tablebase) (pos : position) :
  0 <= num_mobiles t <= 5 ->
  0 <= side_to_move pos < 2 ->
  squares_on_board (num_mobiles t) pos ->
  squares_distinct (num_mobiles t) pos ->
  let index := position_to_index t pos in
  0 <= index < 2 * 64 ^ num_mobiles t
  /\ fst (index_to_position t index) = true
  /\ side_to_move (snd (index_to_position t index)) = side_to_move pos
  /\ (forall j, 0 <= j < num_mobiles t ->
        mobile (snd (index_to_position t index)) j = mobile pos j).
Proof. exact (position_index_position t pos). Qed.

Lemma position_index_roundtrip_witness :
  fst (index_to_position create_tablebase
         (position_to_index create_tablebase sample_position)) = true
  /\ side_to_move
       (snd (index_to_position create_tablebase
               (position_to_index create_tablebase sample_position)))
     = side_to_move sample_position.
Proof.
  destruct (position_index_roundtrip create_tablebase sample_position)
    as (_ & H1 & H2 & _).
  - simpl. lia.
  - simpl. unfold WHITE. lia.
  - intros j Hj. change (num_mobiles create_tablebase) with 3 in Hj.
    assert (C : j = 0 \/ j = 1 \/ j = 2) by lia.
    destruct C as [-> | [-> | ->]]; vm_compute;
      (split; [discriminate | reflexivity]).
  - intros j k Hj Hk. change (num_mobiles create_tablebase) with 3 in Hk.
    assert (C : (j = 0 /\ k = 1) \/ (j = 0 /\ k = 2) \/ (j = 1 /\ k = 2))
      by lia.
    destruct C as [[-> ->] | [[-> ->] | [-> ->]]]; vm_compute; discriminate.
  - split; assumption.
Defined.

(** * Further properties of the movement table *)

Lemma reachesb_chess_move :
  forallb
    (fun piece =>
       forallb
         (fun squareA =>
            forallb
              (fun squareB =>
                 Bool.eqb (reachesb piece squareA squareB)
                   (chess_move piece squareA squareB))
              (seqZ 0 NUM_SQUARES))
         (seqZ 0 NUM_SQUARES))
    (seqZ KING (KNIGHT - KING + 1)) = true.
Proof. vm_compute. reflexivity. Qed.

(** X9: the table [init_movements] builds holds the moves of chess: for
    King, Queen, Rook, Bishop and Knight and squares A, B of the board,
    some ray of the piece from A reaches B exactly when A to B is a move
    of that piece on an empty board. *)
Theorem movement_table_chess_moves (piece squareA squareB : Z) :
  KING <= piece <= KNIGHT ->
  0 <= squareA < NUM_SQUARES ->
  0 <= squareB < NUM_SQUARES ->
  (reaches piece squareA squareB
   <-> chess_move piece squareA squareB = true).
Proof.
  intros Hp Ha Hb. rewrite <- reachesb_reaches.
  pose proof reachesb_chess_move as S.
  apply (forallb_seqZ _ _ _ piece) in S; [|unfold KING, KNIGHT in *; lia].
  apply (forallb_seqZ _ _ _ squareA) in S; [|lia].
  apply (forallb_seqZ _ _ _ squareB) in S; [|lia].
  cbv beta in S. apply Bool.eqb_prop in S. now rewrite S.
Qed.

Lemma movement_table_chess_moves_witness :
  reaches BISHOP 0 63 /\ ~ reaches ROOK 0 63.
Proof.
  assert (R : forall piece, KING <= piece <= KNIGHT ->
            (reaches piece 0 63 <-> chess_move piece 0 63 = true)).
  { intros piece Hp.
    apply (movement_table_chess_moves piece 0 63 Hp);
      unfold NUM_SQUARES; lia. }
  split.
  - apply (R BISHOP); [unfold KING, BISHOP, KNIGHT; lia | reflexivity].
  - intros H. apply (R ROOK) in H; [discriminate|].
    unfold KING, ROOK, KNIGHT; lia.
Defined.

Lemma scan_prefix_before_stopper row occ m :
  Z.land allones_bitvector occ <> 0 ->
  In m (fst (scan row occ)) -> In m (before_stopper row).
Proof.
  intros Hocc. induction row as [|c row IH]; simpl; [tauto|].
  destruct (Z.eqb_spec (Z.land (vector c) occ) 0) as [E | E]; [|simpl; tauto].
  destruct (Z.eqb_spec (vector c) allones_bitvector) as [A | A];
    [rewrite A in E; contradiction|].
  destruct (scan row occ) as [pre stop]. simpl in *.
  intros [<- | Hin]; [left; reflexivity | right; auto].
Qed.

Lemma scan_prefix_length row occ :
  Z.land allones_bitvector occ <> 0 ->
  (length (fst (scan row occ)) <= length (before_stopper row))%nat.
Proof.
  intros Hocc. induction row as [|c row IH]; simpl; [lia|].
  destruct (Z.eqb_spec (Z.land (vector c) occ) 0) as [E | E]; [|simpl; lia].
  destruct (Z.eqb_spec (vector c) allones_bitvector) as [A | A];
    [rewrite A in E; contradiction|].
  destruct (scan row occ) as [pre stop]. simpl in *. lia.
Qed.

Lemma table_rows_bounded :
  forallb
    (fun piece =>
       forallb
         (fun sq =>
            forallb
              (fun dir =>
                 Nat.leb (length (before_stopper (movements piece sq dir)))
                   (Z.to_nat (zget 0 maximum_movements_in_one_direction piece)))
              (directions_of piece))
         (seqZ 0 NUM_SQUARES))
    (seqZ 0 NUM_PIECES) = true.
Proof. vm_compute. reflexivity. Qed.

Lemma table_rows_steps :
  forallb
    (fun piece =>
       forallb
         (fun sq =>
            forallb
              (fun dir =>
                 forallb step_cellb (before_stopper (movements piece sq dir)))
              (directions_of piece))
         (seqZ 0 NUM_SQUARES))
    (seqZ KING (KNIGHT - KING + 1)) = true.
Proof. vm_compute. reflexivity. Qed.

Lemma step_cellb_correct m : step_cellb m = true -> step_cell m.
Proof.
  unfold step_cellb, step_cell. intros H.
  apply andb_true_iff in H as [H Hv]. apply andb_true_iff in H as [H0 H1].
  apply Z.leb_le in H0. apply Z.ltb_lt in H1. apply Z.eqb_eq in Hv.
  split; [lia | exact Hv].
Qed.

Lemma occupancy_hits_allones occ :
  0 < occ < 2 ^ 64 -> Z.land allones_bitvector occ <> 0.
Proof.
  intros Hocc. unfold allones_bitvector. change (2 ^ 64 - 1) with (Z.ones 64).
  rewrite Z.land_comm, Z.land_ones by lia. rewrite Z.mod_small by lia. lia.
Qed.

(** The scans of the program, on the rows of the pieces that are not
    pawns: every cell run over is a step to a square of the board that
    the occupancy leaves free. *)
Lemma scan_cells_free piece sq dir occ m :
  KING <= piece <= KNIGHT ->
  0 <= sq < NUM_SQUARES ->
  0 <= dir < zget 0 number_of_movement_directions piece ->
  0 < occ < 2 ^ 64 ->
  In m (fst (scan (movements piece sq dir) occ)) ->
  step_cell m /\ Z.testbit occ (square m) = false.
Proof.
  intros Hp Hs Hd Hocc Hin.
  pose proof (scan_traversed _ _ _ Hin) as [_ Hland].
  apply scan_prefix_before_stopper in Hin;
    [|now apply occupancy_hits_allones].
  pose proof table_rows_steps as T.
  apply (forallb_seqZ _ _ _ piece) in T; [|unfold KING, KNIGHT in *; lia].
  apply (forallb_seqZ _ _ _ sq) in T; [|lia].
  apply (forallb_seqZ _ _ _ dir) in T; [|lia].
  cbv beta in T. rewrite forallb_forall in T.
  apply T, step_cellb_correct in Hin. split; [exact Hin|].
  destruct Hin as [Hr Hv]. rewrite Hv, Z.land_comm in Hland.
  apply land_bitvector_zero in Hland; [exact Hland | lia].
Qed.

(** X10: every scan of the program halts inside its row: on a row of the
    table (any piece, square of the board and direction of the piece) with
    a non-empty 64-bit occupancy, the scan stops at a cell of the row
    whose vector meets the occupancy, after running over at most
    [maximum_movements_in_one_direction[piece]] cells; and for a piece
    that is not a pawn, every cell it runs over is a step to a free square
    of the board. *)
Theorem scans_halt_in_row (piece sq dir occ : Z) :
  0 <= piece < NUM_PIECES ->
  0 <= sq < NUM_SQUARES ->
  0 <= dir < zget 0 number_of_movement_directions piece ->
  0 < occ < 2 ^ 64 ->
  (exists m,
     snd (scan (movements piece sq dir) occ) = Some m
     /\ In m (movements piece sq dir)
     /\ Z.land (vector m) occ <> 0)
  /\ Z.of_nat (length (fst (scan (movements piece sq dir) occ)))
     <= zget 0 maximum_movements_in_one_direction piece
  /\ (piece <= KNIGHT ->
      forall m, In m (fst (scan (movements piece sq dir) occ)) ->
                step_cell m /\ Z.testbit occ (square m) = false).
Proof.
  intros Hp Hs Hd Hocc. split; [|split].
  - destruct (scan_movements_stops piece sq dir occ Hp Hs Hd Hocc) as [m Hm].
    exists m. split; [exact Hm|]. now apply scan_stop_in.
  - pose proof (scan_prefix_length (movements piece sq dir) occ
                  (occupancy_hits_allones occ Hocc)) as L.
    pose proof table_rows_bounded as T.
    apply (forallb_seqZ _ _ _ piece) in T; [|lia].
    apply (forallb_seqZ _ _ _ sq) in T; [|lia].
    apply (forallb_seqZ _ _ _ dir) in T; [|lia].
    cbv beta in T. apply Nat.leb_le in T.
    assert (0 <= zget 0 maximum_movements_in_one_direction piece).
    { unfold zget, maximum_movements_in_one_direction.
      destruct (Z.to_nat piece) as [|[|[|[|[|[|[|n]]]]]]]; simpl; lia. }
    lia.
  - intros Hk m Hin.
    apply (scan_cells_free piece sq dir occ m); try assumption.
    unfold KING. lia.
Qed.

Lemma scans_halt_in_row_witness :
  Z.of_nat (length (fst (scan (movements QUEEN 27 0) (bitvector 31))))
  <= zget 0 maximum_movements_in_one_direction QUEEN.
Proof.
  apply (scans_halt_in_row QUEEN 27 0 (bitvector 31));
    [unfold QUEEN, NUM_PIECES; lia | unfold NUM_SQUARES; lia
    | vm_compute; split; [discriminate | reflexivity]
    | vm_compute; split; reflexivity].
Defined.

(** [verify_movements] only ever adds to what has been printed: each of
    its loops appends its diagnostics to the log it starts from. *)
Lemma fold_left_appends {A : Type} (f : list diag -> A -> list diag)
    (l : list A) :
  (forall log x, f log x = log ++ f [] x) ->
  forall log, fold_left f l log = log ++ fold_left f l [].
Proof.
  intros H. induction l as [|x l IH]; intros log; simpl.
  - now rewrite app_nil_r.
  - rewrite IH, (IH (f [] x)), H. now rewrite app_assoc.
Qed.

Lemma verify_self_appends piece squareA squareB log :
  verify_self piece squareA squareB log
  = log ++ verify_self piece squareA squareB [].
Proof.
  unfold verify_self. apply fold_left_appends. intros lg dir.
  destruct (snd (scan _ _)) as [m|]; [|now rewrite app_nil_r].
  destruct (_ || _); [reflexivity | now rewrite app_nil_r].
Qed.

Lemma fold_left_pair_appends {A : Type}
    (f : list diag * bool -> A -> list diag * bool) (l : list A) :
  (forall log mp x,
     f (log, mp) x = (log ++ fst (f ([], mp) x), snd (f ([], mp) x))) ->
  forall log mp,
    fold_left f l (log, mp)
    = (log ++ fst (fold_left f l ([], mp)), snd (fold_left f l ([], mp))).
Proof.
  intros H. induction l as [|x l IH]; intros log mp; cbn [fold_left].
  - cbn [fst snd]. now rewrite app_nil_r.
  - rewrite H. destruct (f ([], mp) x) as [a b] eqn:E. cbn [fst snd].
    rewrite IH. symmetry. rewrite IH. cbn [fst snd].
    now rewrite app_assoc.
Qed.

Lemma verify_forward_appends piece squareA squareB log :
  verify_forward piece squareA squareB log
  = (log ++ fst (verify_forward piece squareA squareB []),
     snd (verify_forward piece squareA squareB [])).
Proof.
  unfold verify_forward. apply fold_left_pair_appends.
  intros lg mp dir.
  destruct (scan (movements piece squareA dir) (bitvector squareB))
    as [pre stop].
  match goal with
  | |- context [fold_left ?g pre lg] =>
    rewrite (fold_left_appends g pre) with (log := lg);
      [set (bad := fold_left g pre [])|]
  end.
  2:{ intros lg' m. destruct (_ || _); [reflexivity | now rewrite app_nil_r]. }
  destruct stop as [m|]; [|reflexivity].
  destruct (square m =? -1).
  - destruct (negb _); cbn [fst snd]; now rewrite ?app_assoc.
  - destruct (_ || _); cbn [fst snd]; [now rewrite ?app_assoc|].
    f_equal. destruct (negb _), mp, (vector m =? allones_bitvector);
      now rewrite ?app_assoc, ?app_nil_l, ?app_nil_r.
Qed.

Lemma verify_pair_appends piece squareA squareB log :
  verify_pair piece squareA squareB log
  = log ++ verify_pair piece squareA squareB [].
Proof.
  unfold verify_pair. destruct (squareA =? squareB);
    [apply verify_self_appends|].
  rewrite verify_forward_appends.
  destruct (verify_forward piece squareA squareB []) as [out mp].
  cbn [fst snd]. destruct (_ && _); now rewrite ?app_assoc, ?app_nil_r.
Qed.

Lemma verify_movements_appends st :
  stderr (verify_movements st)
  = stderr st ++ stderr (verify_movements (State (tb st) [])).
Proof.
  unfold verify_movements. cbn [stderr].
  apply fold_left_appends. intros log piece.
  apply (fold_left_appends
           (fun log squareA =>
              fold_left (fun log squareB => verify_pair piece squareA squareB log)
                (seqZ 0 NUM_SQUARES) log)).
  intros lg squareA.
  apply (fold_left_appends
           (fun log squareB => verify_pair piece squareA squareB log)).
  intros lg' squareB. apply verify_pair_appends.
Qed.

(** X11: the table [init_movements] builds passes [verify_movements]: from
    any state, the verification prints no diagnostic and changes nothing
    (no self-move, no bad square, no ray lacking its all-ones cell, no
    square reached by two rays, no move without its reverse). *)
Theorem verify_movements_silent (st : state) : verify_movements st = st.
Proof.
  pose proof (verify_movements_appends st) as A.
  assert (E : stderr (verify_movements (State (tb st) [])) = [])
    by (vm_compute; reflexivity).
  rewrite E, app_nil_r in A. clear E.
  assert (T : tb (verify_movements st) = tb st) by reflexivity.
  revert A T. generalize (verify_movements st). intros r A T.
  destruct r as [t' e'], st as [t e]. cbn [tb stderr] in A, T.
  now subst.
Qed.

(** * Further properties of the initialization *)

Lemma initialize_count_dirs_header st st' index p piece dirs :
  same_header st st' ->
  forall mc,
    snd (initialize_count_dirs st' index p piece dirs mc)
    = snd (initialize_count_dirs st index p piece dirs mc).
Proof.
  intros (_ & Ht & _). induction dirs as [|dir dirs IH]; intros mc;
    [reflexivity|].
  cbn [initialize_count_dirs]. rewrite Ht.
  destruct (scan _ (board_vector p)) as [pre stop].
  destruct stop as [m|]; [|apply IH].
  destruct (side_to_move p =? WHITE).
  - destruct (_ =? 0); [|apply IH].
    destruct (_ =? _); [reflexivity | apply IH].
  - destruct (_ =? 0); [|apply IH].
    destruct (_ =? _); [reflexivity | apply IH].
Qed.

Lemma initialize_count_pieces_header st st' index p pieces :
  same_header st st' ->
  forall mc,
    snd (initialize_count_pieces st' index p pieces mc)
    = snd (initialize_count_pieces st index p pieces mc).
Proof.
  intros H. pose proof H as (_ & Ht & Hc & _).
  induction pieces as [|piece pieces IH]; intros mc; [reflexivity|].
  cbn [initialize_count_pieces]. rewrite Hc, Ht.
  destruct (negb _); [apply IH|].
  set (dirs := directions_of (zget 0 (mobile_piece_type (tb st)) piece)).
  pose proof (initialize_count_dirs_header st st' index p piece dirs H mc)
    as D.
  destruct (initialize_count_dirs_result st index p piece dirs mc)
    as [[[mc1 E] | E] _];
    destruct (initialize_count_dirs_result st' index p piece dirs mc)
      as [[[mc2 E'] | E'] _];
    rewrite E, E' in *; cbn [snd] in D; try discriminate D.
  - injection D as ->. apply IH.
  - reflexivity.
Qed.

Lemma write_mated_entry_eq st index p :
  in_table (tb st) index ->
  entry_at (tb (write_mated st index p)) index
  = init_entry PTM_WINS_PROPAGATION_NEEDED 0 0 (entry_at (tb st) index).
Proof.
  intros Hr.
  assert (S : forall st0, tb st0 = tb st ->
            entry_at (tb (store st0 index
                            (init_entry PTM_WINS_PROPAGATION_NEEDED 0 0)))
              index
            = init_entry PTM_WINS_PROPAGATION_NEEDED 0 0
                (entry_at (tb st) index)).
  { intros st0 E. rewrite entry_at_store by (now rewrite E). now rewrite E. }
  unfold write_mated, initialize_index_with_black_mated,
    initialize_index_with_white_mated.
  destruct (side_to_move p =? WHITE); cbv zeta.
  - destruct (BLACK_TO_MOVE index); apply S; reflexivity.
  - rewrite black_wins_recorded_win_tb.
    + destruct (WHITE_TO_MOVE index); apply S; reflexivity.
    + left. destruct (WHITE_TO_MOVE index); rewrite S; reflexivity.
Qed.

(** The body of the loop, at an index of the table. *)
Lemma initialize_index_entry st index :
  in_table (tb st) index ->
  entry_at (tb (initialize_index st index)) index = initialized_entry st index.
Proof.
  intros Hr. unfold initialize_index, initialized_entry.
  destruct (index_to_position (tb st) index) as [ok p].
  destruct ok; cbn [negb].
  - destruct (initialize_count_pieces_result st index p
                (seqZ 0 (num_mobiles (tb st))) 0) as [[[mc E] | E] _];
      rewrite E; cbn [snd].
    + destruct (mc =? 0);
        [unfold initialize_index_with_stalemate
        | unfold initialize_index_with_movecnt];
        now rewrite entry_at_store.
    + now apply write_mated_entry_eq.
  - unfold initialize_index_as_illegal. now rewrite entry_at_store.
Qed.

Lemma initialized_entry_kept st st' index :
  kept index st st' ->
  initialized_entry st' index = initialized_entry st index.
Proof.
  intros K. pose proof K as [H _]. unfold initialized_entry.
  rewrite (kept_entry_at _ _ _ K), (index_to_position_header st st') by exact H.
  destruct (index_to_position (tb st) index) as [ok p].
  destruct H as (Hn & Hrest). rewrite Hn.
  now rewrite (initialize_count_pieces_header st st') by (split; assumption).
Qed.

Lemma initialize_tablebase_entry (st : state) (index : Z) :
  in_table (tb st) index ->
  0 <= index < max_index (tb st) ->
  entry_at (tb (initialize_tablebase st)) index = initialized_entry st index.
Proof.
  intros Hr Hi. unfold initialize_tablebase.
  replace (max_index (tb st))
    with (index + (1 + (max_index (tb st) - index - 1))) by lia.
  rewrite seqZ_app, fold_left_app by lia.
  set (reached := fold_left initialize_index (seqZ 0 index) st).
  assert (K1 : kept index st reached).
  { pose proof (initialize_prefix_kept st index index ltac:(lia)) as K.
    now rewrite Z.min_id in K. }
  rewrite seqZ_cons by lia. cbn [fold_left].
  replace (0 + index) with index by lia.
  match goal with
  | |- entry_at (tb (fold_left _ ?l ?s)) _ = _ =>
    assert (K2 : kept index s (fold_left initialize_index l s))
  end.
  { apply fold_left_kept. intros st' i Hin.
    apply list_elem_of_In, elem_of_seqZ in Hin.
    apply initialize_index_kept; lia. }
  rewrite (kept_entry_at _ _ _ K2), initialize_index_entry
    by (eapply kept_in_table; eassumption).
  now apply initialized_entry_kept.
Qed.

(** X12: once [initialize_tablebase] has run, the entry at every index of
    the table below [max_index] is the one the body of the loop writes for
    that index alone, whatever the loop wrote at other indices: ILLEGAL
    (255, 255, 255) when [index_to_position] fails; 252, 0, 0 when the
    counting jumps to [mated]; 251, 255, 0 when it counts no move;
    otherwise the count (as an unsigned char), 255, 255. *)
Theorem initialization_entrywise (st : state) (index : Z) :
  in_table (tb st) index ->
  0 <= index < max_index (tb st) ->
  entry_at (tb (initialize_tablebase st)) index = initialized_entry st index.
Proof. exact (initialize_tablebase_entry st index). Qed.

Lemma initialization_entrywise_witness :
  entry_at (tb (initialize_tablebase (State create_tablebase []))) 384987
  = initialized_entry (State create_tablebase []) 384987.
Proof.
  apply (initialization_entrywise (State create_tablebase []) 384987).
  - unfold in_table. cbn [tb]. rewrite create_tablebase_size. lia.
  - cbn [tb]. change (max_index create_tablebase) with 524287. lia.
Defined.

Lemma scan_length row occ :
  (length (fst (scan row occ)) <= length row)%nat.
Proof.
  induction row as [|c row IH]; simpl; [lia|].
  destruct (Z.land (vector c) occ =? 0); [|simpl; lia].
  destruct (scan row occ) as [pre stop]. simpl in *. lia.
Qed.

Lemma slide_length possible next mvmt current_square row :
  length (snd (slide possible next mvmt current_square row)) = length row.
Proof.
  unfold slide, put. destruct possible; cbn [snd]; apply length_insert.
Qed.

Lemma hop_length possible dest row :
  length (hop possible dest row) = length row.
Proof.
  unfold hop, put. destruct possible; now rewrite ?length_insert.
Qed.

Lemma init_movements_step_length piece sq dir acc mvmt :
  length (snd (init_movements_step piece sq dir acc mvmt)) = length (snd acc).
Proof.
  destruct acc as [current_square row]. unfold init_movements_step.
  destruct (zget RIGHT (zget [] movementdir piece) dir); cbn [snd];
    try apply slide_length; try reflexivity.
  destruct dir as [|d|d]; try reflexivity; try apply hop_length.
  do 3 (try destruct d as [d|d|]); try reflexivity; apply hop_length.
Qed.

Lemma movements_length piece sq dir :
  length (movements piece sq dir) = Z.to_nat (NUM_MOVEMENTS + 1).
Proof.
  unfold movements.
  destruct (_ && _); [|apply length_replicate].
  unfold init_movements_row. cbv zeta.
  assert (F : forall l acc,
            length (snd (fold_left (init_movements_step piece sq dir) l acc))
            = length (snd acc)).
  { induction l as [|x l IH]; intros acc; [reflexivity|].
    cbn [fold_left]. now rewrite IH, init_movements_step_length. }
  specialize (F (seqZ 0 (zget 0 maximum_movements_in_one_direction piece))
                (sq, replicate (Z.to_nat (NUM_MOVEMENTS + 1)) zero_movement)).
  destruct (fold_left _ _ _) as [c row]. cbn [snd] in F.
  unfold put. now rewrite length_insert, F, length_replicate.
Qed.

Lemma directions_of_length piece : (length (directions_of piece) <= 8)%nat.
Proof.
  unfold directions_of. rewrite length_seqZ.
  unfold zget, number_of_movement_directions.
  destruct (Z.to_nat piece) as [|[|[|[|[|[|[|n]]]]]]]; simpl; lia.
Qed.

(** The counting loops only add to [movecnt]: at most the length of the
    row and one capture in each direction. *)
Lemma initialize_count_dirs_bound st index p piece dirs :
  forall mc mc',
    snd (initialize_count_dirs st index p piece dirs mc) = Some mc' ->
    mc <= mc' <= mc + 9 * Z.of_nat (length dirs).
Proof.
  induction dirs as [|dir dirs IH]; intros mc mc'; cbn [initialize_count_dirs].
  - cbn [snd length]. intros [= <-]. lia.
  - pose proof (scan_length
                  (movements (zget 0 (mobile_piece_type (tb st)) piece)
                     (mobile p piece) dir) (board_vector p)) as L.
    rewrite movements_length in L.
    change (Z.to_nat (NUM_MOVEMENTS + 1)) with 8%nat in L.
    destruct (scan _ (board_vector p)) as [pre stop]. cbn [fst] in L.
    cbn [length]. rewrite Nat2Z.inj_succ.
    assert (G : forall mc0, mc <= mc0 <= mc + 9 ->
              snd (initialize_count_dirs st index p piece dirs mc0) = Some mc' ->
              mc <= mc' <= mc + 9 * Z.succ (Z.of_nat (length dirs))).
    { intros mc0 B E. apply IH in E. lia. }
    destruct stop as [m|]; [|apply G; lia].
    destruct (side_to_move p =? WHITE).
    + destruct (_ =? 0); [|apply G; lia].
      destruct (_ =? _); [discriminate | apply G; lia].
    + destruct (_ =? 0); [|apply G; lia].
      destruct (_ =? _); [discriminate | apply G; lia].
Qed.

Lemma initialize_count_pieces_bound st index p pieces :
  forall mc mc',
    snd (initialize_count_pieces st index p pieces mc) = Some mc' ->
    mc <= mc' <= mc + 72 * Z.of_nat (length pieces).
Proof.
  induction pieces as [|piece pieces IH]; intros mc mc';
    cbn [initialize_count_pieces].
  - cbn [snd length]. intros [= <-]. lia.
  - cbn [length]. rewrite Nat2Z.inj_succ.
    destruct (negb _); [intros E; apply IH in E; lia|].
    set (dirs := directions_of (zget 0 (mobile_piece_type (tb st)) piece)).
    pose proof (directions_of_length
                  (zget 0 (mobile_piece_type (tb st)) piece)) as L.
    fold dirs in L.
    pose proof (initialize_count_dirs_bound st index p piece dirs mc) as B.
    destruct (initialize_count_dirs_result st index p piece dirs mc)
      as [[[mc1 E] | E] _]; rewrite E in *; cbn [snd] in *;
      [|discriminate].
    specialize (B mc1 eq_refl). intros E'. apply IH in E'. lia.
Qed.

Lemma initialized_entry_cases st index :
  0 <= num_mobiles (tb st) <= 3 ->
  let e := initialized_entry st index in
  (fst (index_to_position (tb st) index) = false
   /\ movecnt e = ILLEGAL_POSITION /\ mate_in_cnt e = 255
   /\ stalemate_cnt e = 255)
  \/ (fst (index_to_position (tb st) index) = true
      /\ ((movecnt e = PTM_WINS_PROPAGATION_NEEDED /\ mate_in_cnt e = 0
           /\ stalemate_cnt e = 0)
          \/ (movecnt e = 251 /\ mate_in_cnt e = 255 /\ stalemate_cnt e = 0)
          \/ (1 <= movecnt e <= 216 /\ mate_in_cnt e = 255
              /\ stalemate_cnt e = 255))).
Proof.
  intros Hn. unfold initialized_entry.
  destruct (index_to_position (tb st) index) as [ok p].
  destruct ok; cbn [negb fst].
  - right. split; [reflexivity|].
    pose proof (initialize_count_pieces_bound st index p
                  (seqZ 0 (num_mobiles (tb st))) 0) as B.
    rewrite length_seqZ, Z2Nat.id in B by lia.
    destruct (snd (initialize_count_pieces st index p
                     (seqZ 0 (num_mobiles (tb st))) 0)) as [mc|].
    + specialize (B mc eq_refl).
      destruct (Z.eqb_spec mc 0) as [E | E].
      * right. left. apply init_entry_fields; lia.
      * right. right.
        destruct (init_entry_fields mc 255 255 (entry_at (tb st) index))
          as (-> & -> & ->); lia.
    + left. apply init_entry_fields;
        unfold PTM_WINS_PROPAGATION_NEEDED; lia.
  - left. split; [reflexivity|].
    apply init_entry_fields; unfold ILLEGAL_POSITION; lia.
Qed.

(** X13: in a tablebase of at most three mobile pieces, once
    [initialize_tablebase] has run, an entry below [max_index] holds
    movecnt ILLEGAL_POSITION (255) exactly when [index_to_position] fails
    on its index; no entry is in one of the two DONE states or in the
    state PNTM_WINS_PROPAGATION_NEEDED (so [needs_propagation] holds of
    the entries at 252 only, and those have mate-in count 0 and stalemate
    count 0); and the move count of every other entry of a decodable
    index is 251 (no move counted) or between 1 and 216: the counts never
    reach the values kept for the flags. *)
Theorem initialization_classifies (st : state) (index : Z) :
  0 <= num_mobiles (tb st) <= 3 ->
  in_table (tb st) index ->
  0 <= index < max_index (tb st) ->
  let e := entry_at (tb (initialize_tablebase st)) index in
  (movecnt e = ILLEGAL_POSITION
   <-> fst (index_to_position (tb st) index) = false)
  /\ propagated e = false
  /\ movecnt e <> PNTM_WINS_PROPAGATION_NEEDED
  /\ (needs_propagation (tb (initialize_tablebase st)) index = true ->
      movecnt e = PTM_WINS_PROPAGATION_NEEDED
      /\ mate_in_cnt e = 0 /\ stalemate_cnt e = 0)
  /\ (movecnt e = ILLEGAL_POSITION
      \/ movecnt e = PTM_WINS_PROPAGATION_NEEDED
      \/ movecnt e = 251
      \/ 1 <= movecnt e <= 216).
Proof.
  intros Hn Hr Hi e. unfold needs_propagation. fold e.
  assert (E : e = initialized_entry st index)
    by (now apply initialize_tablebase_entry).
  pose proof (initialized_entry_cases st index Hn) as C.
  cbv zeta in C. rewrite <- E in C. clear E. clearbody e.
  unfold propagated, ILLEGAL_POSITION, PTM_WINS_PROPAGATION_NEEDED,
    PNTM_WINS_PROPAGATION_NEEDED, PTM_WINS_PROPAGATION_DONE,
    PNTM_WINS_PROPAGATION_DONE in *.
  destruct C as [(D & M & A & S)
                | (D & [(M & A & S) | [(M & A & S) | (M & A & S)]])].
  - rewrite M. cbn. repeat split; auto; try lia; discriminate.
  - rewrite M, D. cbn. repeat split; auto; try lia; discriminate.
  - rewrite M, D. cbn. repeat split; auto; try lia; discriminate.
  - rewrite D. split; [split; [lia | discriminate]|].
    split; [apply orb_false_iff; split; apply Z.eqb_neq; lia|].
    split; [lia|]. split; [|lia].
    intros H. apply orb_true_iff in H. destruct H as [H | H];
      apply Z.eqb_eq in H; lia.
Qed.

Lemma initialization_classifies_witness :
  let e := entry_at (tb (initialize_tablebase (State create_tablebase [])))
             384987 in
  (movecnt e = ILLEGAL_POSITION
   <-> fst (index_to_position (tb (State create_tablebase [])) 384987) = false)
  /\ propagated e = false
  /\ movecnt e <> PNTM_WINS_PROPAGATION_NEEDED
  /\ (needs_propagation
        (tb (initialize_tablebase (State create_tablebase []))) 384987 = true ->
      movecnt e = PTM_WINS_PROPAGATION_NEEDED
      /\ mate_in_cnt e = 0 /\ stalemate_cnt e = 0)
  /\ (movecnt e = ILLEGAL_POSITION
      \/ movecnt e = PTM_WINS_PROPAGATION_NEEDED
      \/ movecnt e = 251
      \/ 1 <= movecnt e <= 216).
Proof.
  apply (initialization_classifies (State create_tablebase []) 384987).
  - cbn. lia.
  - unfold in_table. cbn [tb]. rewrite create_tablebase_size. lia.
  - cbn [tb]. change (max_index create_tablebase) with 524287. lia.
Defined.

(** * What the propagation does to the entries

    The functions that record wins and the propagation built on them
    change the table only by three stores: the step from NEEDED to DONE
    of [mark_propagated], the record of a win on an entry that holds
    none, and the count-down of a pending counter.  A relation on entries
    that is reflexive and transitive and holds of these three stores holds
    between the entry at every index before and after any of them. *)

Section Evolution.

Variable R : fourbyte_entry -> fourbyte_entry -> Prop.
Variable okM : Z -> Prop.

Hypothesis R_refl : forall e, R e e.
Hypothesis R_trans : forall e1 e2 e3, R e1 e2 -> R e2 e3 -> R e1 e3.
Hypothesis R_marked_ptm :
  forall e, movecnt e = PTM_WINS_PROPAGATION_NEEDED ->
    R e (set_movecnt PTM_WINS_PROPAGATION_DONE e).
Hypothesis R_marked_pntm :
  forall e, movecnt e = PNTM_WINS_PROPAGATION_NEEDED ->
    R e (set_movecnt PNTM_WINS_PROPAGATION_DONE e).
Hypothesis R_won :
  forall e v mate_in_count stalemate_count,
    okM mate_in_count -> ~ records_win e ->
    v = PTM_WINS_PROPAGATION_NEEDED \/ v = PNTM_WINS_PROPAGATION_NEEDED ->
    R e (record_win v mate_in_count stalemate_count e).
Hypothesis R_counted :
  forall e mate_in_count stalemate_count,
    okM mate_in_count -> movecnt e <> 0 -> movecnt e <= MAX_MOVECNT ->
    R e (count_down mate_in_count stalemate_count e).

Lemma evolves_refl st : evolves R st st.
Proof.
  split; [apply same_header_refl|]. intros i e He. exists e. auto.
Qed.

Lemma evolves_trans st1 st2 st3 :
  evolves R st1 st2 -> evolves R st2 st3 -> evolves R st1 st3.
Proof.
  intros [H1 E1] [H2 E2]. split; [eapply same_header_trans; eassumption|].
  intros i e He. destruct (E1 i e He) as (e1 & He1 & R1).
  destruct (E2 i e1 He1) as (e2 & He2 & R2). exists e2. eauto.
Qed.

Lemma fprintf_evolves f a st : evolves R st (fprintf f a st).
Proof.
  split; [repeat split|]. intros i e He. exists e. split; [exact He | auto].
Qed.

Lemma store_evolves st index f :
  (forall e, entries (tb st) !! Z.to_nat index = Some e -> R e (f e)) ->
  evolves R st (store st index f).
Proof.
  intros H. split; [apply store_same_header|].
  intros i e He. unfold store; cbn [tb entries].
  destruct (Nat.eq_dec i (Z.to_nat index)) as [-> | Hne].
  - rewrite list_lookup_alter_eq, He. exists (f e). split; [reflexivity|].
    now apply H.
  - rewrite list_lookup_alter_ne by congruence. exists e. auto.
Qed.

Lemma store_fprintf_evolves st index f fm a :
  (forall e, entries (tb st) !! Z.to_nat index = Some e -> R e (f e)) ->
  evolves R st (store (fprintf fm a st) index f).
Proof.
  intros H. apply (evolves_trans _ (fprintf fm a st));
    [apply fprintf_evolves | now apply store_evolves].
Qed.

Lemma fold_left_evolves {A : Type} (P : state -> Prop)
    (f : state -> A -> state) (l : list A) :
  (forall s s', P s -> evolves R s s' -> P s') ->
  (forall s a, P s -> evolves R s (f s a)) ->
  forall s, P s -> evolves R s (fold_left f l s).
Proof.
  intros HP H. induction l as [|a l IH]; intros s Hs; cbn [fold_left];
    [apply evolves_refl|].
  eapply evolves_trans; [apply H; exact Hs|].
  apply IH. eapply HP; [exact Hs | now apply H].
Qed.

Ltac entry_facts :=
  match goal with
  | He : entries (tb ?st) !! Z.to_nat ?index = Some ?e |- _ =>
    rewrite ?fprintf_tb in *;
    rewrite ?(entry_at_lookup _ _ _ He) in *
  end;
  bool_hyps;
  unfold records_win, PTM_WINS_PROPAGATION_DONE, PNTM_WINS_PROPAGATION_DONE,
    PTM_WINS_PROPAGATION_NEEDED, PNTM_WINS_PROPAGATION_NEEDED,
    MAX_MOVECNT in *.

Ltac evolves_cases :=
  cbv zeta; rewrite ?fprintf_tb;
  repeat match goal with
         | |- evolves _ _ (if ?c then _ else _) => destruct c eqn:?
         end;
  match goal with
  | |- evolves _ ?s ?s => apply evolves_refl
  | |- evolves _ ?s (fprintf _ _ ?s) => apply fprintf_evolves
  | |- evolves _ ?s (fprintf _ _ (fprintf ?f ?a ?s)) =>
    apply (evolves_trans _ (fprintf f a s)); apply fprintf_evolves
  | |- evolves _ ?s (store ?s _ _) => apply store_evolves; intros e He
  | |- evolves _ ?s (store (fprintf _ _ ?s) _ _) =>
    apply store_fprintf_evolves; intros e He
  end.

Lemma white_wins_evolves st index m sc :
  okM m -> evolves R st (white_wins st index m sc).
Proof.
  intros Hm. unfold white_wins. evolves_cases;
    (apply R_won; [exact Hm | entry_facts; lia | auto]).
Qed.

Lemma black_wins_evolves st index m sc :
  okM m -> evolves R st (black_wins st index m sc).
Proof.
  intros Hm. unfold black_wins. evolves_cases;
    (apply R_won; [exact Hm | entry_facts; lia | auto]).
Qed.

Lemma add_one_to_white_wins_evolves st index m sc :
  okM m -> evolves R st (add_one_to_white_wins st index m sc).
Proof.
  intros Hm. unfold add_one_to_white_wins. cbv zeta.
  destruct (WHITE_TO_MOVE index); [apply fprintf_evolves|].
  match goal with
  | |- evolves _ _ (if ?c then _ else _) => destruct c eqn:E1
  end; [apply evolves_refl|].
  match goal with
  | |- evolves _ _ (if ?c then _ else _) => destruct c eqn:E2
  end; [apply fprintf_evolves|].
  match goal with
  | |- evolves _ _ (store (if ?c then _ else _) _ _) => destruct c
  end;
    [apply store_fprintf_evolves | apply store_evolves];
    intros e He; (apply R_counted; [exact Hm | entry_facts; lia..]).
Qed.

Lemma add_one_to_black_wins_evolves st index m sc :
  okM m -> evolves R st (add_one_to_black_wins st index m sc).
Proof.
  intros Hm. unfold add_one_to_black_wins. cbv zeta.
  destruct (BLACK_TO_MOVE index); [apply fprintf_evolves|].
  match goal with
  | |- evolves _ _ (if ?c then _ else _) => destruct c eqn:E1
  end; [apply evolves_refl|].
  match goal with
  | |- evolves _ _ (if ?c then _ else _) => destruct c eqn:E2
  end; [apply fprintf_evolves|].
  match goal with
  | |- evolves _ _ (store (if ?c then _ else _) _ _) => destruct c
  end;
    [apply store_fprintf_evolves | apply store_evolves];
    intros e He; (apply R_counted; [exact Hm | entry_facts; lia..]).
Qed.

Lemma mark_propagated_evolves st index :
  evolves R st (mark_propagated st index).
Proof.
  unfold mark_propagated. evolves_cases;
    [apply R_marked_ptm | apply R_marked_pntm]; entry_facts; lia.
Qed.

Lemma propagate_one_evolves st parent_index parent piece m :
  okM (get_mate_in_count (tb st) parent_index + 1) ->
  evolves R st (propagate_one st parent_index parent piece m).
Proof.
  intros Hm. unfold propagate_one. cbv zeta.
  repeat match goal with
         | |- evolves _ _ (if ?c then _ else _) => destruct c
         end;
    first [ apply evolves_refl
          | now apply add_one_to_white_wins_evolves
          | now apply add_one_to_black_wins_evolves
          | now apply white_wins_evolves
          | now apply black_wins_evolves ].
Qed.

(** The loops of a propagation from [parent_index], under a property [P]
    of the state that the stores keep and that makes the mate-in count
    handed on an admissible one. *)
Lemma propagate_piece_evolves (P : state -> Prop) parent_index parent :
  (forall s s', P s -> evolves R s s' -> P s') ->
  (forall s, P s -> okM (get_mate_in_count (tb s) parent_index + 1)) ->
  forall st piece,
    P st -> evolves R st (propagate_piece parent_index parent st piece).
Proof.
  intros HP HM st piece Hst. unfold propagate_piece.
  destruct (_ =? _); [apply evolves_refl|].
  apply (fold_left_evolves P); [exact HP | | exact Hst].
  intros s dir Hs.
  apply (fold_left_evolves P); [exact HP | | exact Hs].
  intros s1 m Hs1. apply propagate_one_evolves. now apply HM.
Qed.

Lemma propagate_move_within_table_evolves (P : state -> Prop)
    st parent_index mate_in_count :
  (forall s s', P s -> evolves R s s' -> P s') ->
  (forall s, P s -> okM (get_mate_in_count (tb s) parent_index + 1)) ->
  (forall s, tb s = tb st -> P (mark_propagated s parent_index)) ->
  evolves R st (propagate_move_within_table st parent_index mate_in_count)
  /\ P (propagate_move_within_table st parent_index mate_in_count).
Proof.
  intros HP HM H3. unfold propagate_move_within_table. cbv zeta.
  match goal with
  | |- context [fold_left _ _ (mark_propagated ?s _)] => set (st2 := s)
  end.
  assert (T2 : tb st2 = tb st).
  { subst st2.
    repeat match goal with
           | |- context [if ?c then _ else _] => destruct c
           end; reflexivity. }
  assert (E2 : evolves R st st2).
  { split; [unfold same_header; rewrite T2; repeat split|].
    intros i e He. rewrite T2. exists e. auto. }
  match goal with
  | |- evolves R st ?r /\ _ =>
    assert (E3 : evolves R (mark_propagated st2 parent_index) r)
  end.
  { apply (fold_left_evolves P); [exact HP | | now apply H3].
    intros s piece Hs. now apply (propagate_piece_evolves P). }
  split.
  - eapply evolves_trans; [exact E2|].
    eapply evolves_trans; [apply mark_propagated_evolves | exact E3].
  - eapply HP; [apply H3; exact T2 | exact E3].
Qed.

End Evolution.

(** ** A recorded win stays *)

Ltac flag_values :=
  unfold records_win, PTM_WINS_PROPAGATION_DONE, PNTM_WINS_PROPAGATION_DONE,
    PTM_WINS_PROPAGATION_NEEDED, PNTM_WINS_PROPAGATION_NEEDED,
    MAX_MOVECNT, ILLEGAL_POSITION in *.

Lemma verdict_kept_refl e : verdict_kept e e.
Proof. intros _. auto. Qed.

Lemma verdict_kept_trans e1 e2 e3 :
  verdict_kept e1 e2 -> verdict_kept e2 e3 -> verdict_kept e1 e3.
Proof.
  unfold verdict_kept. intros H1 H2 W.
  destruct (H1 W) as (A1 & B1 & C1 & D1). clear H1.
  assert (W2 : records_win e2).
  { unfold records_win in *.
    destruct D1 as [D | [[D D'] | [D D']]]; rewrite ?D, ?D'; tauto. }
  destruct (H2 W2) as (A2 & B2 & C2 & D2). clear H2.
  split; [congruence|]. split; [congruence|]. split; [congruence|].
  clear A1 A2 B1 B2 C1 C2 W W2. flag_values.
  destruct D1 as [D | [[D D'] | [D D']]], D2 as [E | [[E E'] | [E E']]];
    rewrite ?E, ?E', ?D, ?D' in *; try discriminate; auto.
Qed.

Lemma verdict_kept_marked_ptm e :
  movecnt e = PTM_WINS_PROPAGATION_NEEDED ->
  verdict_kept e (set_movecnt PTM_WINS_PROPAGATION_DONE e).
Proof.
  intros E _. unfold set_movecnt.
  cbn [movecnt mate_in_cnt stalemate_cnt reserved].
  repeat split. right. left. split; [exact E | reflexivity].
Qed.

Lemma verdict_kept_marked_pntm e :
  movecnt e = PNTM_WINS_PROPAGATION_NEEDED ->
  verdict_kept e (set_movecnt PNTM_WINS_PROPAGATION_DONE e).
Proof.
  intros E _. unfold set_movecnt.
  cbn [movecnt mate_in_cnt stalemate_cnt reserved].
  repeat split. right. right. split; [exact E | reflexivity].
Qed.

Lemma verdict_kept_won e v mate_in_count stalemate_count :
  True -> ~ records_win e ->
  v = PTM_WINS_PROPAGATION_NEEDED \/ v = PNTM_WINS_PROPAGATION_NEEDED ->
  verdict_kept e (record_win v mate_in_count stalemate_count e).
Proof. intros _ N _ W. contradiction. Qed.

Lemma verdict_kept_counted e mate_in_count stalemate_count :
  True -> movecnt e <> 0 -> movecnt e <= MAX_MOVECNT ->
  verdict_kept e (count_down mate_in_count stalemate_count e).
Proof. intros _ N L W. flag_values. lia. Qed.

Lemma propagate_move_within_table_verdicts st parent_index mate_in_count :
  evolves verdict_kept st
    (propagate_move_within_table st parent_index mate_in_count).
Proof.
  apply (propagate_move_within_table_evolves verdict_kept (fun _ => True)
           verdict_kept_refl verdict_kept_trans verdict_kept_marked_ptm
           verdict_kept_marked_pntm verdict_kept_won verdict_kept_counted
           (fun _ => True)); auto.
Qed.

Lemma main_scan_verdicts moves_to_win l :
  forall st progress_made,
    evolves verdict_kept st
      (fst (fold_left (main_scan_index moves_to_win) l (st, progress_made))).
Proof.
  induction l as [|i l IH]; intros st pm; cbn [fold_left];
    [apply (evolves_refl _ verdict_kept_refl)|].
  unfold main_scan_index at 2.
  destruct (_ && _).
  - eapply (evolves_trans _ verdict_kept_trans); [|apply IH].
    eapply (evolves_trans _ verdict_kept_trans);
      [|apply propagate_move_within_table_verdicts].
    destruct (pm =? 0);
      [apply (fprintf_evolves _ verdict_kept_refl)
      | apply (evolves_refl _ verdict_kept_refl)].
  - apply IH.
Qed.

Lemma main_pass_verdicts max_index_static moves_to_win st :
  evolves verdict_kept st (fst (main_pass max_index_static moves_to_win st)).
Proof.
  unfold main_pass.
  pose proof (main_scan_verdicts moves_to_win (seqZ 0 max_index_static) st 0)
    as E.
  destruct (fold_left _ _ _) as [st' pm]. cbn [fst] in *.
  eapply (evolves_trans _ verdict_kept_trans); [exact E|].
  apply (fprintf_evolves _ verdict_kept_refl).
Qed.

Lemma main_loop_verdicts max_index_static max_moves_to_win fuel :
  forall st moves_to_win progress_made,
    evolves verdict_kept st
      (fst (main_loop fuel max_index_static max_moves_to_win st
              moves_to_win progress_made)).
Proof.
  induction fuel as [|fuel IH]; intros st mtw pm; cbn [main_loop];
    destruct (_ || _); cbn [fst];
    try apply (evolves_refl _ verdict_kept_refl).
  pose proof (main_pass_verdicts max_index_static mtw st) as E.
  destruct (main_pass max_index_static mtw st) as [st' pm']. cbn [fst] in E.
  eapply (evolves_trans _ verdict_kept_trans); [exact E | apply IH].
Qed.

Lemma evolves_in_table R st st' j :
  evolves R st st' -> in_table (tb st) j ->
  in_table (tb st') j
  /\ R (entry_at (tb st) j) (entry_at (tb st') j).
Proof.
  intros [(_ & _ & _ & L) E] Hr. split; [unfold in_table; now rewrite L|].
  destruct (in_table_lookup _ _ Hr) as (e & He & ->).
  destruct (E _ _ He) as (e' & He' & Hre).
  now rewrite (entry_at_lookup _ _ _ He').
Qed.

(** What [verdict_kept] means for the readers of the table. *)
Lemma verdict_kept_readers st st' j :
  evolves verdict_kept st st' ->
  in_table (tb st) j ->
  records_win (entry_at (tb st) j) ->
  same_verdict (tb st) (tb st') j
  /\ records_win (entry_at (tb st') j)
  /\ (needs_propagation (tb st) j = false ->
      entry_at (tb st') j = entry_at (tb st) j).
Proof.
  intros E Hr W. destruct (evolves_in_table _ _ _ _ E Hr) as [_ V].
  specialize (V W). destruct V as (A & B & C & D).
  unfold same_verdict, does_white_win, does_black_win, get_mate_in_count,
    get_stalemate_count, needs_propagation.
  rewrite A, B.
  set (e := entry_at (tb st) j) in *. set (e' := entry_at (tb st') j) in *.
  clearbody e e'. flag_values.
  split; [|split].
  - destruct D as [D | [[D1 D2] | [D1 D2]]]; rewrite ?D, ?D1, ?D2;
      [repeat split|..]; destruct (WHITE_TO_MOVE j), (BLACK_TO_MOVE j);
      repeat split.
  - lia.
  - intros N. apply orb_false_elim in N. destruct N as [N1 N2].
    apply Z.eqb_neq in N1, N2.
    destruct e as [a b c d], e' as [a' b' c' d']. cbn [movecnt mate_in_cnt stalemate_cnt reserved] in *.
    f_equal; lia.
Qed.

(** X14: a propagation from any index leaves every recorded win of the
    table in place: at an index whose entry records a win,
    [does_white_win], [does_black_win], [get_mate_in_count] and
    [get_stalemate_count] return afterwards what they returned before,
    and the entry is unchanged when it was already propagated. *)
Theorem propagation_keeps_recorded_wins (st : state)
    (parent_index mate_in_count j : Z) :
  in_table (tb st) j ->
  records_win (entry_at (tb st) j) ->
  let st' := propagate_move_within_table st parent_index mate_in_count in
  same_verdict (tb st) (tb st') j
  /\ records_win (entry_at (tb st') j)
  /\ (needs_propagation (tb st) j = false ->
      entry_at (tb st') j = entry_at (tb st) j).
Proof.
  intros Hr W. cbv zeta. apply verdict_kept_readers; [|exact Hr | exact W].
  apply propagate_move_within_table_verdicts.
Qed.

Lemma propagation_keeps_recorded_wins_witness :
  same_verdict (tb sample_won)
    (tb (propagate_move_within_table sample_won 1 3)) 0.
Proof.
  apply (propagation_keeps_recorded_wins sample_won 1 3 0).
  - unfold in_table. simpl. lia.
  - right. left. reflexivity.
Defined.

(** X15: the passes of [main] leave every recorded win in place: whatever
    the number of passes, an index whose entry records a win when the loop
    starts keeps its winner, its mate-in count and its stalemate count,
    and an entry that was already propagated is unchanged. *)
Theorem passes_keep_recorded_wins (fuel : nat)
    (max_index_static max_moves_to_win : Z) (st : state)
    (moves_to_win progress_made j : Z) :
  in_table (tb st) j ->
  records_win (entry_at (tb st) j) ->
  let st' := fst (main_loop fuel max_index_static max_moves_to_win st
                    moves_to_win progress_made) in
  same_verdict (tb st) (tb st') j
  /\ records_win (entry_at (tb st') j)
  /\ (needs_propagation (tb st) j = false ->
      entry_at (tb st') j = entry_at (tb st) j).
Proof.
  intros Hr W. cbv zeta. apply verdict_kept_readers; [|exact Hr | exact W].
  apply main_loop_verdicts.
Qed.

Lemma passes_keep_recorded_wins_witness :
  same_verdict (tb sample_won)
    (tb (fst (main_loop 2 4 1 sample_won 2 1))) 1.
Proof.
  apply (passes_keep_recorded_wins 2 4 1 sample_won 2 1 1).
  - unfold in_table. simpl. lia.
  - left. reflexivity.
Defined.

(** ** The passes of [main] leave nothing to propagate *)

Lemma verdict_kept_final e e' :
  verdict_kept e e' -> propagated e = true -> e' = e.
Proof.
  unfold verdict_kept, propagated. intros V Hp.
  apply orb_true_iff in Hp. rewrite !Z.eqb_eq in Hp.
  destruct V as (A & B & C & D); [flag_values; lia|].
  destruct e as [a b c d], e' as [a' b' c' d'].
  cbn [movecnt mate_in_cnt stalemate_cnt reserved] in *.
  flag_values. f_equal; lia.
Qed.

Lemma pass_step_refl m e : pass_step m e e.
Proof. split; [apply verdict_kept_refl | auto]. Qed.

Lemma pass_step_trans m e1 e2 e3 :
  pass_step m e1 e2 -> pass_step m e2 e3 -> pass_step m e1 e3.
Proof.
  intros [V1 N1] [V2 N2]. split; [eapply verdict_kept_trans; eassumption|].
  intros N3. destruct (N2 N3) as [-> | M]; [|now right].
  destruct (N1 N3) as [-> | M]; auto.
Qed.

Lemma pass_step_marked_ptm m e :
  movecnt e = PTM_WINS_PROPAGATION_NEEDED ->
  pass_step m e (set_movecnt PTM_WINS_PROPAGATION_DONE e).
Proof.
  intros E. split; [now apply verdict_kept_marked_ptm|]. discriminate.
Qed.

Lemma pass_step_marked_pntm m e :
  movecnt e = PNTM_WINS_PROPAGATION_NEEDED ->
  pass_step m e (set_movecnt PNTM_WINS_PROPAGATION_DONE e).
Proof.
  intros E. split; [now apply verdict_kept_marked_pntm|]. discriminate.
Qed.

Lemma pass_step_won m e v mate_in_count stalemate_count :
  to_uchar mate_in_count = to_uchar (m + 1) -> ~ records_win e ->
  v = PTM_WINS_PROPAGATION_NEEDED \/ v = PNTM_WINS_PROPAGATION_NEEDED ->
  pass_step m e (record_win v mate_in_count stalemate_count e).
Proof.
  intros Hm N Hv. split; [now apply verdict_kept_won|].
  intros _. right. exact Hm.
Qed.

Lemma pass_step_counted m e mate_in_count stalemate_count :
  to_uchar mate_in_count = to_uchar (m + 1) ->
  movecnt e <> 0 -> movecnt e <= MAX_MOVECNT ->
  pass_step m e (count_down mate_in_count stalemate_count e).
Proof.
  intros Hm N L. split; [now apply verdict_kept_counted|].
  intros _. right. rewrite <- Hm. unfold count_down.
  destruct (_ <? _); reflexivity.
Qed.

Lemma needs_propagation_reads t j :
  needs_propagation t j = true ->
  get_mate_in_count t j = mate_in_cnt (entry_at t j)
  /\ propagated (entry_at t j) = false
  /\ records_win (entry_at t j).
Proof.
  unfold needs_propagation, get_mate_in_count, propagated, records_win.
  intros N. apply orb_true_iff in N. rewrite !Z.eqb_eq in N.
  destruct N as [E | E]; rewrite E; repeat split; auto.
Qed.

Lemma propagated_reads t j :
  propagated (entry_at t j) = true ->
  get_mate_in_count t j = mate_in_cnt (entry_at t j)
  /\ needs_propagation t j = false.
Proof.
  unfold needs_propagation, get_mate_in_count, propagated. intros N.
  apply orb_true_iff in N. rewrite !Z.eqb_eq in N.
  destruct N as [E | E]; rewrite E; split; reflexivity.
Qed.

Lemma mark_propagated_entry st index :
  in_table (tb st) index ->
  needs_propagation (tb st) index = true ->
  in_table (tb (mark_propagated st index)) index
  /\ propagated (entry_at (tb (mark_propagated st index)) index) = true
  /\ mate_in_cnt (entry_at (tb (mark_propagated st index)) index)
     = mate_in_cnt (entry_at (tb st) index).
Proof.
  intros Hr N. unfold mark_propagated, needs_propagation in *.
  assert (L : forall f, in_table (tb (store st index f)) index).
  { intros f. unfold in_table, store. cbn [tb entries].
    now rewrite length_alter. }
  destruct (movecnt (entry_at (tb st) index) =? PTM_WINS_PROPAGATION_NEEDED).
  - split; [apply L|]. now rewrite entry_at_store.
  - cbn [orb] in N. rewrite N. split; [apply L|]. now rewrite entry_at_store.
Qed.

(** A propagation of pass [m], from an entry of the table that is due. *)
Lemma propagate_move_within_table_pass st parent_index m mate_in_count :
  in_table (tb st) parent_index ->
  needs_propagation (tb st) parent_index = true ->
  get_mate_in_count (tb st) parent_index = m ->
  evolves (pass_step m) st
    (propagate_move_within_table st parent_index mate_in_count)
  /\ needs_propagation
       (tb (propagate_move_within_table st parent_index mate_in_count))
       parent_index = false.
Proof.
  intros Hr N Hm.
  destruct (needs_propagation_reads _ _ N) as (G & _ & _).
  rewrite G in Hm.
  set (P := fun s : state =>
              in_table (tb s) parent_index
              /\ propagated (entry_at (tb s) parent_index) = true
              /\ mate_in_cnt (entry_at (tb s) parent_index) = m).
  destruct (propagate_move_within_table_evolves (pass_step m)
              (fun M => to_uchar M = to_uchar (m + 1))
              (pass_step_refl m) (pass_step_trans m)
              (pass_step_marked_ptm m) (pass_step_marked_pntm m)
              (pass_step_won m) (pass_step_counted m)
              P st parent_index mate_in_count) as [E Pst].
  - unfold P. intros s s' (Hs & Pp & Mm) Ev.
    destruct (evolves_in_table _ _ _ _ Ev Hs) as [Hs' [V _]].
    rewrite (verdict_kept_final _ _ V Pp).
    split; [exact Hs' | split; [exact Pp | exact Mm]].
  - unfold P. intros s (Hs & Pp & Mm).
    destruct (propagated_reads _ _ Pp) as [-> _]. now rewrite Mm.
  - unfold P. intros s Hs.
    destruct (mark_propagated_entry s parent_index) as (A & B & C);
      [now rewrite Hs | now rewrite Hs|].
    split; [exact A | split; [exact B | now rewrite C, Hs]].
  - destruct Pst as (_ & Pp & _). split; [exact E|].
    now apply propagated_reads.
Qed.

(** The scan of pass [m], after [k] indices: every entry below
    [max_index_static] that needs propagation holds [m + 1], or lies
    ahead and holds [m]. *)
Lemma main_scan_pass m max_index_static st (k : nat) :
  0 <= m <= 255 ->
  max_index_static <= Z.of_nat (length (entries (tb st))) ->
  pending_at m max_index_static st ->
  Z.of_nat k <= max_index_static ->
  let r := fold_left (main_scan_index m) (seqZ 0 (Z.of_nat k)) (st, 0) in
  same_header st (fst r)
  /\ 0 <= snd r
  /\ (snd r = 0 -> tb (fst r) = tb st)
  /\ (forall j, 0 <= j < max_index_static ->
        needs_propagation (tb (fst r)) j = true ->
        mate_in_cnt (entry_at (tb (fst r)) j) = to_uchar (m + 1)
        \/ (Z.of_nat k <= j /\ mate_in_cnt (entry_at (tb (fst r)) j) = m)).
Proof.
  intros Hm Hmax Hp. induction k as [|k IH]; intros Hk; cbv zeta.
  - rewrite seqZ_nil by lia. cbn [fold_left fst snd].
    split; [apply same_header_refl|].
    split; [lia|]. split; [reflexivity|].
    intros j Hj N. right. split; [lia|].
    rewrite (Hp j Hj N). unfold to_uchar. apply Z.mod_small. lia.
  - rewrite seqZ_S, fold_left_app. cbn [fold_left].
    specialize (IH ltac:(lia)). cbv zeta in IH.
    destruct (fold_left (main_scan_index m) (seqZ 0 (Z.of_nat k)) (st, 0))
      as [s pm]. cbn [fst snd] in IH.
    destruct IH as (H & Hpm & Hsame & A).
    replace (0 + Z.of_nat k) with (Z.of_nat k) by lia.
    assert (Hr : in_table (tb s) (Z.of_nat k)).
    { destruct H as (_ & _ & _ & L). unfold in_table. rewrite L. lia. }
    unfold main_scan_index.
    destruct (needs_propagation (tb s) (Z.of_nat k)) eqn:N; cbn [andb].
    + destruct (Z.eqb_spec (get_mate_in_count (tb s) (Z.of_nat k)) m)
        as [G | G].
      * set (s0 := if pm =? 0 then _ else s).
        assert (T0 : tb s0 = tb s)
          by (subst s0; destruct (pm =? 0); reflexivity).
        destruct (propagate_move_within_table_pass s0 (Z.of_nat k) m m)
          as [Ev Nk]; rewrite ?T0; try assumption.
        set (s' := propagate_move_within_table s0 (Z.of_nat k) m) in *.
        cbn [fst snd]. split.
        { apply (same_header_trans _ s _ H).
          destruct Ev as [Hh _]. unfold same_header in *.
          rewrite T0 in Hh. exact Hh. }
        split; [lia|]. split; [lia|].
        intros j Hj Nj.
        assert (Hrj : in_table (tb s0) j).
        { rewrite T0. destruct H as (_ & _ & _ & L).
          unfold in_table. rewrite L. lia. }
        destruct (evolves_in_table _ _ _ _ Ev Hrj) as [_ [_ S]].
        unfold needs_propagation in Nj. fold (entry_needs_propagation
          (entry_at (tb s') j)) in Nj.
        destruct (S Nj) as [Eq | Eq]; [|left; exact Eq].
        rewrite Eq in Nj |- *. rewrite T0 in Nj |- *.
        destruct (A j Hj Nj) as [M | [Hkj M]]; [left; exact M|].
        right. split; [|exact M].
        destruct (Z.eq_dec j (Z.of_nat k)) as [-> | Hne]; [|lia].
        exfalso. unfold needs_propagation in Nk.
        fold (entry_needs_propagation (entry_at (tb s') (Z.of_nat k))) in Nk.
        rewrite Eq, T0 in Nk. unfold entry_needs_propagation in Nk, Nj.
        congruence.
      * cbn [fst snd]. split; [exact H|]. split; [exact Hpm|].
        split; [exact Hsame|].
        intros j Hj Nj. destruct (A j Hj Nj) as [M | [Hkj M]];
          [left; exact M|].
        destruct (Z.eq_dec j (Z.of_nat k)) as [-> | Hne];
          [|right; split; [lia | exact M]].
        exfalso. apply G.
        destruct (needs_propagation_reads _ _ N) as [-> _]. exact M.
    + cbn [fst snd]. split; [exact H|]. split; [exact Hpm|].
      split; [exact Hsame|].
      intros j Hj Nj. destruct (A j Hj Nj) as [M | [Hkj M]];
        [left; exact M|].
      destruct (Z.eq_dec j (Z.of_nat k)) as [-> | Hne];
        [congruence | right; split; [lia | exact M]].
Qed.

(** A pass [m] that starts with every entry due in it: those that need
    propagation when it ends are due in pass [m + 1], and when it has
    made no progress there are none. *)
Lemma main_pass_pending m max_index_static st :
  0 <= m <= 255 ->
  max_index_static <= Z.of_nat (length (entries (tb st))) ->
  pending_at m max_index_static st ->
  let r := main_pass max_index_static m st in
  same_header st (fst r)
  /\ pending_at (m + 1) max_index_static (fst r)
  /\ (snd r = 0 -> propagation_complete max_index_static (fst r)).
Proof.
  intros Hm Hmax Hp. cbv zeta. unfold main_pass.
  destruct (Z.le_gt_cases 0 max_index_static) as [Hpos | Hneg].
  - pose proof (main_scan_pass m max_index_static st
                  (Z.to_nat max_index_static) Hm Hmax Hp ltac:(lia)) as S.
    cbv zeta in S. rewrite Z2Nat.id in S by exact Hpos.
    destruct (fold_left _ _ _) as [s pm]. cbn [fst snd fprintf tb] in *.
    destruct S as (H & Hpm & Hsame & A).
    split; [exact H|]. split.
    + intros j Hj N. destruct (A j Hj N) as [M | [Hkj M]]; [exact M | lia].
    + intros -> j Hj. specialize (Hsame eq_refl).
      rewrite ?fprintf_tb, Hsame in *.
      destruct (needs_propagation (tb st) j) eqn:N; [|reflexivity].
      exfalso. pose proof (Hp j Hj N) as M0.
      destruct (A j Hj N) as [M | [Hkj M]]; [|lia].
      rewrite M in M0. unfold to_uchar in M0.
      rewrite (Z.mod_small m) in M0 by lia.
      destruct (Z.eq_dec m 255) as [-> | Hne]; [discriminate|].
      rewrite Z.mod_small in M0 by lia. lia.
  - rewrite (seqZ_nil 0 max_index_static) by lia.
    cbn [fold_left fst snd].
    split; [repeat split|].
    split; [|intros _]; intros j Hj; lia.
Qed.

(** The loop of [main], started at pass [moves_to_win] with every entry
    below [max_index_static] that needs propagation due in that pass:
    when it ends within the passes that an unsigned char numbers, no
    entry below [max_index_static] needs propagation. *)
Lemma main_loop_complete max_index_static max_moves_to_win (fuel : nat) :
  forall st moves_to_win progress_made,
    0 <= moves_to_win ->
    moves_to_win + Z.of_nat fuel <= 256 ->
    max_index_static <= Z.of_nat (length (entries (tb st))) ->
    pending_at moves_to_win max_index_static st ->
    (progress_made = 0 -> propagation_complete max_index_static st) ->
    snd (main_loop fuel max_index_static max_moves_to_win st
           moves_to_win progress_made) = true ->
    propagation_complete max_index_static
      (fst (main_loop fuel max_index_static max_moves_to_win st
              moves_to_win progress_made)).
Proof.
  induction fuel as [|fuel IH]; intros st mtw pm H0 Hf Hmax Hp Hc;
    cbn [main_loop];
    destruct (negb (pm =? 0) || (mtw <? max_moves_to_win)) eqn:C;
    cbn [fst snd]; try discriminate.
  - intros _. apply Hc. apply orb_false_elim in C. destruct C as [C _].
    apply negb_false_iff, Z.eqb_eq in C. exact C.
  - pose proof (main_pass_pending mtw max_index_static st ltac:(lia) Hmax Hp)
      as S. cbv zeta in S.
    destruct (main_pass max_index_static mtw st) as [st' pm'].
    cbn [fst snd] in S. destruct S as ((_ & _ & _ & L) & Hp' & Hc').
    apply IH; try assumption; lia.
  - intros _. apply Hc. apply orb_false_elim in C. destruct C as [C _].
    apply negb_false_iff, Z.eqb_eq in C. exact C.
Qed.

(** X16: the loop of [main] leaves nothing to propagate.  Started at pass
    [moves_to_win] with a progress count that is not 0 (as [main] starts
    it) on a table in which every entry below [max_index_static] that
    needs propagation holds the mate-in count [moves_to_win], when the
    loop ends within the passes 0..255 (the mate-in counts an unsigned
    char holds), no entry below [max_index_static] needs propagation. *)
Theorem passes_complete_propagation (fuel : nat)
    (max_index_static max_moves_to_win : Z) (st : state)
    (moves_to_win progress_made : Z) :
  0 <= moves_to_win ->
  moves_to_win + Z.of_nat fuel <= 256 ->
  max_index_static <= Z.of_nat (length (entries (tb st))) ->
  pending_at moves_to_win max_index_static st ->
  progress_made <> 0 ->
  snd (main_loop fuel max_index_static max_moves_to_win st
         moves_to_win progress_made) = true ->
  propagation_complete max_index_static
    (fst (main_loop fuel max_index_static max_moves_to_win st
            moves_to_win progress_made)).
Proof.
  intros H0 Hf Hmax Hp Hpm. apply main_loop_complete; try assumption.
  intros E. contradiction.
Qed.

Lemma passes_complete_propagation_witness :
  propagation_complete 3 (fst (main_loop 2 3 1 sample_won 3 1)).
Proof.
  apply (passes_complete_propagation 2 3 1 sample_won 3 1).
  - lia.
  - lia.
  - simpl. lia.
  - intros j Hj N.
    assert (C : j = 0 \/ j = 1 \/ j = 2) by lia.
    destruct C as [-> | [-> | ->]]; [discriminate N | reflexivity
                                    | discriminate N].
  - discriminate.
  - vm_compute. reflexivity.
Defined.




(** * Propagation writes at indices that decode *)

Lemma placed_board_bounds t k p :
  1 <= k -> placed t k p -> 0 < board_vector p < 2 ^ 64.
Proof.
  intros Hk (Hon & _ & Hb & _).
  assert (Hhigh : forall b, 64 <= b -> Z.testbit (board_vector p) b = false).
  { intros b Hb64. destruct (Z.testbit (board_vector p) b) eqn:E;
      [|reflexivity].
    apply Hb in E. destruct E as (j & Hj & Ej).
    specialize (Hon j Hj). unfold NUM_SQUARES in Hon. lia. }
  assert (Hnn : 0 <= board_vector p).
  { destruct (Z.le_gt_cases 0 (board_vector p)) as [L | G]; [exact L|].
    exfalso. apply Z.bits_iff_neg_ex in G. destruct G as [c Hc].
    specialize (Hc (Z.max (c + 1) 64) ltac:(lia)).
    rewrite Hhigh in Hc by lia. discriminate. }
  assert (Hset : Z.testbit (board_vector p) (mobile p 0) = true)
    by (apply Hb; exists 0; split; [lia | reflexivity]).
  assert (Hnz : board_vector p <> 0).
  { intros Z0. rewrite Z0, Z.bits_0 in Hset. discriminate. }
  split; [lia|].
  apply Z.log2_lt_pow2; [lia|].
  destruct (Z.lt_ge_cases (Z.log2 (board_vector p)) 64) as [L | G];
    [exact L|].
  pose proof (Z.bit_log2 (board_vector p) ltac:(lia)) as T.
  rewrite Hhigh in T by exact G. discriminate.
Qed.

Lemma decoded_position_length t index b p :
  index_to_position t index = (b, p) ->
  length (mobile_piece_position p) = 8%nat.
Proof.
  unfold index_to_position. intros Hdec.
  destruct (Z.le_gt_cases 0 (num_mobiles t)) as [Hn | Hn].
  - rewrite <- (Z2Nat.id (num_mobiles t)) in Hdec by lia.
    apply index_to_position_loop_spec in Hdec; [|lia].
    destruct Hdec as (_ & -> & _). reflexivity.
  - rewrite seqZ_nil in Hdec by lia. cbn [index_to_position_loop] in Hdec.
    injection Hdec as _ <-. reflexivity.
Qed.

(** The index built for a move back along a scanned ray decodes: the
    piece goes to a free square of the board. *)
Lemma predecessor_index_decodes t index p piece dir m :
  plain_header t ->
  index_to_position t index = (true, p) ->
  0 <= piece < num_mobiles t ->
  In dir (directions_of (zget 0 (mobile_piece_type t) piece)) ->
  In m (fst (scan (movements (zget 0 (mobile_piece_type t) piece)
                     (mobile p piece) dir) (board_vector p))) ->
  fst (index_to_position t
         (position_to_index t (predecessor p piece (square m)))) = true.
Proof.
  intros [Hn Hty] Hdec Hpiece Hdir Hin.
  pose proof (decoded_position_length _ _ _ _ Hdec) as Hlen.
  destruct (decoded_position_placed t index p ltac:(unfold MAX_MOBILES; lia)
              Hdec) as (Hs & _ & Hpl & _).
  pose proof (placed_board_bounds t (num_mobiles t) p ltac:(lia) Hpl) as Hocc.
  destruct Hpl as (Hon & Hdis & Hb & _).
  unfold directions_of in Hdir.
  apply list_elem_of_In, elem_of_seqZ in Hdir.
  destruct (scan_cells_free (zget 0 (mobile_piece_type t) piece)
              (mobile p piece) dir (board_vector p) m
              (Hty piece Hpiece) (Hon piece Hpiece)
              ltac:(lia) Hocc Hin) as [[Hsq _] Hfree].
  assert (Hother : forall j, 0 <= j < num_mobiles t ->
            mobile p j <> square m).
  { intros j Hj E.
    assert (T : Z.testbit (board_vector p) (square m) = true)
      by (apply Hb; exists j; auto).
    congruence. }
  assert (Hc : forall j, 0 <= j < num_mobiles t ->
            mobile (predecessor p piece (square m)) j
            = if j =? piece then square m else mobile p j).
  { intros j Hj. unfold predecessor.
    destruct (Z.eqb_spec j piece) as [-> | Hne].
    - apply mobile_set_mobile_eq. cbn [set_side_to_move mobile_piece_position].
      rewrite Hlen. lia.
    - rewrite mobile_set_mobile_ne by lia. reflexivity. }
  apply position_index_position.
  - lia.
  - unfold predecessor. cbn [set_mobile set_side_to_move side_to_move].
    destruct (_ =? _); unfold BLACK, WHITE; lia.
  - intros j Hj. rewrite (Hc j Hj).
    destruct (j =? piece); [exact Hsq | now apply Hon].
  - intros j k Hjk Hk. rewrite (Hc j), (Hc k) by lia.
    destruct (Z.eqb_spec j piece) as [-> | Hj],
             (Z.eqb_spec k piece) as [-> | Hk']; try lia.
    + intros E. apply (Hother k); [lia | congruence].
    + apply Hother. lia.
    + apply Hdis; lia.
Qed.

Lemma plain_header_same st st' :
  same_header st st' -> plain_header (tb st) -> plain_header (tb st').
Proof.
  intros (Hn & Ht & _) [A B]. unfold plain_header. rewrite Hn, Ht. auto.
Qed.

Section PropagationDecodes.

Variables (j parent_index : Z) (parent : position) (st0 : state).
Hypothesis Hj : 0 <= j.
Hypothesis Hplain : plain_header (tb st0).
Hypothesis Hparent : index_to_position (tb st0) parent_index = (true, parent).
Hypothesis Hundec : fst (index_to_position (tb st0) j) = false.

Lemma propagate_piece_undecodable st piece :
  same_header st0 st -> 0 <= piece < num_mobiles (tb st0) ->
  kept j st (propagate_piece parent_index parent st piece).
Proof.
  intros H0 Hp. unfold propagate_piece.
  destruct (_ =? _); [apply kept_refl|].
  apply (fold_left_kept_inv _ (same_header st0)).
  - intros s s' Hs Hss. eapply same_header_trans; eassumption.
  - intros s dir Hs Hdir. apply (fold_left_kept_inv _ (same_header st0)).
    + intros s1 s2 H1 H12. eapply same_header_trans; eassumption.
    + intros s1 m H1 Hin. apply propagate_one_kept; [exact Hj|].
      intros E.
      pose proof H0 as (_ & Ht0 & _). pose proof Hs as (_ & Hts & _).
      rewrite Ht0 in Hdir. rewrite Hts in Hin.
      pose proof (predecessor_index_decodes (tb st0) parent_index parent
                    piece dir m Hplain Hparent Hp Hdir Hin) as D.
      unfold predecessor in D.
      assert (Ei : position_to_index (tb s1)
                     (set_mobile
                        (set_side_to_move parent
                           (if side_to_move parent =? WHITE
                            then BLACK else WHITE)) piece (square m))
                   = position_to_index (tb st0)
                       (set_mobile
                          (set_side_to_move parent
                             (if side_to_move parent =? WHITE
                              then BLACK else WHITE)) piece (square m))).
      { unfold position_to_index. destruct H1 as (-> & _). reflexivity. }
      rewrite Ei in E. rewrite E in D. congruence.
    + exact Hs.
  - exact H0.
Qed.

End PropagationDecodes.

Lemma propagate_move_within_table_undecodable st parent_index mate_in_count j :
  plain_header (tb st) ->
  0 <= parent_index ->
  fst (index_to_position (tb st) parent_index) = true ->
  0 <= j ->
  fst (index_to_position (tb st) j) = false ->
  kept j st (propagate_move_within_table st parent_index mate_in_count).
Proof.
  intros Hplain Hi Hdec Hj Hundec.
  assert (Hne : parent_index <> j) by (intros ->; congruence).
  unfold propagate_move_within_table. cbv zeta.
  match goal with
  | |- kept _ _ (fold_left _ _ (mark_propagated ?s _)) => set (st2 := s)
  end.
  assert (K2 : kept j st st2).
  { subst st2.
    repeat match goal with
           | |- context [if ?c then _ else _] => destruct c
           end;
      repeat (eapply kept_trans; [|apply fprintf_kept]); apply kept_refl. }
  set (st3 := mark_propagated st2 parent_index).
  assert (K3 : kept j st st3).
  { eapply kept_trans; [exact K2|]. apply mark_propagated_kept; lia. }
  eapply kept_trans; [exact K3|].
  destruct K3 as [H3 _].
  rewrite (index_to_position_header st st3 parent_index H3).
  destruct (index_to_position (tb st) parent_index) as [b parent] eqn:E.
  cbn [fst snd] in *. subst b.
  pose proof H3 as (Hn3 & _). rewrite Hn3.
  apply (fold_left_kept_inv _ (same_header st)).
  - intros s s' Hs Hss. eapply same_header_trans; eassumption.
  - intros s piece Hs Hin. apply list_elem_of_In, elem_of_seqZ in Hin.
    apply (propagate_piece_undecodable j parent_index parent st);
      try assumption; lia.
  - exact H3.
Qed.

Lemma undecodable_illegal_kept max_index_static st st' :
  same_header st st' ->
  (forall j, 0 <= j -> fst (index_to_position (tb st) j) = false ->
     kept j st st') ->
  undecodable_illegal max_index_static st ->
  undecodable_illegal max_index_static st'.
Proof.
  intros H K I j Hj D. rewrite (index_to_position_header st st' j H) in D.
  rewrite (kept_entry_at _ _ _ (K j ltac:(lia) D)). now apply I.
Qed.

Lemma main_scan_index_undecodable max_index_static moves_to_win st pm i :
  plain_header (tb st) ->
  0 <= i < max_index_static ->
  undecodable_illegal max_index_static st ->
  same_header st (fst (main_scan_index moves_to_win (st, pm) i))
  /\ forall j, 0 <= j -> fst (index_to_position (tb st) j) = false ->
       kept j st (fst (main_scan_index moves_to_win (st, pm) i)).
Proof.
  intros Hplain Hi I. unfold main_scan_index.
  destruct (needs_propagation (tb st) i) eqn:N; cbn [andb];
    [destruct (_ =? moves_to_win)|]; cbn [fst];
    try (split; [apply same_header_refl | intros; apply kept_refl]).
  assert (D : fst (index_to_position (tb st) i) = true).
  { destruct (fst (index_to_position (tb st) i)) eqn:D; [reflexivity|].
    pose proof (I i Hi D) as M. unfold needs_propagation in N.
    rewrite M in N. discriminate. }
  set (s0 := if pm =? 0 then _ else st).
  assert (T0 : tb s0 = tb st) by (subst s0; destruct (pm =? 0); reflexivity).
  assert (K0 : forall j, kept j st s0).
  { intros j. subst s0. destruct (pm =? 0);
      [apply fprintf_kept | apply kept_refl]. }
  split.
  - eapply same_header_trans; [apply (K0 0)|].
    apply (propagate_move_within_table_verdicts s0 i moves_to_win).
  - intros j Hj Dj. eapply kept_trans; [apply K0|].
    apply propagate_move_within_table_undecodable; rewrite ?T0;
      try assumption; lia.
Qed.

Lemma main_scan_undecodable max_index_static moves_to_win l :
  (forall i, In i l -> 0 <= i < max_index_static) ->
  forall st pm,
    plain_header (tb st) ->
    undecodable_illegal max_index_static st ->
    same_header st
      (fst (fold_left (main_scan_index moves_to_win) l (st, pm)))
    /\ forall j, 0 <= j -> fst (index_to_position (tb st) j) = false ->
         kept j st
           (fst (fold_left (main_scan_index moves_to_win) l (st, pm))).
Proof.
  induction l as [|i l IH]; intros Hl st pm Hplain I; cbn [fold_left].
  - split; [apply same_header_refl | intros; apply kept_refl].
  - pose proof (main_scan_index_undecodable max_index_static moves_to_win
                  st pm i Hplain (Hl i (or_introl eq_refl)) I) as [H1 K1].
    destruct (main_scan_index moves_to_win (st, pm) i) as [st1 pm1].
    cbn [fst] in H1, K1.
    destruct (IH (fun i' Hin => Hl i' (or_intror Hin)) st1 pm1) as [H2 K2].
    + eapply plain_header_same; eassumption.
    + eapply undecodable_illegal_kept; eassumption.
    + split; [eapply same_header_trans; eassumption|].
      intros j Hj Dj. eapply kept_trans; [now apply K1|].
      apply K2; [exact Hj|].
      now rewrite (index_to_position_header st st1 j H1).
Qed.

Lemma main_pass_undecodable max_index_static moves_to_win st :
  plain_header (tb st) ->
  undecodable_illegal max_index_static st ->
  same_header st (fst (main_pass max_index_static moves_to_win st))
  /\ forall j, 0 <= j -> fst (index_to_position (tb st) j) = false ->
       kept j st (fst (main_pass max_index_static moves_to_win st)).
Proof.
  intros Hplain I. unfold main_pass.
  pose proof (main_scan_undecodable max_index_static moves_to_win
                (seqZ 0 max_index_static)
                ltac:(intros i Hin;
                      apply list_elem_of_In, elem_of_seqZ in Hin; lia)
                st 0 Hplain I) as [H K].
  destruct (fold_left _ _ _) as [st' pm]. cbn [fst] in *.
  split; [exact H|].
  intros j Hj Dj. eapply kept_trans; [now apply K | apply fprintf_kept].
Qed.

Lemma main_loop_undecodable max_index_static max_moves_to_win fuel :
  forall st moves_to_win progress_made,
    plain_header (tb st) ->
    undecodable_illegal max_index_static st ->
    forall j, 0 <= j -> fst (index_to_position (tb st) j) = false ->
      kept j st
        (fst (main_loop fuel max_index_static max_moves_to_win st
                moves_to_win progress_made)).
Proof.
  induction fuel as [|fuel IH]; intros st mtw pm Hplain I j Hj Dj;
    cbn [main_loop]; destruct (_ || _); try apply kept_refl.
  pose proof (main_pass_undecodable max_index_static mtw st Hplain I)
    as [H K].
  destruct (main_pass max_index_static mtw st) as [st' pm'].
  cbn [fst] in H, K. eapply kept_trans; [now apply K|].
  apply IH.
  - eapply plain_header_same; eassumption.
  - eapply undecodable_illegal_kept; eassumption.
  - exact Hj.
  - now rewrite (index_to_position_header st st' j H).
Qed.

Lemma initialize_tablebase_undecodable st j :
  max_index (tb st) <= Z.of_nat (length (entries (tb st))) ->
  0 <= j < max_index (tb st) ->
  fst (index_to_position (tb st) j) = false ->
  movecnt (entry_at (tb (initialize_tablebase st)) j) = ILLEGAL_POSITION
  /\ mate_in_cnt (entry_at (tb (initialize_tablebase st)) j) = 255
  /\ stalemate_cnt (entry_at (tb (initialize_tablebase st)) j) = 255.
Proof.
  intros Hmax Hj D.
  rewrite initialize_tablebase_entry by (unfold in_table; lia).
  unfold initialized_entry.
  destruct (index_to_position (tb st) j) as [ok p]. cbn [fst] in D.
  subst ok. cbn [negb].
  apply init_entry_fields; unfold ILLEGAL_POSITION; lia.
Qed.



(** X19: the indices that do not decode stay ILLEGAL through the whole
    build: in a tablebase of one to five mobile pieces, none of them a
    pawn, whose entry array holds [max_index] entries, an index below
    [max_index] that [index_to_position] rejects holds movecnt
    ILLEGAL_POSITION, mate-in count 255 and stalemate count 255 after
    [initialize_tablebase] and after any number of passes of the loop of
    [main], however the loop is started. *)
Theorem build_keeps_illegal (st : state) (j : Z) (fuel : nat)
    (max_moves_to_win moves_to_win progress_made : Z) :
  plain_header (tb st) ->
  max_index (tb st) <= Z.of_nat (length (entries (tb st))) ->
  0 <= j < max_index (tb st) ->
  fst (index_to_position (tb st) j) = false ->
  let st1 := initialize_tablebase st in
  let e := entry_at
             (tb (fst (main_loop fuel (max_index (tb st1)) max_moves_to_win
                         st1 moves_to_win progress_made))) j in
  movecnt e = ILLEGAL_POSITION /\ mate_in_cnt e = 255
  /\ stalemate_cnt e = 255.
Proof.
  intros Hplain Hmax Hj D st1 e.
  pose proof (initialize_tablebase_kept st (max_index (tb st)) ltac:(lia))
    as [H _]. fold st1 in H.
  pose proof (initialize_tablebase_undecodable st j Hmax Hj D) as F.
  fold st1 in F.
  assert (I : undecodable_illegal (max_index (tb st1)) st1).
  { intros i Hi Di. rewrite (max_index_header _ _ H) in Hi.
    rewrite (index_to_position_header st st1 i H) in Di.
    apply (initialize_tablebase_undecodable st i Hmax Hi Di). }
  assert (K : kept j st1
                (fst (main_loop fuel (max_index (tb st1)) max_moves_to_win
                        st1 moves_to_win progress_made))).
  { clearbody st1. apply main_loop_undecodable.
    - eapply plain_header_same; eassumption.
    - exact I.
    - lia.
    - now rewrite (index_to_position_header st st1 j H). }
  subst e. rewrite (kept_entry_at _ _ _ K). exact F.
Qed.

Lemma build_keeps_illegal_witness :
  let st1 := initialize_tablebase (State create_tablebase []) in
  let e := entry_at (tb (fst (main_loop 7 (max_index (tb st1)) 1 st1 0 1))) 0 in
  movecnt e = ILLEGAL_POSITION /\ mate_in_cnt e = 255
  /\ stalemate_cnt e = 255.
Proof.
  apply (build_keeps_illegal (State create_tablebase []) 0 7 1 0 1).
  - split; [cbn; lia|]. intros piece Hp.
    change (num_mobiles (tb (State create_tablebase []))) with 3 in Hp.
    assert (C : piece = 0 \/ piece = 1 \/ piece = 2) by lia.
    destruct C as [-> | [-> | ->]]; vm_compute; split; discriminate.
  - cbn [tb]. rewrite create_tablebase_size.
    change (max_index create_tablebase) with 524287. lia.
  - cbn [tb]. change (max_index create_tablebase) with 524287. lia.
  - vm_compute. reflexivity.
Defined.

(** * The passes end, and the entries stay unsigned chars *)

(** X20: the loop of [main] ends on any table: started at pass
    [moves_to_win] on a table whose entry array holds
    [max_index_static] entries, it has ended once the fuel covers the
    entries not yet propagated, the passes [max_moves_to_win] still asks
    for, and one more. *)
Theorem passes_terminate (fuel : nat) (max_index_static max_moves_to_win : Z)
    (st : state) (moves_to_win progress_made : Z) :
  max_index_static <= Z.of_nat (length (entries (tb st))) ->
  Z.of_nat (length (entries (tb st)))
  - Z.of_nat (count_propagated (entries (tb st)))
  + Z.max 0 (max_moves_to_win - moves_to_win) + 1 <= Z.of_nat fuel ->
  snd (main_loop fuel max_index_static max_moves_to_win st
         moves_to_win progress_made) = true.
Proof.
  intros Hmax Hf. apply main_loop_terminates; [exact Hmax | right; exact Hf].
Qed.

Lemma passes_terminate_witness :
  snd (main_loop 4 4 1 sample_won 0 1) = true.
Proof.
  apply (passes_terminate 4 4 1 sample_won 0 1).
  - simpl. lia.
  - vm_compute. discriminate.
Defined.



















